(** * LeQture: the PDF page-content extraction pipeline

    A shallow embedding of [ocr_extract_lines_with_positions] and of the
    page loop of [extract_pdf_images_and_text] (src/server.py) and [main]
    (src/mineru_alternative.py), with the properties the specification
    states about them.

    Conventions of the embedding.
    - Python [str] values are [string]s; a character is a code point of
      the Latin-1 range, and [isspace] is [str.isspace] on that range.
    - Page coordinates ([bbox] entries, OCR [top]/[left]) are only ever
      compared, never computed with: the finitely many finite numbers of a
      document are taken on a common grid, as integers.
    - External steps that the code lets fail (decoding, rasterization, the
      OCR engine, file writes) abort the whole run; the embedding is of the
      runs in which they succeed.
    - [xref_to_filename] is a [gmap Z string].
    - What the code does to the outside world (PNG files written, OCR engine
      invocations) is returned as a list of [event]s, in program order. *)

From Stdlib Require Import Ascii String ZArith QArith Lia.
From stdpp Require Import base list gmap strings pretty sorting.

Local Open Scope string_scope.
Local Open Scope list_scope.
Local Open Scope Z_scope.

(** ** Python string operations *)

(** [str.isspace] for one character (code points below 256). *)
Definition isspace (c : ascii) : bool :=
  let n := N_of_ascii c in
  ((9 <=? n) && (n <=? 13) || (28 <=? n) && (n <=? 32)
   || (n =? 133) || (n =? 160))%N.

(** [s.lstrip()]. *)
Fixpoint lstrip (s : string) : string :=
  match s with
  | EmptyString => EmptyString
  | String c s' => if isspace c then lstrip s' else s
  end.

(** [s.rstrip()]. *)
Fixpoint rstrip (s : string) : string :=
  match s with
  | EmptyString => EmptyString
  | String c s' =>
      match rstrip s' with
      | EmptyString => if isspace c then EmptyString else String c EmptyString
      | r => String c r
      end
  end.

(** [s.strip()]: leading and trailing whitespace removed. *)
Definition strip (s : string) : string := rstrip (lstrip s).

(** [sep.join(ws)]. *)
Fixpoint join (sep : string) (ws : list string) : string :=
  match ws with
  | [] => EmptyString
  | [w] => w
  | w :: ws' => w +:+ sep +:+ join sep ws'
  end.

(** A string with no whitespace at either end. *)
Definition stripped (s : string) : Prop := lstrip s = s ∧ rstrip s = s.

(** [if s:] for a string. *)
Definition nonempty (s : string) : bool :=
  match s with EmptyString => false | _ => true end.

(** Newline, and [f"{n:04d}"]: decimal digits, padded with zeros on the
    left to a width of at least four. *)
Definition nl : string := String (ascii_of_nat 10) EmptyString.

Fixpoint zeros (n : nat) : string :=
  match n with O => EmptyString | S n' => String "0"%char (zeros n') end.

Definition fmt_04d (n : nat) : string :=
  let d := pretty n in zeros (4 - String.length d) +:+ d.

(** ** Python's stable sort with a key *)

(** Tuple comparison [a < b] of the two sort keys used by the code. *)
Definition lt2 (a b : Z * Z) : bool :=
  (a.1 <? b.1) || ((a.1 =? b.1) && (a.2 <? b.2)).

Definition lt3 (a b : Z * Z * Z) : bool :=
  (a.1.1 <? b.1.1)
  || ((a.1.1 =? b.1.1)
      && ((a.1.2 <? b.1.2) || ((a.1.2 =? b.1.2) && (a.2 <? b.2)))).

Section py_sort.
Context {A K : Type} (ltk : K → K → bool) (key : A → K).

(** [x] stood before every element of [l]: it goes in front of the first
    element whose key is not smaller than its own. *)
Fixpoint insert_by (x : A) (l : list A) : list A :=
  match l with
  | [] => [x]
  | y :: l' => if ltk (key y) (key x) then y :: insert_by x l'
               else x :: l
  end.

(** [l.sort(key=key)]: the stable sorted rearrangement of [l]. Python
    sorts by another algorithm; stability determines the result. *)
Definition py_sort (l : list A) : list A := foldr insert_by [] l.

(** [a] may stand before [b]: the key of [b] is not smaller. *)
Definition key_le (a b : A) : Prop := ltk (key b) (key a) = false.
End py_sort.

(** ** OCR word tokens *)

(** [data["conf"][i]]: what [float(conf_str)] makes of it. *)
Inductive conf_field :=
| ConfNum (c : Q)        (* a number, or a string [float] parses *)
| ConfNaN                (* [float] returns nan: every comparison is False *)
| ConfUnparsable.        (* [float] raises *)

(** One row [i] of the column dictionary returned by
    [pytesseract.image_to_data(..., output_type=Output.DICT)]. *)
Record token := {
  tok_text : option string;     (* data["text"][i], possibly None *)
  tok_conf : conf_field;        (* data["conf"][i] *)
  tok_left : Z;                 (* data["left"][i] *)
  tok_top : Z;                  (* data["top"][i] *)
  tok_block_num : Z;
  tok_par_num : Z;
  tok_line_num : Z
}.

Definition line_key : Type := Z * Z * Z.

Definition tok_key (t : token) : line_key :=
  (tok_block_num t, tok_par_num t, tok_line_num t).

(** [text = (data["text"][i] or "").strip()] *)
Definition tok_word (t : token) : string :=
  strip (default EmptyString (tok_text t)).

(** The [try: conf = float(conf_str) except Exception: conf = -1.0] block
    followed by the test [conf < min_conf]. *)
Definition conf_value (c : conf_field) : conf_field :=
  match c with
  | ConfUnparsable => ConfNum (-1)
  | _ => c
  end.

Definition conf_lt (c : conf_field) (min_conf : Z) : bool :=
  match conf_value c with
  | ConfNum q => match (q ?= inject_Z min_conf)%Q with Lt => true | _ => false end
  | _ => false
  end.

(** [if text == "" or conf < min_conf: continue] *)
Definition skipped (min_conf : Z) (t : token) : bool :=
  negb (nonempty (tok_word t)) || conf_lt (tok_conf t) min_conf.

(** An OCR line [(top, left, text)]. *)
Definition ocr_line : Type := Z * Z * string.

(** The line being accumulated: [current_key], [current_words],
    [current_top], [current_left].  The four variables are assigned
    together; [NoLine] is their initial value [None, [], None, None]. *)
Inductive current :=
| NoLine
| Line (key : line_key) (words : list string) (ctop cleft : Z).

(** The flush:
    [if current_key is not None and current_words:
         line_text = " ".join(current_words).strip()
         if line_text: items.append((current_top, current_left, line_text))] *)
Definition flush (items : list ocr_line) (cur : current) : list ocr_line :=
  match cur with
  | NoLine => items
  | Line _ words ctop cleft =>
      match words with
      | [] => items
      | _ => let line_text := strip (join " " words) in
             if nonempty line_text then items ++ [(ctop, cleft, line_text)]
             else items
      end
  end.

Definition key_eqb (a b : line_key) : bool := bool_decide (a = b).

(** One iteration of [for i in range(n)]. *)
Definition ocr_step (min_conf : Z) (st : list ocr_line * current) (t : token)
  : list ocr_line * current :=
  let '(items, cur) := st in
  if skipped min_conf t then st
  else
    match cur with
    | Line key words ctop cleft =>
        if key_eqb (tok_key t) key
        then (items, Line key (words ++ [tok_word t])
                          (Z.min ctop (tok_top t)) (Z.min cleft (tok_left t)))
        else (flush items cur, Line (tok_key t) [tok_word t] (tok_top t) (tok_left t))
    | NoLine =>
        (flush items cur, Line (tok_key t) [tok_word t] (tok_top t) (tok_left t))
    end.

Definition ocr_key (l : ocr_line) : Z * Z := (l.1.1, l.1.2).

(** [ocr_extract_lines_with_positions], applied to the engine's answer
    [data]; the function is the same text in both source files. *)
Definition ocr_extract_lines_with_positions (data : list token) (min_conf : Z)
  : list ocr_line :=
  let '(items, cur) := foldl (ocr_step min_conf) ([], NoLine) data in
  py_sort lt2 ocr_key (flush items cur).

(** ** Pages, blocks and content items *)

(** A bounding box [(x0, y0, x1, y1)]. *)
Definition bbox : Type := Z * Z * Z * Z.
Definition bbox_x0 (bb : bbox) : Z := bb.1.1.1.
Definition bbox_y0 (bb : bbox) : Z := bb.1.1.2.

(** One entry of [block["lines"]]. *)
Record line := {
  line_spans : list (option string);   (* span.get("text", "") of each span *)
  line_bbox : option bbox              (* line.get("bbox", bbox) *)
}.

(** One entry of [raw["blocks"]]; an absent key is [None] (or [[]]). *)
Record block := {
  block_type : option Z;               (* block.get("type", None) *)
  block_bbox : option bbox;            (* block.get("bbox", [0, 0, 0, 0]) *)
  block_lines : list line;             (* block.get("lines", []) *)
  block_xref : option Z                (* block.get("xref", None) *)
}.

(** A page is the block list of its [rawdict]; a document its pages. *)
Definition page : Type := list block.
Definition document : Type := list page.

Inductive kind := Text | Image.

Global Instance kind_eq_dec : EqDecision kind.
Proof. solve_decision. Defined.

(** A content item [(y, x, kind, payload)]. *)
Record content_item := {
  ci_y : Z;
  ci_x : Z;
  ci_kind : kind;
  ci_payload : string
}.

Definition is_text (it : content_item) : bool :=
  bool_decide (ci_kind it = Text).

(** The sort key [(t[0], t[1], 0 if t[2] == "text" else 1)]. *)
Definition item_key (it : content_item) : Z * Z * Z :=
  (ci_y it, ci_x it, if is_text it then 0 else 1).

(** What the code does to the outside world. [out_path] is
    [images_dir / img_name], kept as the pair. *)
Inductive event :=
| SavePixmap (xref : Z) (out_path : string * string)
    (* ensure_rgb_pixmap(doc, xref).save(out_path) *)
| SaveClip (page_index : nat) (bb : bbox) (out_path : string * string)
    (* save_clip_as_png(page, bbox, out_path) *)
| ImageToData (page_index : nat) (psm : string).
    (* pytesseract.image_to_data(pil_img, config="--psm <psm>") *)

(** The OCR engine's answers, fixed per page and mode. *)
Definition ocr_engine : Type := nat → string → list token.

(** [block.get("bbox", [0, 0, 0, 0])] *)
Definition bbox_of (b : block) : bbox := default (0, 0, 0, 0) (block_bbox b).

(** [if xref:] is taken for an xref other than [None] and [0]. *)
Definition xref_truthy (x : option Z) : option Z :=
  match x with
  | Some n => if n =? 0 then None else Some n
  | None => None
  end.

(** [f"IMAGE_{image_counter:04d}.png"] *)
Definition image_name (n : nat) : string := "IMAGE_" +:+ fmt_04d n +:+ ".png".

(** [f"=== Slide {page_index + 1} ==="] *)
Definition slide_header (page_index : nat) : string :=
  "=== Slide " +:+ pretty (page_index + 1)%nat +:+ " ===".

(** The body of [for line in block.get("lines", [])]: the item the line
    appends, if any. *)
Definition line_item (bb : bbox) (l : line) : option content_item :=
  let line_text := strip (join "" (map (default "") (line_spans l))) in
  let lbbox := default bb (line_bbox l) in
  if nonempty line_text
  then Some {| ci_y := bbox_y0 lbbox; ci_x := bbox_x0 lbbox;
               ci_kind := Text; ci_payload := line_text |}
  else None.

(** The item of [content_items.append((y0, x0, "image", img_name))]. *)
Definition image_item (bb : bbox) (img_name : string) : content_item :=
  {| ci_y := bbox_y0 bb; ci_x := bbox_x0 bb;
     ci_kind := Image; ci_payload := img_name |}.

(** [any(k == "text" for _, _, k, _ in content_items)] *)
Definition native_text_found (content_items : list content_item) : bool :=
  existsb is_text content_items.

(** [content_items.append((ly, lx, "text", line_text))] for an OCR line. *)
Definition ocr_item (l : ocr_line) : content_item :=
  {| ci_y := l.1.1; ci_x := l.1.2; ci_kind := Text; ci_payload := l.2 |}.

(** A call [ocr_extract_lines_with_positions(pil_img, psm, min_conf)] for
    the image of page [page_index]: the engine is invoked once, and its
    answer is turned into lines. *)
Definition run_ocr (eng : ocr_engine) (page_index : nat) (psm : string)
    (min_conf : Z) : list ocr_line * list event :=
  (ocr_extract_lines_with_positions (eng page_index psm) min_conf,
   [ImageToData page_index psm]).

(** The OCR fallback of one page:
    [ocr_lines = ocr_extract_lines_with_positions(pil_img, psm="6", min_conf=60)
     if not ocr_lines:
         ocr_lines = ocr_extract_lines_with_positions(pil_img, psm="11", min_conf=55)] *)
Definition ocr_fallback (eng : ocr_engine) (page_index : nat)
  : list ocr_line * list event :=
  let '(ocr_lines, evs1) := run_ocr eng page_index "6" 60 in
  match ocr_lines with
  | [] => let '(ocr_lines, evs2) := run_ocr eng page_index "11" 55 in
          (ocr_lines, evs1 ++ evs2)
  | _ => (ocr_lines, evs1)
  end.

(** Step 2 of the page loop, then the sort: the merged items of a page. *)
Definition merge_page (eng : ocr_engine) (page_index : nat)
    (content_items : list content_item) : list content_item * list event :=
  let '(content_items, evs) :=
    if native_text_found content_items then (content_items, [])
    else let '(ocr_lines, evs) := ocr_fallback eng page_index in
         (content_items ++ map ocr_item ocr_lines, evs) in
  (py_sort lt3 item_key content_items, evs).

(** What is written for one item. *)
Definition render_item (it : content_item) : string :=
  match ci_kind it with
  | Text => ci_payload it
  | Image => "[" +:+ ci_payload it +:+ "]"
  end.

(** ** src/server.py: [extract_pdf_images_and_text] *)
Module Server.

(** The variables that live across the page loop. *)
Record state := {
  image_counter : nat;
  xref_to_filename : gmap Z string;
  image_list : list string
}.

Definition init : state :=
  {| image_counter := 0; xref_to_filename := ∅; image_list := [] |}.

(** The [image_counter += 1 ... save_clip_as_png ... image_list.append]
    sequence of the two crop branches. *)
Definition crop (images_dir : string) (page_index : nat) (bb : bbox)
    (st : state) : state * string * list event :=
  let n := S (image_counter st) in
  let img_name := image_name n in
  ({| image_counter := n;
      xref_to_filename := xref_to_filename st;
      image_list := image_list st ++ [img_name] |},
   img_name,
   [SaveClip page_index bb (images_dir, img_name)]).

(** The body of [for block in blocks]: the new state, the items appended
    to [content_items], and what was done outside. *)
Definition process_block (images_dir : string) (page_index : nat)
    (st : state) (b : block) : state * list content_item * list event :=
  let bb := bbox_of b in
  match block_type b with
  | Some 0 => (st, omap (line_item bb) (block_lines b), [])
  | Some 1 =>
      let '(st', img_name, evs) :=
        match xref_truthy (block_xref b) with
        | Some xref =>
            match xref_to_filename st !! xref with
            | Some img_name => (st, img_name, [])
            | None =>
                let n := S (image_counter st) in
                let img_name := image_name n in
                ({| image_counter := n;
                    xref_to_filename := <[xref := img_name]> (xref_to_filename st);
                    image_list := image_list st ++ [img_name] |},
                 img_name,
                 [SavePixmap xref (images_dir, img_name)])
            end
        | None => crop images_dir page_index bb st
        end in
      (st', [image_item bb img_name], evs)
  | _ =>
      (* [if bbox:] holds for every four-element bbox *)
      let '(st', img_name, evs) := crop images_dir page_index bb st in
      (st', [image_item bb img_name], evs)
  end.

Fixpoint blocks_loop (images_dir : string) (page_index : nat)
    (st : state) (blocks : list block)
  : state * list content_item * list event :=
  match blocks with
  | [] => (st, [], [])
  | b :: blocks' =>
      let '(st1, its1, evs1) := process_block images_dir page_index st b in
      let '(st2, its2, evs2) := blocks_loop images_dir page_index st1 blocks' in
      (st2, its1 ++ its2, evs1 ++ evs2)
  end.

(** One iteration of [for page_index in range(len(doc))]: the new state,
    the sorted [content_items], and what was done outside. *)
Definition process_page (images_dir : string) (eng : ocr_engine)
    (page_index : nat) (st : state) (pg : page)
  : state * list content_item * list event :=
  let '(st', content_items, evs1) := blocks_loop images_dir page_index st pg in
  let '(merged, evs2) := merge_page eng page_index content_items in
  (st', merged, evs1 ++ evs2).

(** The lines a page appends to [txt_lines]. *)
Definition page_lines (page_index : nat) (merged : list content_item)
  : list string :=
  slide_header page_index :: map render_item merged ++ [""].

Fixpoint pages_loop (images_dir : string) (eng : ocr_engine)
    (page_index : nat) (st : state) (pages : list page)
  : state * list string * list event :=
  match pages with
  | [] => (st, [], [])
  | pg :: pages' =>
      let '(st1, merged, evs1) := process_page images_dir eng page_index st pg in
      let '(st2, txt_lines, evs2) :=
        pages_loop images_dir eng (S page_index) st1 pages' in
      (st2, page_lines page_index merged ++ txt_lines, evs1 ++ evs2)
  end.

(** The run of [extract_pdf_images_and_text]: final state, [txt_lines],
    events. *)
Definition run (images_dir : string) (eng : ocr_engine) (doc : document)
  : state * list string * list event :=
  pages_loop images_dir eng 0 init doc.

(** [txt_content, image_list] as returned ([images_dir] is the input's). *)
Definition extract_pdf_images_and_text (images_dir : string)
    (eng : ocr_engine) (doc : document) : string * list string :=
  let '(st, txt_lines, _) := run images_dir eng doc in
  (join nl txt_lines, image_list st).

End Server.

(** ** src/mineru_alternative.py: [main] *)
Module Mineru.

(** [image_counter] and [xref_to_filename]. *)
Record state := {
  image_counter : nat;
  xref_to_filename : gmap Z string
}.

Definition init : state :=
  {| image_counter := 0; xref_to_filename := ∅ |}.

(** [PDF_PATH.parent], [PDF_PATH.stem], and [a / b] on paths. *)
Definition base_dir : string := "/Users/ace/Downloads".
Definition pdf_stem : string := "compressed(2)".
Definition path_join (a b : string) : string := a +:+ "/" +:+ b.

(** [out_dir / "images"], for the value [timestamp] of
    [datetime.now().strftime("%Y%m%d-%H%M%S")]. *)
Definition images_dir (timestamp : string) : string :=
  path_join (path_join base_dir (timestamp +:+ "_" +:+ pdf_stem)) "images".

(** [image_counter += 1 ... save_clip_as_png(page, bbox, out_path)] *)
Definition crop (images_dir : string) (page_index : nat) (bb : bbox)
    (st : state) : state * string * list event :=
  let n := S (image_counter st) in
  let img_name := image_name n in
  ({| image_counter := n; xref_to_filename := xref_to_filename st |},
   img_name,
   [SaveClip page_index bb (images_dir, img_name)]).

(** The body of [for block in blocks]. *)
Definition process_block (images_dir : string) (page_index : nat)
    (st : state) (b : block) : state * list content_item * list event :=
  let bb := bbox_of b in
  match block_type b with
  | Some 0 => (st, omap (line_item bb) (block_lines b), [])
  | Some 1 =>
      let '(st', img_name, evs) :=
        match xref_truthy (block_xref b) with
        | Some xref =>
            match xref_to_filename st !! xref with
            | Some img_name => (st, img_name, [])
            | None =>
                let n := S (image_counter st) in
                let img_name := image_name n in
                ({| image_counter := n;
                    xref_to_filename := <[xref := img_name]> (xref_to_filename st) |},
                 img_name,
                 [SavePixmap xref (images_dir, img_name)])
            end
        | None => crop images_dir page_index bb st
        end in
      (st', [image_item bb img_name], evs)
  | _ =>
      let '(st', img_name, evs) := crop images_dir page_index bb st in
      (st', [image_item bb img_name], evs)
  end.

Fixpoint blocks_loop (images_dir : string) (page_index : nat)
    (st : state) (blocks : list block)
  : state * list content_item * list event :=
  match blocks with
  | [] => (st, [], [])
  | b :: blocks' =>
      let '(st1, its1, evs1) := process_block images_dir page_index st b in
      let '(st2, its2, evs2) := blocks_loop images_dir page_index st1 blocks' in
      (st2, its1 ++ its2, evs1 ++ evs2)
  end.

Definition process_page (images_dir : string) (eng : ocr_engine)
    (page_index : nat) (st : state) (pg : page)
  : state * list content_item * list event :=
  let '(st', content_items, evs1) := blocks_loop images_dir page_index st pg in
  let '(merged, evs2) := merge_page eng page_index content_items in
  (st', merged, evs1 ++ evs2).

(** What a page writes to [txt]: the header, every item, and the blank
    line, each followed by a newline. *)
Definition page_text (page_index : nat) (merged : list content_item)
  : string :=
  (slide_header page_index +:+ nl)
  +:+ join "" (map (λ it, render_item it +:+ nl) merged)
  +:+ nl.

Fixpoint pages_loop (images_dir : string) (eng : ocr_engine)
    (page_index : nat) (st : state) (pages : list page)
  : state * string * list event :=
  match pages with
  | [] => (st, "", [])
  | pg :: pages' =>
      let '(st1, merged, evs1) := process_page images_dir eng page_index st pg in
      let '(st2, txt, evs2) :=
        pages_loop images_dir eng (S page_index) st1 pages' in
      (st2, page_text page_index merged +:+ txt, evs1 ++ evs2)
  end.

(** The run of [main] started at [timestamp]: final state, the contents
    of [slides_with_placeholders.txt], events. *)
Definition main (timestamp : string) (eng : ocr_engine) (doc : document)
  : state * string * list event :=
  pages_loop (images_dir timestamp) eng 0 init doc.

End Mineru.

(** The file names of the PNG files written, in order. *)
Definition saved_name (e : event) : option string :=
  match e with
  | SavePixmap _ p => Some p.2
  | SaveClip _ _ p => Some p.2
  | ImageToData _ _ => None
  end.

Definition saved_names (evs : list event) : list string := omap saved_name evs.

(** The OCR modes invoked for page [page_index], in order. *)
Definition ocr_call (page_index : nat) (e : event) : option string :=
  match e with
  | ImageToData p psm => if bool_decide (p = page_index) then Some psm else None
  | _ => None
  end.

Definition ocr_calls (page_index : nat) (evs : list event) : list string :=
  omap (ocr_call page_index) evs.


(** * Vocabulary of the specification *)

(** ** Merge ordering *)

(** [i] must come before [j]: the three cases of the specification. *)
Definition strictly_before (i j : content_item) : Prop :=
  ci_y i < ci_y j
  ∨ (ci_y i = ci_y j ∧ ci_x i < ci_x j)
  ∨ (ci_y i = ci_y j ∧ ci_x i = ci_x j
     ∧ ci_kind i = Text ∧ ci_kind j = Image).

(** The specification's merge ordering: every earlier item is strictly
    before every later one. *)
Definition merge_ordering_strict (l : list content_item) : Prop :=
  ∀ a b i j, (a < b)%nat → l !! a = Some i → l !! b = Some j →
    strictly_before i j.

(** What the sort establishes: an earlier item is strictly before a later
    one, or the two have the same position and the same kind. *)
Definition merge_ordering (l : list content_item) : Prop :=
  ∀ a b i j, (a < b)%nat → l !! a = Some i → l !! b = Some j →
    strictly_before i j
    ∨ (ci_y i = ci_y j ∧ ci_x i = ci_x j ∧ ci_kind i = ci_kind j).

(** The items handed to the sort: the page's own, and the OCR lines when
    the page has no native text. *)
Definition merge_input (eng : ocr_engine) (page_index : nat)
    (content_items : list content_item) : list content_item :=
  if native_text_found content_items then content_items
  else content_items ++ map ocr_item (ocr_fallback eng page_index).1.

(** ** Sample inputs *)

Definition no_ocr : ocr_engine := λ _ _, [].

(** An image block without xref, and a page that draws it twice at one
    and the same place. *)
Definition clip_block : block :=
  {| block_type := Some 1; block_bbox := Some (0, 0, 10, 10);
     block_lines := []; block_xref := None |}.

Definition page_two_clips : page := [clip_block; clip_block].

(** ** OCR line reconstruction *)

(** The tokens that are not discarded, in emission order. *)
Definition survivors (min_conf : Z) (data : list token) : list token :=
  filter (λ t, skipped min_conf t = false) data.

(** The triple of a group: that of its first token. *)
Definition run_key (g : list token) : option line_key :=
  tok_key <$> head g.

(** The maximal runs of consecutive tokens with the same triple:
    [runs_from g l] are the runs of [g ++ l] when [g] is one run's start. *)
Fixpoint runs_from (g : list token) (l : list token) : list (list token) :=
  match l with
  | [] => [g]
  | t :: l' =>
      if bool_decide (Some (tok_key t) = run_key g)
      then runs_from (g ++ [t]) l'
      else g :: runs_from [t] l'
  end.

Definition runs (l : list token) : list (list token) :=
  match l with
  | [] => []
  | t :: l' => runs_from [t] l'
  end.

(** The smallest of [z :: zs]. *)
Definition minimum (z : Z) (zs : list Z) : Z := foldl Z.min z zs.

(** The OCR line of a group of tokens: the minimum top, the minimum left,
    and the words joined by single spaces, in the order of the group. *)
Definition line_of_group (g : list token) : ocr_line :=
  match g with
  | [] => (0, 0, "")
  | t :: g' =>
      (minimum (tok_top t) (map tok_top g'),
       minimum (tok_left t) (map tok_left g'),
       join " " (map tok_word g))
  end.

(** The distinct triples of a token sequence, in first-seen order. *)
Fixpoint first_seen (ks : list line_key) : list line_key :=
  match ks with
  | [] => []
  | k :: ks' => k :: filter (λ k', k' ≠ k) (first_seen ks')
  end.

(** Grouping by triple as the specification words it: one group per
    distinct triple, holding all the tokens that share it. *)
Definition group_by_key (l : list token) : list (list token) :=
  map (λ k, filter (λ t, tok_key t = k) l) (first_seen (map tok_key l)).

(** The lines the specification's grouping would yield. *)
Definition lines_by_key (data : list token) (min_conf : Z) : list ocr_line :=
  py_sort lt2 ocr_key (map line_of_group (group_by_key (survivors min_conf data))).

(** [rs] cuts [l] into its maximal runs: the runs are not empty, all
    tokens of a run share its triple, neighbouring runs differ in their
    triple, and together they are [l]. *)
Fixpoint neighbours_differ (rs : list (list token)) : Prop :=
  match rs with
  | g :: ((g' :: _) as rs') => run_key g ≠ run_key g' ∧ neighbours_differ rs'
  | _ => True
  end.

Definition is_run (g : list token) : Prop :=
  g ≠ [] ∧ Forall (λ t, Some (tok_key t) = run_key g) g.

Definition maximal_runs (l : list token) (rs : list (list token)) : Prop :=
  concat rs = l ∧ Forall is_run rs ∧ neighbours_differ rs.

(** A word token as the engine reports it. *)
Definition word_token (s : string) (conf : Z) (tp lf : Z) (k : line_key) : token :=
  {| tok_text := Some s; tok_conf := ConfNum (inject_Z conf);
     tok_left := lf; tok_top := tp;
     tok_block_num := k.1.1; tok_par_num := k.1.2; tok_line_num := k.2 |}.

(** Two words of line (1,1,1) with a word of line (1,1,2) between them. *)
Definition interleaved_tokens : list token :=
  [word_token "a" 90 10 5 (1, 1, 1);
   word_token "b" 90 20 5 (1, 1, 2);
   word_token "c" 90 10 9 (1, 1, 1)].

(** The loop variables while the group [g] is being accumulated. *)
Definition open_run (g : list token) : current :=
  match g with
  | [] => NoLine
  | t :: g' =>
      Line (tok_key t) (map tok_word g)
           (minimum (tok_top t) (map tok_top g'))
           (minimum (tok_left t) (map tok_left g'))
  end.

(** Tokens that share a triple are emitted consecutively: no two runs have
    the same triple. *)
Definition contiguous (l : list token) : Prop := NoDup (map run_key (runs l)).

(** Two words of line (1,1,1), then a word of line (1,1,2). *)
Definition consecutive_tokens : list token :=
  [word_token "a" 90 10 5 (1, 1, 1);
   word_token "c" 90 10 9 (1, 1, 1);
   word_token "b" 90 20 5 (1, 1, 2)].

(** A token whose confidence is not a number. *)
Definition garbled_token : token :=
  {| tok_text := Some "x"; tok_conf := ConfUnparsable;
     tok_left := 0; tok_top := 0;
     tok_block_num := 1; tok_par_num := 1; tok_line_num := 1 |}.

(** ** The two entry points side by side *)

(** The variables of [extract_pdf_images_and_text] that [main] has too. *)
Definition forget (st : Server.state) : Mineru.state :=
  {| Mineru.image_counter := Server.image_counter st;
     Mineru.xref_to_filename := Server.xref_to_filename st |}.

(** ** Empty-line suppression *)

(** A text item carries text that is stripped and not empty. *)
Definition text_kept (it : content_item) : Prop :=
  ci_kind it = Text →
  strip (ci_payload it) ≠ "" ∧ strip (ci_payload it) = ci_payload it.

(** A line of a text block made of blanks only, and a page showing it next
    to a line with text. *)
Definition blank_line : line :=
  {| line_spans := [Some "  "; None; Some " "]; line_bbox := None |}.

Definition titled_page : page :=
  [ {| block_type := Some 0; block_bbox := Some (0, 0, 100, 20);
       block_lines := [ blank_line;
                        {| line_spans := [Some " Intro"; Some "duction "];
                           line_bbox := Some (5, 10, 100, 20) |} ];
       block_xref := None |} ].

(** ** The Block Classifier's Text-kind output *)

(** The text content blocks a raw block yields: one per line of a type-0
    block whose text is not empty. *)
Definition classify_text (b : block) : list content_item :=
  match block_type b with
  | Some 0 => omap (line_item (bbox_of b)) (block_lines b)
  | _ => []
  end.

Definition text_blocks (pg : page) : list content_item :=
  flat_map classify_text pg.

(** The lines of OCR pass 1 and of OCR pass 2 for a page. *)
Definition pass1 (eng : ocr_engine) (page_index : nat) : list ocr_line :=
  ocr_extract_lines_with_positions (eng page_index "6") 60.

Definition pass2 (eng : ocr_engine) (page_index : nat) : list ocr_line :=
  ocr_extract_lines_with_positions (eng page_index "11") 55.

(** A page with one image and no text; an engine that reads "Summary" in
    single-block mode, and one that reads it in sparse mode only. *)
Definition embedded_block : block :=
  {| block_type := Some 1; block_bbox := Some (0, 0, 50, 50);
     block_lines := []; block_xref := Some 7 |}.

Definition image_only_page : page := [embedded_block].

Definition summary_engine : ocr_engine :=
  λ _ psm, if String.eqb psm "6"
           then [word_token "Summary" 95 10 0 (1, 1, 1)] else [].

Definition sparse_engine : ocr_engine :=
  λ _ psm, if String.eqb psm "11"
           then [word_token "Summary" 58 10 0 (1, 1, 1)] else [].

(** ** Image allocation *)

(** The names of the image files numbered [c+1 .. c']. *)
Definition names_between (c c' : nat) : list string :=
  map image_name (seq (S c) (c' - c)).

(** A stretch of the run that takes the counter from [c] to [c'] with the
    events [evs] writes exactly the files numbered [c+1 .. c'], in order. *)
Definition allocates (c c' : nat) (evs : list event) : Prop :=
  (c ≤ c')%nat ∧ saved_names evs = names_between c c'.

(** A document of two pages: a text block with two lines and the embedded
    image 7 on the first, the same image and a vector drawing on the
    second. *)
Definition two_page_document : document :=
  [ [ {| block_type := Some 0; block_bbox := Some (0, 0, 100, 40);
         block_lines := [ {| line_spans := [Some "Intro"];
                             line_bbox := Some (0, 0, 100, 20) |};
                          {| line_spans := [Some "Overview"];
                             line_bbox := Some (0, 20, 100, 40) |} ];
         block_xref := None |};
      {| block_type := Some 1; block_bbox := Some (0, 50, 50, 90);
         block_lines := []; block_xref := Some 7 |} ];
    [ {| block_type := Some 1; block_bbox := Some (10, 10, 60, 50);
         block_lines := []; block_xref := Some 7 |};
      {| block_type := Some 3; block_bbox := Some (0, 60, 50, 90);
         block_lines := []; block_xref := None |} ] ].

(** ** Text streams *)

(** The text made of the given lines, each followed by a newline. *)
Definition lines_text (lines : list string) : string :=
  foldr (λ l txt, l +:+ nl +:+ txt) "" lines.

(** A document of one page without any block. *)
Definition blank_document : document := [[]].

(** ** Runs compared *)

(** The event [e] with the images directory [d] in place of its own. *)
Definition retarget (d : string) (e : event) : event :=
  match e with
  | SavePixmap xref p => SavePixmap xref (d, p.2)
  | SaveClip pi bb p => SaveClip pi bb (d, p.2)
  | ImageToData pi psm => ImageToData pi psm
  end.

(** Two engines that give the same answers. *)
Definition same_answers (eng1 eng2 : ocr_engine) : Prop :=
  ∀ page_index psm, eng1 page_index psm = eng2 page_index psm.

(** ** Image memoization *)

(** A placement: the page index of a block, the block, and the items it
    appended to [content_items]. *)
Definition placement : Type := nat * block * list content_item.

Section trace.
Context {S : Type}
  (step : nat → S → block → S * list content_item * list event).

(** The placements of the blocks of one page, in processing order. *)
Fixpoint blocks_trace (page_index : nat) (st : S) (blocks : list block)
  : list placement :=
  match blocks with
  | [] => []
  | b :: blocks' =>
      (page_index, b, (step page_index st b).1.2)
      :: blocks_trace page_index (step page_index st b).1.1 blocks'
  end.

(** The state after the blocks of one page. *)
Fixpoint blocks_end (page_index : nat) (st : S) (blocks : list block) : S :=
  match blocks with
  | [] => st
  | b :: blocks' => blocks_end page_index (step page_index st b).1.1 blocks'
  end.

(** The placements of all blocks of the pages, in processing order. *)
Fixpoint pages_trace (page_index : nat) (st : S) (pages : list page)
  : list placement :=
  match pages with
  | [] => []
  | pg :: pages' =>
      blocks_trace page_index st pg
      ++ pages_trace (Datatypes.S page_index) (blocks_end page_index st pg) pages'
  end.
End trace.

Definition server_trace (dir : string) (doc : document) : list placement :=
  pages_trace (Server.process_block dir) 0 Server.init doc.

Definition mineru_trace (ts : string) (doc : document) : list placement :=
  pages_trace (Mineru.process_block (Mineru.images_dir ts)) 0 Mineru.init doc.

(** [b] is an image block with the resource identity [x]. *)
Definition shows (x : Z) (b : block) : Prop :=
  block_type b = Some 1 ∧ xref_truthy (block_xref b) = Some x.

(** The names of the files written from the embedded image [x]. *)
Definition pixmap_name (x : Z) (e : event) : option string :=
  match e with
  | SavePixmap y p => if bool_decide (y = x) then Some p.2 else None
  | _ => None
  end.

Definition pixmap_names (x : Z) (evs : list event) : list string :=
  omap (pixmap_name x) evs.

(** A stretch of the run that takes [xref_to_filename] from [m] to [m']:
    entries are only added; every block that shows an identity references
    the file name the map has for it at the end; and a file is written
    for an identity exactly when the map gains it. *)
Definition memoized (m m' : gmap Z string) (tr : list placement)
    (evs : list event) : Prop :=
  m ⊆ m'
  ∧ ∀ x,
      match m' !! x with
      | Some f =>
          (∀ pi b its, (pi, b, its) ∈ tr → shows x b →
                       its = [image_item (bbox_of b) f])
          ∧ pixmap_names x evs = match m !! x with Some _ => [] | None => [f] end
      | None =>
          (∀ pi b its, (pi, b, its) ∈ tr → ¬ shows x b)
          ∧ pixmap_names x evs = []
      end.
From Stdlib Require Import Qround Lqa.

(** * More of the extraction pipeline *)

(** The name of the image a placement references, if its block appended
    exactly one image item. *)
Definition placed_name (p : placement) : option string :=
  match p.2 with
  | [it] => if bool_decide (ci_kind it = Image) then Some (ci_payload it) else None
  | _ => None
  end.

(** What holds of the counter [c], of [xref_to_filename] [m] and of the
    placements [tr] made so far: the names in the map and in the placements
    have numbers up to [c]; the map gives different identities different
    names; a placement references a name of the map only if its block shows
    the identity of that name; and two placements reference the same name
    only if their blocks show the same identity. *)
Definition names_owned (c : nat) (m : gmap Z string) (tr : list placement)
  : Prop :=
  (∀ x f, m !! x = Some f → ∃ n, (n ≤ c)%nat ∧ f = image_name n)
  ∧ (∀ x y f, m !! x = Some f → m !! y = Some f → x = y)
  ∧ (∀ p f, p ∈ tr → placed_name p = Some f →
       ∃ n, (n ≤ c)%nat ∧ f = image_name n)
  ∧ (∀ p f x, p ∈ tr → placed_name p = Some f → m !! x = Some f →
       shows x p.1.2)
  ∧ (∀ i j p q f, (i < j)%nat → tr !! i = Some p → tr !! j = Some q →
       placed_name p = Some f → placed_name q = Some f →
       ∃ x, shows x p.1.2 ∧ shows x q.1.2).

(** The blocks of a page that are not text blocks. *)
Definition picture_blocks (pg : page) : list block :=
  filter (λ b, block_type b ≠ Some 0) pg.

(** The OCR items a page gets: those of the last pass run when the page
    has no Text-kind block, none otherwise. *)
Definition ocr_items (eng : ocr_engine) (page_index : nat) (pg : page)
  : list content_item :=
  match text_blocks pg with
  | [] => map ocr_item match pass1 eng page_index with
                       | [] => pass2 eng page_index
                       | _ => pass1 eng page_index
                       end
  | _ => []
  end.

(** * src/server.py: the YouTube transcript endpoints *)

(** Times are Python ints or finite floats; both are taken as rationals.
    On the times of [plain_time], [//] and [%] by a positive int are exact
    in the interpreter's float arithmetic, as they are on ints. An addition
    of floats is rounded, and is the parameter [fadd] where the code adds. *)
Definition plain_time (x : Q) : Prop := (0 <= x)%Q ∧ (x < inject_Z (2 ^ 53))%Q.


(** [x // d] and [x % d] for a positive int [d], and [int(x)]. *)
Definition floordiv (x : Q) (d : Z) : Z := Qfloor (x / inject_Z d).

Definition pymod (x : Q) (d : Z) : Q := x - inject_Z (d * floordiv x d).

Definition int_of (x : Q) : Z := if Qle_bool 0 x then Qfloor x else Qceiling x.

(** [f"{z:02d}"]: decimal digits, after the sign padded with zeros to a
    width of at least two. *)
Definition fmt_02d (z : Z) : string :=
  if z <? 0
  then let d := pretty (Z.to_N (- z)) in
       "-" +:+ zeros (1 - String.length d) +:+ d
  else let d := pretty (Z.to_N z) in zeros (2 - String.length d) +:+ d.

(** [seconds_to_hms] *)
Definition seconds_to_hms (seconds : Q) : string :=
  let hours := int_of (inject_Z (floordiv seconds 3600)) in
  let minutes := int_of (inject_Z (floordiv (pymod seconds 3600) 60)) in
  let secs := int_of (pymod seconds 60) in
  if 0 <? hours
  then fmt_02d hours +:+ ":" +:+ fmt_02d minutes +:+ ":" +:+ fmt_02d secs
  else fmt_02d minutes +:+ ":" +:+ fmt_02d secs.

(** [s.split(sep)] for a one-character separator. *)
Fixpoint split_on (sep : ascii) (s : string) : list string :=
  match s with
  | EmptyString => [EmptyString]
  | String c s' =>
      if Ascii.eqb c sep then EmptyString :: split_on sep s'
      else match split_on sep s' with
           | w :: ws => String c w :: ws
           | [] => [String c EmptyString]
           end
  end.

(** [int(s)] for a string: [None] when it raises ValueError. The
    interpreter skips white space around the number (the ASCII white
    space, and the no-break space and next-line characters, but not the
    separators 28 to 31 that [str.isspace] accepts), takes one sign, then
    decimal digits with single underscores between them. *)
Definition int_space (c : ascii) : bool :=
  let n := N_of_ascii c in
  ((9 <=? n) && (n <=? 13) || (n =? 32) || (n =? 133) || (n =? 160))%N.

Fixpoint int_lstrip (s : string) : string :=
  match s with
  | EmptyString => EmptyString
  | String c s' => if int_space c then int_lstrip s' else s
  end.

Fixpoint all_space (s : string) : bool :=
  match s with
  | EmptyString => true
  | String c s' => int_space c && all_space s'
  end.

Definition digit_val (c : ascii) : option Z :=
  let n := N_of_ascii c in
  if ((48 <=? n) && (n <=? 57))%N then Some (Z.of_N n - 48) else None.

Fixpoint int_digits (acc : Z) (s : string) : option Z :=
  match s with
  | EmptyString => Some acc
  | String c s' =>
      if Ascii.eqb c "_"
      then match s' with
           | String d _ =>
               match digit_val d with
               | Some _ => int_digits acc s'
               | None => None
               end
           | EmptyString => None
           end
      else match digit_val c with
           | Some v => int_digits (10 * acc + v) s'
           | None => if all_space s then Some acc else None
           end
  end.

Definition int_unsigned (s : string) : option Z :=
  match s with
  | String c s' =>
      match digit_val c with
      | Some v => int_digits v s'
      | None => None
      end
  | EmptyString => None
  end.

Definition py_int (s : string) : option Z :=
  match int_lstrip s with
  | String "+" r => int_unsigned r
  | String "-" r => Z.opp <$> int_unsigned r
  | t => int_unsigned t
  end.

(** Strings of decimal digits only. *)
Fixpoint all_digits (s : string) : bool :=
  match s with
  | EmptyString => true
  | String c s' =>
      match digit_val c with Some _ => all_digits s' | None => false end
  end.

(** What an endpoint answers: a payload with status 200, or an error
    status ([jsonify({"error": ...}), status]). *)
Inductive response (A : Type) :=
| Ok (payload : A)
| Error (status : nat).
Global Arguments Ok {A} payload.
Global Arguments Error {A} status.

(** [timestamp_input]: a JSON string, a JSON value that [float] turns into
    a finite number, or any other JSON value ([float], or later [int] in
    [seconds_to_hms], raises). *)
Inductive timestamp_input :=
| TsStr (s : string)
| TsNum (q : Q)
| TsOther.

(** [parts = [int(p) for p in timestamp_input.split(":")]]: [None] when
    some [int(p)] raises. *)
Definition timestamp_parts (s : string) : option (list Z) :=
  mapM py_int (split_on ":" s).

(** The parsing of the timestamp in [youtube_nearframe_transcript]:
    [center_seconds], or the error answered (400 for a string with a
    number of parts other than two or three, 500 through the handler's
    [except Exception] when [int] or [float] raises). *)
Definition center_seconds (ts : timestamp_input) : response Q :=
  match ts with
  | TsStr s =>
      match timestamp_parts s with
      | None => Error 500
      | Some [m; s] => Ok (inject_Z (m * 60 + s))
      | Some [h; m; s] => Ok (inject_Z (h * 3600 + m * 60 + s))
      | Some _ => Error 400
      end
  | TsNum q => Ok q
  | TsOther => Error 500
  end.

(** A transcript snippet: [snippet.start], [snippet.duration],
    [snippet.text]. *)
Record snippet := {
  sn_start : Q;
  sn_duration : Q;
  sn_text : string
}.

(** What [youtube_transcripts] keeps under a UUID. *)
Record stored_transcript := {
  st_video_id : string;
  st_text : string;
  st_data : list snippet
}.


Record nearframe_answer := {
  na_nearframe : string;
  na_snippet_count : nat;
  na_window_start : string;
  na_window_end : string
}.

Section youtube.
(** The addition of two Python numbers, as the interpreter rounds it. *)
Variable fadd : Q → Q → Q.

(** [snippet.start + snippet.duration] *)
Definition snippet_end (sn : snippet) : Q := fadd (sn_start sn) (sn_duration sn).

(** [f"{start_time} --> {end_time}: {snippet.text}"] *)
Definition transcript_line (sn : snippet) : string :=
  seconds_to_hms (sn_start sn) +:+ " --> " +:+ seconds_to_hms (snippet_end sn)
  +:+ ": " +:+ sn_text sn.



(** [max(0, x)] *)
Definition max0 (x : Q) : Q := if Qle_bool x 0 then 0%Q else x.

(** The window of [youtube_nearframe_transcript]:
    [start_target = max(0, center_seconds - 15)] and
    [end_target = center_seconds + 15]. For a string timestamp
    [center_seconds] is an int and both are exact; for a number it is
    a float. *)
Definition window (ts : timestamp_input) (center : Q) : Q * Q :=
  match ts with
  | TsStr _ => (max0 (center - 15), (center + 15)%Q)
  | _ => (max0 (fadd center (-15)), fadd center 15)
  end.

(** [not (snippet_end <= start_target or snippet_start >= end_target)] *)
Definition overlaps (w : Q * Q) (sn : snippet) : bool :=
  negb (Qle_bool (snippet_end sn) w.1 || Qle_bool w.2 (sn_start sn)).

(** [youtube_nearframe_transcript], the handler's body. *)
Definition youtube_nearframe_transcript (store : gmap string stored_transcript)
    (transcript_uuid : string) (ts : timestamp_input)
  : response nearframe_answer :=
  match store !! transcript_uuid with
  | None => Error 404
  | Some stored =>
      match center_seconds ts with
      | Error st => Error st
      | Ok center =>
          let w := window ts center in
          let nearframe_lines :=
            map transcript_line (filter (λ sn, overlaps w sn = true) (st_data stored)) in
          Ok {| na_nearframe := join nl nearframe_lines;
                na_snippet_count := length nearframe_lines;
                na_window_start := seconds_to_hms w.1;
                na_window_end := seconds_to_hms w.2 |}
      end
  end.
End youtube.

(** A transcript of three snippets, and a store that holds it. *)
Definition sample_transcript : list snippet :=
  [ {| sn_start := 0; sn_duration := 4; sn_text := "welcome back" |};
    {| sn_start := 4; sn_duration := 7 # 2; sn_text := "today we look at graphs" |};
    {| sn_start := 40; sn_duration := 5; sn_text := "first, a definition" |} ].

Definition sample_stored : stored_transcript :=
  {| st_video_id := "tTuWmcikE0Q"; st_text := ""; st_data := sample_transcript |}.

Definition sample_store : gmap string stored_transcript :=
  {[ "7d4e" := sample_stored ]}.

(** * src/server.py: the decorators of the endpoints *)

(** ** [rate_limit] *)

(** [rate_limit_store] is a map from a remote address ([None] when the
    server knows none) to the times of its requests; a missing key reads
    as the empty list, as in the [defaultdict]. *)

Section rate_limit.
(** The subtraction of two Python floats, as the interpreter rounds it. *)
Variable fsub : Q → Q → Q.

(** [current_time - req_time < window] *)
Definition in_window (window current_time req_time : Q) : bool :=
  negb (Qle_bool window (fsub current_time req_time)).

(** [decorated_function] of [rate_limit], up to the call of [f]: the
    store it leaves, and whether [f] is called ([false]: the answer is
    the 429). *)
Definition rate_limit (max_requests : nat) (window : Q)
    (identifier : option string) (current_time : Q) (store : gmap (option string) (list Q))
  : gmap (option string) (list Q) * bool :=
  let kept :=
    filter (λ req_time, in_window window current_time req_time = true)
           (store !!! identifier) in
  if (max_requests <=? length kept)%nat
  then (<[identifier := kept]> store, false)
  else (<[identifier := kept ++ [current_time]]> store, true).
End rate_limit.

(** One request to a rate-limited endpoint: the limit of the endpoint, the
    remote address and the time of arrival. *)
Record call := {
  c_max : nat;
  c_ident : option string;
  c_time : Q
}.

(** Requests served one after another from a given store, each with the
    decision taken on it. *)
Definition serve_step (fsub : Q → Q → Q) (window : Q)
    (acc : gmap (option string) (list Q) * list (call * bool)) (c : call)
  : gmap (option string) (list Q) * list (call * bool) :=
  let r := rate_limit fsub (c_max c) window (c_ident c) (c_time c) acc.1 in
  (r.1, acc.2 ++ [(c, r.2)]).

Definition serve (fsub : Q → Q → Q) (window : Q) (calls : list call)
  : gmap (option string) (list Q) * list (call * bool) :=
  foldl (serve_step fsub window) (∅, []) calls.

(** The times of the requests of an address that were let through. *)
Definition admitted_times (history : list (call * bool))
    (identifier : option string) : list Q :=
  omap (λ e : call * bool,
          if e.2 && bool_decide (c_ident e.1 = identifier)
          then Some (c_time e.1) else None) history.

(** The clock never went back during the requests, nor does it at [now]. *)
Definition clock_monotone (calls : list call) (now : Q) : Prop :=
  (∀ i j c d, (i ≤ j)%nat → calls !! i = Some c → calls !! j = Some d →
              (c_time c <= c_time d)%Q)
  ∧ (∀ c, c ∈ calls → (c_time c <= now)%Q).

(** Rounding keeps the order of the minuends. *)
Definition monotone_sub (fsub : Q → Q → Q) : Prop :=
  ∀ t t' r, (t <= t')%Q → (fsub t r <= fsub t' r)%Q.

(** Two requests of one address to an endpoint that allows ten a minute,
    and a third one to an endpoint that allows two. *)
Definition sample_calls : list call :=
  [ {| c_max := 10; c_ident := Some "10.0.0.7"; c_time := 100 |};
    {| c_max := 10; c_ident := Some "10.0.0.7"; c_time := 101 # 1 |} ].

Definition sample_call : call :=
  {| c_max := 2; c_ident := Some "10.0.0.7"; c_time := 130 |}.

(** ** [validate_json_request] *)

(** A parsed JSON body, as [request.get_json()] gives it: [None], a bool,
    an int or float (not finite for the literals NaN and Infinity), a
    [str], a [list], or a [dict] with its members in order. *)
#[warnings="-register-all"]
Inductive json :=
| JNull
| JBool (b : bool)
| JNum (q : Q)
| JNonFinite
| JStr (s : string)
| JArr (items : list json)
| JObj (members : list (string * json)).

(** [if not data]: the truth value of a parsed body. *)
Definition truthy (data : json) : bool :=
  match data with
  | JNull => false
  | JBool b => b
  | JNum q => negb (Qeq_bool q 0)
  | JNonFinite => true
  | JStr s => nonempty s
  | JArr items => match items with [] => false | _ => true end
  | JObj members => match members with [] => false | _ => true end
  end.

(** [sub in s] for two strings. *)
Fixpoint contains (sub s : string) : bool :=
  String.prefix sub s
  || match s with
     | EmptyString => false
     | String _ s' => contains sub s'
     end.

(** [field in data] for a string [field]: a key of a dict, an element of
    a list, a substring of a string; [None] when the interpreter raises
    TypeError (a number or [True] is not iterable). *)
Definition py_in (field : string) (data : json) : option bool :=
  match data with
  | JObj members => Some (bool_decide (field ∈ members.*1))
  | JArr items =>
      Some (existsb (λ x, match x with
                          | JStr s => String.eqb field s
                          | _ => false
                          end) items)
  | JStr s => Some (contains field s)
  | _ => None
  end.

(** What [decorated_function] of [validate_json_request] does with a
    request: it calls [f], or answers one of its three 400s; the 400 of
    Flask for a body that does not parse and the 500 for an exception
    that nothing catches are the other two answers. *)
Inductive verdict :=
| Proceed
| NotJson
| Unparsable
| NoBody
| MissingFields (missing : list string)
| Uncaught.

Definition verdict_status (v : verdict) : option nat :=
  match v with
  | Proceed => None
  | Uncaught => Some 500%nat
  | _ => Some 400%nat
  end.

(** [[field for field in required_fields if field not in data]] *)
Fixpoint missing_fields (required_fields : list string) (data : json)
  : option (list string) :=
  match required_fields with
  | [] => Some []
  | field :: rest =>
      match py_in field data with
      | None => None
      | Some present =>
          match missing_fields rest data with
          | None => None
          | Some missing => Some (if present then missing else field :: missing)
          end
      end
  end.

(** [required_fields] is the decorator's list ([None] and the empty list
    behave alike), [is_json] is [request.is_json], and [body] what
    [request.get_json()] parses ([None] when it fails). *)
Definition validate_json_request (required_fields : list string)
    (is_json : bool) (body : option json) : verdict :=
  if negb is_json then NotJson
  else match body with
       | None => Unparsable
       | Some data =>
           if negb (truthy data) then NoBody
           else match missing_fields required_fields data with
                | None => Uncaught
                | Some [] => Proceed
                | Some missing => MissingFields missing
                end
       end.

(** ** An endpoint under both decorators *)

(** [@rate_limit(max_requests, window)] above
    [@validate_json_request(required_fields)]: what a request is
    answered before the endpoint's own function runs, and the rate
    limiter's store afterwards. [None] is the 429. *)
Record request := {
  remote_addr : option string;
  is_json : bool;
  get_json : option json
}.

Definition guarded (fsub : Q → Q → Q) (max_requests : nat) (window : Q)
    (required_fields : list string) (req : request) (current_time : Q)
    (store : gmap (option string) (list Q))
  : gmap (option string) (list Q) * option verdict :=
  let r := rate_limit fsub max_requests window (remote_addr req) current_time store in
  (r.1, if r.2
        then Some (validate_json_request required_fields (is_json req) (get_json req))
        else None).

(** Two requests of one address to an endpoint that requires [videoId]:
    one with the field, one that is not JSON at all. *)
Definition valid_request : request :=
  {| remote_addr := Some "10.0.0.7"; is_json := true;
     get_json := Some (JObj [("videoId", JStr "tTuWmcikE0Q")]) |}.

Definition invalid_request : request :=
  {| remote_addr := Some "10.0.0.7"; is_json := false; get_json := None |}.

(** * src/server.py: origins and response headers *)

(** The patterns of [ALLOWED_ORIGINS] all have the shape
    [^literal$] or [^literal[class]+literal$]. *)
Record origin_pattern := {
  p_prefix : string;
  p_class : option (ascii → bool);
  p_suffix : string
}.

(** [\d], [[a-zA-Z0-9]] and [[a-zA-Z0-9-]] on code points below 256. *)
Definition re_digit (c : ascii) : bool :=
  let n := N_of_ascii c in ((48 <=? n) && (n <=? 57))%N.

Definition re_alnum (c : ascii) : bool :=
  let n := N_of_ascii c in
  ((97 <=? n) && (n <=? 122) || (65 <=? n) && (n <=? 90)
   || (48 <=? n) && (n <=? 57))%N.

Definition re_label (c : ascii) : bool := re_alnum c || Ascii.eqb c "-".

Definition ALLOWED_ORIGINS : list origin_pattern :=
  [ {| p_prefix := "http://localhost:"; p_class := Some re_digit; p_suffix := "" |};
    {| p_prefix := "http://127.0.0.1:"; p_class := Some re_digit; p_suffix := "" |};
    {| p_prefix := "https://"; p_class := Some re_label;
       p_suffix := ".echo360.org.uk" |};
    {| p_prefix := "https://echo360.org.uk"; p_class := None; p_suffix := "" |};
    {| p_prefix := "https://"; p_class := Some re_label;
       p_suffix := ".inf.ed.ac.uk" |};
    {| p_prefix := "https://opencourse.inf.ed.ac.uk"; p_class := None;
       p_suffix := "" |};
    {| p_prefix := "https://"; p_class := Some re_label;
       p_suffix := ".learn.ed.ac.uk" |};
    {| p_prefix := "https://www.learn.ed.ac.uk"; p_class := None; p_suffix := "" |};
    {| p_prefix := "https://www.youtube.com"; p_class := None; p_suffix := "" |};
    {| p_prefix := "https://"; p_class := Some re_label;
       p_suffix := ".youtube.com" |};
    {| p_prefix := "moz-extension://"; p_class := Some re_label; p_suffix := "" |};
    {| p_prefix := "chrome-extension://"; p_class := Some re_alnum;
       p_suffix := "" |} ].

(** [re.match(pattern, origin)] for such a pattern. [$] matches at the end
    of the string and before a newline that ends it; [+] takes one or
    more characters of the class, and gives back as many as the rest of
    the pattern needs. *)
Fixpoint strip_prefix (p s : string) : option string :=
  match p, s with
  | EmptyString, _ => Some s
  | String a p', String b s' => if Ascii.eqb a b then strip_prefix p' s' else None
  | String _ _, EmptyString => None
  end.

Definition at_end (r : string) : bool :=
  String.eqb r "" || String.eqb r nl.

Definition match_rest (suffix r : string) : bool :=
  match strip_prefix suffix r with
  | Some r' => at_end r'
  | None => false
  end.

Fixpoint match_plus (cls : ascii → bool) (suffix s : string) : bool :=
  match s with
  | EmptyString => false
  | String c s' => cls c && (match_plus cls suffix s' || match_rest suffix s')
  end.

Definition re_match (pat : origin_pattern) (s : string) : bool :=
  match strip_prefix (p_prefix pat) s with
  | None => false
  | Some r =>
      match p_class pat with
      | None => match_rest (p_suffix pat) r
      | Some cls => match_plus cls (p_suffix pat) r
      end
  end.

(** The configuration read from the environment: [ALLOW_NULL_ORIGIN],
    [DEBUG], and for each pattern of [EXTRA_ALLOWED_ORIGINS] what
    [re.match] says with it. *)
Record config := {
  ALLOW_NULL_ORIGIN : bool;
  DEBUG : bool;
  extra_patterns : list (string → bool)
}.

(** [is_origin_allowed]; [origin] is [None] for an absent header. *)
Definition is_origin_allowed (cfg : config) (origin : option string) : bool :=
  match origin with
  | None => false
  | Some o =>
      if negb (nonempty o) then false
      else if String.eqb o "null" then ALLOW_NULL_ORIGIN cfg
      else existsb (λ pat, re_match pat o) ALLOWED_ORIGINS
           || existsb (λ m, m o) (extra_patterns cfg)
  end.

(** [if origin:] *)
Definition origin_given (origin : option string) : bool :=
  match origin with Some o => nonempty o | None => false end.

(** The headers this code sets on a response, by name. *)
Definition allow_methods : string := "GET, POST, DELETE, OPTIONS".
Definition allow_headers : string :=
  "Content-Type, X-Goog-Upload-Protocol, X-Goog-Upload-Command, X-Goog-Upload-Header-Content-Type, X-Goog-Upload-Offset, X-Requested-With".
Definition expose_headers : string :=
  "X-Goog-Upload-URL, X-Goog-Upload-Status, Content-Type".

(** [add_security_and_cors_headers], on the headers of the response. *)
Definition add_security_and_cors_headers (cfg : config) (origin : option string)
    (headers : gmap string string) : gmap string string :=
  let h1 :=
    match origin with
    | Some o =>
        if origin_given origin && is_origin_allowed cfg origin
        then <["Access-Control-Max-Age" := "3600"]>
             (<["Access-Control-Expose-Headers" := expose_headers]>
             (<["Access-Control-Allow-Headers" := allow_headers]>
             (<["Access-Control-Allow-Methods" := allow_methods]>
             (<["Access-Control-Allow-Origin" := o]> headers))))
        else headers
    | None => headers
    end in
  let h2 :=
    <["X-XSS-Protection" := "1; mode=block"]>
    (<["X-Content-Type-Options" := "nosniff"]>
    (<["X-Frame-Options" := "DENY"]> h1)) in
  if negb (DEBUG cfg)
  then <["Strict-Transport-Security" := "max-age=31536000; includeSubDomains"]> h2
  else h2.

(** [handle_preflight_and_logging]: the status and headers of the response
    it returns, or [None] when the request goes on to its endpoint. *)
Definition handle_preflight_and_logging (cfg : config) (method : string)
    (origin : option string) : option (nat * gmap string string) :=
  if String.eqb method "OPTIONS"
  then match origin with
       | Some o =>
           if origin_given origin && is_origin_allowed cfg origin
           then Some (200%nat,
                      <["Access-Control-Max-Age" := "3600"]>
                      (<["Access-Control-Allow-Headers" := allow_headers]>
                      (<["Access-Control-Allow-Methods" := allow_methods]>
                      (<["Access-Control-Allow-Origin" := o]> ∅))))
           else if origin_given origin then Some (403%nat, ∅)
           else None
       | None => None
       end
  else None.

(** A response of [handle_preflight_and_logging] as it leaves the server,
    after [add_security_and_cors_headers]. *)
Definition preflight_response (cfg : config) (method : string)
    (origin : option string) : option (nat * gmap string string) :=
  match handle_preflight_and_logging cfg method origin with
  | Some (status, headers) =>
      Some (status, add_security_and_cors_headers cfg origin headers)
  | None => None
  end.

(** The strings of one or more characters of a class. *)
Fixpoint all_in (cls : ascii → bool) (s : string) : bool :=
  match s with
  | EmptyString => true
  | String c s' => cls c && all_in cls s'
  end.

(** What a pattern of [ALLOWED_ORIGINS] stands for: the prefix, then for a
    class one or more of its characters, then the suffix, then nothing or
    one newline. *)
Definition in_pattern (pat : origin_pattern) (o : string) : Prop :=
  ∃ mid tail,
    o = p_prefix pat +:+ mid +:+ p_suffix pat +:+ tail
    ∧ (tail = "" ∨ tail = nl)
    ∧ match p_class pat with
      | None => mid = ""
      | Some cls => mid ≠ "" ∧ all_in cls mid = true
      end.

(** A configuration without extra patterns, as in production. *)
Definition production : config :=
  {| ALLOW_NULL_ORIGIN := false; DEBUG := false; extra_patterns := [] |}.

(** * src/server.py: the flattening check *)

(** A page as [has_true_images] reads it: [page.rect.width],
    [page.rect.height] and the blocks of its [rawdict]. *)
Record pdf_page := {
  rect_width : Q;
  rect_height : Q;
  raw_blocks : page
}.

Section has_true_images.
(** The float operations, as the interpreter rounds them. *)
Variables fsub fmul fdiv : Q → Q → Q.

(** [(w * h) / page_area if page_area else 0.0] *)
Definition coverage (page_area : Q) (bb : bbox) : Q :=
  let '(x0, y0, x1, y1) := bb in
  let w := fsub (inject_Z x1) (inject_Z x0) in
  let h := fsub (inject_Z y1) (inject_Z y0) in
  if Qeq_bool page_area 0 then 0%Q else fdiv (fmul w h) page_area.

(** [for b in img_blocks]: [Some true] when the loop returns True, [Some
    false] when it ends, [None] when [b["bbox"]] raises KeyError. *)
Fixpoint true_image_among (fullpage_threshold page_area : Q)
    (blocks : list block) : option bool :=
  match blocks with
  | [] => Some false
  | b :: rest =>
      if bool_decide (block_type b = Some 1)
      then match block_bbox b with
           | None => None
           | Some bb =>
               if negb (Qle_bool fullpage_threshold (coverage page_area bb))
               then Some true
               else true_image_among fullpage_threshold page_area rest
           end
      else true_image_among fullpage_threshold page_area rest
  end.

(** [has_true_images] on an opened document. *)
Fixpoint has_true_images (fullpage_threshold : Q) (doc : list pdf_page)
  : option bool :=
  match doc with
  | [] => Some false
  | pg :: rest =>
      let page_area := fmul (rect_width pg) (rect_height pg) in
      match true_image_among fullpage_threshold page_area (raw_blocks pg) with
      | Some false => has_true_images fullpage_threshold rest
      | r => r
      end
  end.

Record flattening_answer := {
  fa_is_flattened : bool;
  fa_has_true_images : bool;
  fa_recommendation : string
}.

(** [check_flattening] for an upload that is saved, opened and removed
    without error: [upload] is the file name of the part [pdf] of the
    form, when there is one. *)
Definition check_flattening (upload : option string) (doc : list pdf_page)
  : response flattening_answer :=
  match upload with
  | None => Error 400
  | Some filename =>
      if String.eqb filename "" then Error 400
      else match has_true_images (9 # 10) doc with
           | None => Error 500
           | Some has_images =>
               Ok {| fa_is_flattened := negb has_images;
                     fa_has_true_images := has_images;
                     fa_recommendation :=
                       if has_images then "backend" else "mineru" |}
           end
  end.
End has_true_images.

(** A one-page PDF with a small embedded image. *)
Definition sample_pdf : list pdf_page :=
  [ {| rect_width := 100; rect_height := 100; raw_blocks := image_only_page |} ].
(** * Properties *)

(** ** Strings *)

Lemma nonempty_true (s : string) : nonempty s = true ↔ s ≠ "".
Proof. destruct s; simpl; split; congruence. Qed.

Lemma nonempty_false (s : string) : nonempty s = false ↔ s = "".
Proof. destruct s; simpl; split; congruence. Qed.

Lemma lstrip_fix (s : string) : lstrip (lstrip s) = lstrip s.
Proof.
  induction s as [|c s IH]; simpl; [done|].
  destruct (isspace c) eqn:Hc; [done|]. simpl. by rewrite Hc.
Qed.

Lemma rstrip_cons (c : ascii) (s : string) :
  rstrip (String c s) =
  match rstrip s with
  | EmptyString => if isspace c then EmptyString else String c EmptyString
  | r => String c r
  end.
Proof. reflexivity. Qed.

Lemma rstrip_fix (s : string) : rstrip (rstrip s) = rstrip s.
Proof.
  induction s as [|c s IH]; simpl; [done|].
  destruct (rstrip s) as [|d r] eqn:Hr.
  - destruct (isspace c) eqn:Hc; simpl; [done|]. by rewrite Hc.
  - rewrite (rstrip_cons c (String d r)). by rewrite IH.
Qed.

Lemma rstrip_head (c : ascii) (s : string) :
  isspace c = false → ∃ r, rstrip (String c s) = String c r.
Proof.
  intros Hc. simpl. destruct (rstrip s); [rewrite Hc|]; eauto.
Qed.

Lemma lstrip_length (s : string) :
  (String.length (lstrip s) ≤ String.length s)%nat.
Proof.
  induction s as [|c s IH]; simpl; [lia|].
  destruct (isspace c); simpl; lia.
Qed.

Lemma lstrip_rstrip (s : string) : lstrip s = s → lstrip (rstrip s) = rstrip s.
Proof.
  destruct s as [|c s]; [done|]. intros Hl.
  destruct (isspace c) eqn:Hc.
  - exfalso. simpl in Hl. rewrite Hc in Hl.
    pose proof (lstrip_length s) as Hlen. rewrite Hl in Hlen. simpl in Hlen. lia.
  - destruct (rstrip_head c s Hc) as [r ->]. simpl. by rewrite Hc.
Qed.

Lemma strip_stripped (s : string) : stripped (strip s).
Proof.
  unfold stripped, strip. split.
  - apply lstrip_rstrip, lstrip_fix.
  - apply rstrip_fix.
Qed.

Lemma stripped_strip (s : string) : stripped s → strip s = s.
Proof. intros [Hl Hr]. unfold strip. by rewrite Hl. Qed.

Lemma strip_fix (s : string) : strip (strip s) = strip s.
Proof. apply stripped_strip, strip_stripped. Qed.

Lemma lstrip_app (w x : string) :
  w ≠ "" → lstrip w = w → lstrip (w +:+ x) = w +:+ x.
Proof.
  destruct w as [|c w]; [done|]. intros _ Hl. simpl in *.
  destruct (isspace c) eqn:Hc; [|done].
  exfalso.
  pose proof (lstrip_length w) as Hlen. rewrite Hl in Hlen. simpl in Hlen. lia.
Qed.

Lemma rstrip_app (w x : string) :
  x ≠ "" → rstrip x = x → rstrip (w +:+ x) = w +:+ x.
Proof.
  intros Hx Hr. induction w as [|c w IH]; [done|].
  change (String c w +:+ x) with (String c (w +:+ x)).
  rewrite rstrip_cons, IH. destruct (w +:+ x) eqn:E; [|done].
  destruct w; [|done]. by destruct Hx.
Qed.

Lemma app_nonempty_l (w x : string) : w ≠ "" → w +:+ x ≠ "".
Proof. by destruct w. Qed.

Lemma app_nonempty_r (w x : string) : x ≠ "" → w +:+ x ≠ "".
Proof. by destruct w, x. Qed.

(** Words that are stripped and not empty, joined by single spaces, need
    no further stripping. *)
Lemma join_words_stripped (ws : list string) :
  ws ≠ [] → Forall (λ w, stripped w ∧ w ≠ "") ws →
  stripped (join " " ws) ∧ join " " ws ≠ "".
Proof.
  induction ws as [|w ws IH]; [done|]. intros _ Hall.
  apply Forall_cons in Hall as [[[Hl Hr] Hw] Hall].
  destruct ws as [|w2 ws]; [done|].
  destruct IH as [[Hl2 Hr2] Hne2]; [done|done|].
  change (join " " (w :: w2 :: ws)) with (w +:+ " " +:+ join " " (w2 :: ws)).
  split; [split|].
  - by apply lstrip_app.
  - apply rstrip_app.
    + by apply app_nonempty_r.
    + by apply (rstrip_app " ").
  - by apply app_nonempty_l.
Qed.

(** ** The stable sort *)

Section py_sort_facts.
Context {A K : Type} `{EqDecision K} (ltk : K → K → bool) (key : A → K).
Hypothesis ltk_irrefl : ∀ k, ltk k k = false.
Hypothesis ltk_asym : ∀ a b, ltk a b = true → ltk b a = false.
Hypothesis ltk_le_trans :
  ∀ a b c, ltk b a = false → ltk c b = false → ltk c a = false.

Lemma insert_by_perm (x : A) (l : list A) : insert_by ltk key x l ≡ₚ x :: l.
Proof.
  induction l as [|y l IH]; simpl; [done|].
  destruct (ltk (key y) (key x)); [|done].
  rewrite IH. apply Permutation_swap.
Qed.

Lemma py_sort_perm (l : list A) : py_sort ltk key l ≡ₚ l.
Proof.
  induction l as [|x l IH]; simpl; [done|].
  unfold py_sort in *. simpl. by rewrite insert_by_perm, IH.
Qed.

Lemma insert_by_sorted (x : A) (l : list A) :
  StronglySorted (key_le ltk key) l →
  StronglySorted (key_le ltk key) (insert_by ltk key x l).
Proof.
  induction 1 as [|y l Hl IH Hy]; simpl.
  - repeat constructor.
  - destruct (ltk (key y) (key x)) eqn:Hyx.
    + constructor; [done|].
      rewrite insert_by_perm. constructor; [|done].
      unfold key_le. by apply ltk_asym.
    + constructor; [by constructor|].
      constructor; [done|].
      eapply Forall_impl; [exact Hy|]. unfold key_le. intros z Hz.
      by apply (ltk_le_trans _ (key y)).
Qed.

Lemma py_sort_sorted (l : list A) :
  StronglySorted (key_le ltk key) (py_sort ltk key l).
Proof.
  induction l as [|x l IH]; [constructor|].
  by apply insert_by_sorted.
Qed.

(** Stability: items with one and the same key keep their order. *)
Lemma insert_by_stable (k : K) (x : A) (l : list A) :
  filter (λ a, key a = k) (insert_by ltk key x l)
  = filter (λ a, key a = k) (x :: l).
Proof.
  induction l as [|y l IH]; simpl; [done|].
  destruct (ltk (key y) (key x)) eqn:Hyx; [|done].
  rewrite filter_cons, IH, !filter_cons.
  destruct (decide (key y = k)) as [Hy|Hy], (decide (key x = k)) as [Hx|Hx];
    try done.
  rewrite Hy, Hx, ltk_irrefl in Hyx. done.
Qed.

Lemma py_sort_stable (k : K) (l : list A) :
  filter (λ a, key a = k) (py_sort ltk key l) = filter (λ a, key a = k) l.
Proof.
  induction l as [|x l IH]; [done|].
  change (py_sort ltk key (x :: l))
    with (insert_by ltk key x (py_sort ltk key l)).
  by rewrite insert_by_stable, !filter_cons, IH.
Qed.

(** The result does not depend on the sorting algorithm: a list that is
    sorted by key and keeps, for every key, the items with that key in their
    order in [l], is [py_sort l]. *)
Hypothesis ltk_antisym : ∀ a b, ltk a b = false → ltk b a = false → a = b.

Lemma stable_sorted_unique (l1 : list A) : ∀ l2,
  StronglySorted (key_le ltk key) l1 → StronglySorted (key_le ltk key) l2 →
  (∀ k, filter (λ a, key a = k) l1 = filter (λ a, key a = k) l2) →
  l1 = l2.
Proof.
  induction l1 as [|x l1 IH]; intros l2 Hs1 Hs2 Hf.
  - destruct l2 as [|y l2]; [done|].
    specialize (Hf (key y)). by rewrite filter_cons_True in Hf.
  - destruct l2 as [|y l2].
    { specialize (Hf (key x)). by rewrite filter_cons_True in Hf. }
    apply StronglySorted_inv in Hs1 as [Hs1 Hx].
    apply StronglySorted_inv in Hs2 as [Hs2 Hy].
    rewrite Forall_forall in Hx, Hy.
    assert (Hxy : key x = key y).
    { apply ltk_antisym.
      - assert (Hin : x ∈ y :: l2).
        { assert (Hin : x ∈ filter (λ a, key a = key x) (y :: l2)).
          { rewrite <- Hf, filter_cons_True by done. left. }
          by apply list_elem_of_filter in Hin as [_ ?]. }
        apply elem_of_cons in Hin as [->|Hin]; [apply ltk_irrefl|].
        by apply (Hy x).
      - assert (Hin : y ∈ x :: l1).
        { assert (Hin : y ∈ filter (λ a, key a = key y) (x :: l1)).
          { rewrite Hf, filter_cons_True by done. left. }
          by apply list_elem_of_filter in Hin as [_ ?]. }
        apply elem_of_cons in Hin as [->|Hin]; [apply ltk_irrefl|].
        by apply (Hx y). }
    assert (x = y) as <-.
    { pose proof (Hf (key x)) as Hk.
      rewrite !filter_cons_True in Hk by done. by injection Hk. }
    f_equal. apply IH; [done..|].
    intros k. specialize (Hf k). rewrite !filter_cons in Hf.
    destruct (decide (key x = k)); [by injection Hf|done].
Qed.

Lemma py_sort_unique (l l' : list A) :
  StronglySorted (key_le ltk key) l' →
  (∀ k, filter (λ a, key a = k) l' = filter (λ a, key a = k) l) →
  l' = py_sort ltk key l.
Proof.
  intros Hs Hf. apply stable_sorted_unique; [done|apply py_sort_sorted|].
  intros k. by rewrite py_sort_stable.
Qed.

Lemma py_sort_elem_of (x : A) (l : list A) : x ∈ py_sort ltk key l ↔ x ∈ l.
Proof. by rewrite py_sort_perm. Qed.

Lemma py_sort_nil (l : list A) : py_sort ltk key l = [] ↔ l = [].
Proof.
  split; [|by intros ->].
  intros H. apply Permutation_nil_r. by rewrite <- H, py_sort_perm.
Qed.
End py_sort_facts.

Lemma lt2_irrefl (k : Z * Z) : lt2 k k = false.
Proof. unfold lt2. destruct k as [a b]; simpl. lia. Qed.

Lemma lt2_asym (a b : Z * Z) : lt2 a b = true → lt2 b a = false.
Proof. unfold lt2. destruct a, b; simpl. lia. Qed.

Lemma lt2_le_trans (a b c : Z * Z) :
  lt2 b a = false → lt2 c b = false → lt2 c a = false.
Proof. unfold lt2. destruct a, b, c; simpl. lia. Qed.

Lemma lt2_antisym (a b : Z * Z) : lt2 a b = false → lt2 b a = false → a = b.
Proof.
  unfold lt2. destruct a as [a1 a2], b as [b1 b2]; simpl. intros H1 H2.
  f_equal; lia.
Qed.

Lemma lt3_antisym (a b : Z * Z * Z) :
  lt3 a b = false → lt3 b a = false → a = b.
Proof.
  unfold lt3. destruct a as [[a1 a2] a3], b as [[b1 b2] b3]; simpl.
  intros H1 H2. repeat f_equal; lia.
Qed.

Lemma lt3_irrefl (k : Z * Z * Z) : lt3 k k = false.
Proof. unfold lt3. destruct k as [[a b] c]; simpl. lia. Qed.

Lemma lt3_asym (a b : Z * Z * Z) : lt3 a b = true → lt3 b a = false.
Proof. unfold lt3. destruct a as [[??]?], b as [[??]?]; simpl. lia. Qed.

Lemma lt3_le_trans (a b c : Z * Z * Z) :
  lt3 b a = false → lt3 c b = false → lt3 c a = false.
Proof.
  unfold lt3. destruct a as [[??]?], b as [[??]?], c as [[??]?]; simpl. lia.
Qed.

(** ** The merged output of a page *)

Lemma server_process_page_eq dir eng pi st pg :
  Server.process_page dir eng pi st pg
  = ((Server.blocks_loop dir pi st pg).1.1,
     (merge_page eng pi (Server.blocks_loop dir pi st pg).1.2).1,
     (Server.blocks_loop dir pi st pg).2
       ++ (merge_page eng pi (Server.blocks_loop dir pi st pg).1.2).2).
Proof.
  unfold Server.process_page.
  destruct (Server.blocks_loop dir pi st pg) as [[st' its] evs]; simpl.
  by destruct (merge_page eng pi its).
Qed.

Lemma mineru_process_page_eq dir eng pi st pg :
  Mineru.process_page dir eng pi st pg
  = ((Mineru.blocks_loop dir pi st pg).1.1,
     (merge_page eng pi (Mineru.blocks_loop dir pi st pg).1.2).1,
     (Mineru.blocks_loop dir pi st pg).2
       ++ (merge_page eng pi (Mineru.blocks_loop dir pi st pg).1.2).2).
Proof.
  unfold Mineru.process_page.
  destruct (Mineru.blocks_loop dir pi st pg) as [[st' its] evs]; simpl.
  by destruct (merge_page eng pi its).
Qed.

Lemma merge_page_items eng pi its :
  (merge_page eng pi its).1 = py_sort lt3 item_key (merge_input eng pi its).
Proof.
  unfold merge_page, merge_input.
  destruct (native_text_found its); [done|].
  by destruct (ocr_fallback eng pi).
Qed.

Lemma merge_page_events eng pi its :
  (merge_page eng pi its).2
  = if native_text_found its then [] else (ocr_fallback eng pi).2.
Proof.
  unfold merge_page.
  destruct (native_text_found its); [done|].
  by destruct (ocr_fallback eng pi).
Qed.

Lemma sorted_merge_ordering (l : list content_item) :
  StronglySorted (key_le lt3 item_key) l → merge_ordering l.
Proof.
  induction 1 as [|x l Hl IH Hx]; intros a b i j Hab Ha Hb.
  - by rewrite lookup_nil in Ha.
  - destruct b as [|b]; [lia|]. simpl in Hb.
    destruct a as [|a]; simpl in Ha.
    + injection Ha as ->.
      rewrite Forall_forall in Hx.
      assert (Hij : key_le lt3 item_key i j)
        by (apply Hx; eapply list_elem_of_lookup_2; eauto).
      clear -Hij. unfold key_le, lt3, item_key, is_text, strictly_before in *.
      simpl in Hij.
      destruct i as [yi xi [] ?], j as [yj xj [] ?]; simpl in *.
      all: rewrite ?bool_decide_eq_true_2, ?bool_decide_eq_false_2 in Hij by done.
      all: destruct (decide (yi < yj)); [by left; left|].
      all: destruct (decide (xi < xj)); [left; right; left; lia|].
      all: try (exfalso; lia).
      all: try (right; split; [lia|split; [lia|done]]).
      left; right; right. split; [lia|split; [lia|done]].
    + eapply IH; [|done..]. lia.
Qed.

Lemma merge_page_ordering eng pi its : merge_ordering (merge_page eng pi its).1.
Proof.
  rewrite merge_page_items. apply sorted_merge_ordering, py_sort_sorted.
  - apply lt3_asym.
  - apply lt3_le_trans.
Qed.

(** Items of one kind at one position leave the sort in the order in which
    they were appended to [content_items]. *)
Lemma merge_page_stable eng pi its (k : Z * Z * Z) :
  filter (λ it, item_key it = k) (merge_page eng pi its).1
  = filter (λ it, item_key it = k) (merge_input eng pi its).
Proof. rewrite merge_page_items. apply py_sort_stable, lt3_irrefl. Qed.

(** Any stable sort by the key yields the merged output. *)
Lemma merge_page_unique eng pi its (l' : list content_item) :
  StronglySorted (key_le lt3 item_key) l' →
  (∀ k, filter (λ it, item_key it = k) l'
        = filter (λ it, item_key it = k) (merge_input eng pi its)) →
  l' = (merge_page eng pi its).1.
Proof.
  intros Hs Hf. rewrite merge_page_items.
  apply py_sort_unique; [apply lt3_irrefl | apply lt3_asym | apply lt3_le_trans
                        | apply lt3_antisym | done | done].
Qed.

(** C2, as the code has it: in the merged output of every page, for items
    [i] before [j], either [top(i) < top(j)], or the tops are equal and
    [left(i) < left(j)], or tops and lefts are equal and [i] is Text and [j] is
    Image, or tops and lefts are equal and [i] and [j] are of the same kind;
    items of one kind at one position are in the order in which they were
    appended to [content_items]. Both entry points. *)
Theorem merge_ordering_of_pages dir eng pi sst mst (pg : page) :
  merge_ordering (Server.process_page dir eng pi sst pg).1.2
  ∧ merge_ordering (Mineru.process_page dir eng pi mst pg).1.2
  ∧ (∀ k, filter (λ it, item_key it = k) (Server.process_page dir eng pi sst pg).1.2
          = filter (λ it, item_key it = k)
              (merge_input eng pi (Server.blocks_loop dir pi sst pg).1.2))
  ∧ (∀ k, filter (λ it, item_key it = k) (Mineru.process_page dir eng pi mst pg).1.2
          = filter (λ it, item_key it = k)
              (merge_input eng pi (Mineru.blocks_loop dir pi mst pg).1.2)).
Proof.
  rewrite server_process_page_eq, mineru_process_page_eq. simpl.
  split; [apply merge_page_ordering|]. split; [apply merge_page_ordering|].
  split; intros k; apply merge_page_stable.
Qed.

(** C2 as stated fails: two image items at the same position follow one
    another, and none of the three cases holds for them. *)
Lemma merge_ordering_strict_fails :
  ¬ merge_ordering_strict
      (Server.process_page "images" no_ocr 0 Server.init page_two_clips).1.2.
Proof.
  intros H.
  specialize (H 0%nat 1%nat _ _ ltac:(lia) eq_refl eq_refl).
  vm_compute in H. destruct H as [H|[[_ H]|(_ & _ & H & _)]]; discriminate H.
Qed.

(** ** OCR line reconstruction *)

Lemma ocr_loop_survivors mc (data : list token) st :
  foldl (ocr_step mc) st data = foldl (ocr_step mc) st (survivors mc data).
Proof.
  revert st. induction data as [|t data IH]; intros st; [done|].
  unfold survivors. rewrite filter_cons. simpl.
  destruct (decide (skipped mc t = false)) as [Ht|Ht].
  - simpl. apply IH.
  - rewrite IH. f_equal. unfold ocr_step. destruct st.
    by destruct (skipped mc t).
Qed.

Lemma survivor_word mc (t : token) :
  skipped mc t = false → stripped (tok_word t) ∧ tok_word t ≠ "".
Proof.
  unfold skipped. intros H. apply orb_false_iff in H as [H _].
  apply negb_false_iff, nonempty_true in H. split; [|done].
  apply strip_stripped.
Qed.

Lemma flush_open_run mc (items : list ocr_line) (g : list token) :
  g ≠ [] → Forall (λ t, skipped mc t = false) g →
  flush items (open_run g) = items ++ [line_of_group g].
Proof.
  intros Hg Hall. destruct g as [|t g]; [done|]. clear Hg.
  unfold open_run, flush, line_of_group.
  destruct (join_words_stripped (map tok_word (t :: g))) as [Hs Hne]; [done| |].
  { apply Forall_fmap. eapply Forall_impl; [exact Hall|].
    intros u Hu. by apply (survivor_word mc). }
  rewrite (stripped_strip _ Hs).
  apply nonempty_true in Hne. by rewrite Hne.
Qed.

Lemma minimum_snoc (z : Z) (zs : list Z) (y : Z) :
  minimum z (zs ++ [y]) = Z.min (minimum z zs) y.
Proof. unfold minimum. by rewrite foldl_app. Qed.

Lemma minimum_spec (z : Z) (zs : list Z) :
  minimum z zs ∈ z :: zs ∧ Forall (λ y, minimum z zs ≤ y) (z :: zs).
Proof.
  induction zs as [|y zs IH] using rev_ind.
  - split; [left|]. repeat constructor. unfold minimum; simpl; lia.
  - rewrite minimum_snoc. destruct IH as [Hin Hle]. split.
    + destruct (Z.min_spec (minimum z zs) y) as [[_ ->]|[_ ->]].
      * rewrite app_comm_cons. apply elem_of_app. by left.
      * rewrite app_comm_cons. apply elem_of_app. right. left.
    + rewrite app_comm_cons. apply Forall_app. split.
      * eapply Forall_impl; [exact Hle|]. simpl. lia.
      * repeat constructor. lia.
Qed.

Lemma open_run_snoc (g : list token) (t u : token) :
  open_run ((t :: g) ++ [u])
  = Line (tok_key t) (map tok_word (t :: g) ++ [tok_word u])
         (Z.min (minimum (tok_top t) (map tok_top g)) (tok_top u))
         (Z.min (minimum (tok_left t) (map tok_left g)) (tok_left u)).
Proof.
  simpl. rewrite !map_app. simpl. by rewrite !minimum_snoc.
Qed.

Lemma ocr_step_open mc (items : list ocr_line) (t : token) (g : list token) (u : token) :
  skipped mc u = false →
  ocr_step mc (items, open_run (t :: g)) u
  = if bool_decide (tok_key u = tok_key t)
    then (items, open_run ((t :: g) ++ [u]))
    else (flush items (open_run (t :: g)), open_run [u]).
Proof.
  intros Hu. rewrite open_run_snoc. unfold ocr_step. rewrite Hu.
  reflexivity.
Qed.

(** The loop, entered with the group [g] open, leaves one line per maximal
    run of [g ++ l]. *)
Lemma ocr_loop_runs mc (l : list token) : ∀ (items : list ocr_line) (g : list token),
  g ≠ [] → Forall (λ t, skipped mc t = false) (g ++ l) →
  (let st := foldl (ocr_step mc) (items, open_run g) l in flush st.1 st.2)
  = items ++ map line_of_group (runs_from g l).
Proof.
  induction l as [|u l IH]; intros items g Hg Hall.
  - rewrite app_nil_r in Hall. by apply (flush_open_run mc).
  - assert (Hu : skipped mc u = false).
    { apply Forall_app in Hall as [_ Hall]. by apply Forall_cons in Hall as [? _]. }
    destruct g as [|t g]; [done|].
    cbn [foldl runs_from]. rewrite (ocr_step_open mc) by done.
    unfold run_key. cbn [head fmap option_fmap option_map].
    destruct (decide (tok_key u = tok_key t)) as [Hk|Hk].
    + rewrite !bool_decide_eq_true_2 by congruence.
      apply IH; [done|]. by rewrite <- app_assoc.
    + rewrite !bool_decide_eq_false_2 by congruence.
      rewrite (IH _ [u]); [|done|].
      * rewrite (flush_open_run mc); [|done|].
        -- by rewrite <- app_assoc.
        -- by apply Forall_app in Hall as [? _].
      * by apply Forall_app in Hall as [_ ?].
Qed.

Lemma survivors_unskipped mc (data : list token) :
  Forall (λ t, skipped mc t = false) (survivors mc data).
Proof. apply Forall_forall. intros t Ht. by apply list_elem_of_filter in Ht as [? _]. Qed.

(** The lines before the final sort. *)
Lemma ocr_lines_unsorted mc (data : list token) :
  (let st := foldl (ocr_step mc) ([], NoLine) data in flush st.1 st.2)
  = map line_of_group (runs (survivors mc data)).
Proof.
  rewrite ocr_loop_survivors.
  pose proof (survivors_unskipped mc data) as Hall.
  destruct (survivors mc data) as [|t l]; [done|].
  assert (Ht : skipped mc t = false) by by apply Forall_cons in Hall as [? _].
  cbn [foldl runs].
  replace (ocr_step mc ([], NoLine) t) with (([] : list ocr_line), open_run [t])
    by (unfold ocr_step; by rewrite Ht).
  by apply (ocr_loop_runs mc l [] [t]).
Qed.

Lemma ocr_extract_runs (data : list token) (mc : Z) :
  ocr_extract_lines_with_positions data mc
  = py_sort lt2 ocr_key (map line_of_group (runs (survivors mc data))).
Proof.
  unfold ocr_extract_lines_with_positions.
  rewrite <- ocr_lines_unsorted.
  by destruct (foldl (ocr_step mc) ([], NoLine) data).
Qed.

Lemma run_key_snoc (g : list token) (t : token) :
  g ≠ [] → run_key (g ++ [t]) = run_key g.
Proof. by destruct g. Qed.

Lemma is_run_snoc (g : list token) (t : token) :
  is_run g → Some (tok_key t) = run_key g → is_run (g ++ [t]).
Proof.
  intros [Hg Hall] Ht. split; [by destruct g|].
  rewrite run_key_snoc by done. apply Forall_app. split; [done|].
  by repeat constructor.
Qed.

Lemma runs_from_spec (l : list token) : ∀ g, is_run g →
  ∃ g' rs, runs_from g l = g' :: rs ∧ run_key g' = run_key g
           ∧ maximal_runs (g ++ l) (g' :: rs).
Proof.
  induction l as [|t l IH]; intros g Hg; simpl.
  - exists g, []. split; [done|]. split; [done|].
    split; [simpl; by rewrite !app_nil_r|].
    split; [constructor; [done|constructor]|done].
  - case_bool_decide as Hk.
    + destruct (IH (g ++ [t])) as (g' & rs & -> & Hkey & Hcat & Hruns & Hnb).
      { by apply is_run_snoc. }
      exists g', rs. split; [done|]. split.
      { rewrite Hkey. apply run_key_snoc, Hg. }
      split; [|done]. by rewrite Hcat, <- app_assoc.
    + destruct (IH [t]) as (g' & rs & -> & Hkey & Hcat & Hruns & Hnb).
      { split; [done|]. constructor; [done|constructor]. }
      exists g, (g' :: rs). split; [done|]. split; [done|].
      split; [|split].
      * simpl in *. by rewrite Hcat.
      * by constructor.
      * simpl. split; [|done]. rewrite Hkey. intros E. apply Hk. by rewrite E.
Qed.

Lemma runs_spec (l : list token) : maximal_runs l (runs l).
Proof.
  destruct l as [|t l]; [by repeat split|]. simpl.
  destruct (runs_from_spec l [t]) as (g' & rs & -> & _ & H); [|done].
  split; [done|]. constructor; [done|constructor].
Qed.

Lemma filter_fix {A} (P : A → Prop) `{∀ x, Decision (P x)} (l : list A) :
  Forall P l → filter P l = l.
Proof.
  induction 1 as [|x l Hx Hl IH]; [done|].
  by rewrite filter_cons_True, IH.
Qed.

Lemma filter_none {A} (P : A → Prop) `{∀ x, Decision (P x)} (l : list A) :
  Forall (λ x, ¬ P x) l → filter P l = [].
Proof.
  induction 1 as [|x l Hx Hl IH]; [done|].
  by rewrite filter_cons_False.
Qed.

Lemma first_seen_elem_of (k : line_key) (ks : list line_key) :
  k ∈ first_seen ks → k ∈ ks.
Proof.
  revert k. induction ks as [|k0 ks IH]; intros k; simpl; [done|].
  rewrite !elem_of_cons, list_elem_of_filter.
  intros [->|[_ Hk]]; [by left|]. right. by apply IH.
Qed.

Lemma first_seen_run (k : line_key) (g : list token) (c : list line_key) :
  Forall (λ t, tok_key t = k) g →
  filter (λ k', k' ≠ k) (first_seen (map tok_key g ++ c))
  = filter (λ k', k' ≠ k) (first_seen c).
Proof.
  induction 1 as [|t g Ht Hg IH]; [done|]. simpl. rewrite Ht.
  rewrite filter_cons_False by (intros ?; done).
  rewrite (filter_fix (λ k', k' ≠ k) (filter _ _)); [done|].
  apply Forall_forall. intros k' Hk'. by apply list_elem_of_filter in Hk' as [? _].
Qed.

Lemma is_run_key (g : list token) :
  is_run g → ∃ k, run_key g = Some k ∧ Forall (λ t, tok_key t = k) g.
Proof.
  intros [Hg Hall]. destruct g as [|t g]; [done|].
  exists (tok_key t). split; [done|].
  eapply Forall_impl; [exact Hall|]. intros u Hu.
  unfold run_key in Hu. simpl in Hu. congruence.
Qed.

Lemma first_seen_runs (rs : list (list token)) :
  Forall is_run rs → NoDup (map run_key rs) →
  map Some (first_seen (map tok_key (concat rs))) = map run_key rs.
Proof.
  induction 1 as [|g rs Hg Hrs IH]; intros Hnd; [done|].
  cbn [map] in Hnd. apply NoDup_cons in Hnd as [Hnotin Hnd]. specialize (IH Hnd).
  destruct (is_run_key g Hg) as (k & Hk & Hall).
  destruct g as [|t g]; [done|].
  apply Forall_cons in Hall as [Ht Hall].
  cbn [concat app map first_seen]. rewrite map_app, Ht.
  rewrite first_seen_run by done.
  rewrite filter_fix.
  - rewrite IH. by rewrite Hk.
  - apply Forall_forall. intros k' Hk' ->. apply Hnotin.
    rewrite Hk, <- IH. apply list_elem_of_In, in_map, list_elem_of_In. done.
Qed.

Lemma filter_other_runs (k : line_key) (rs : list (list token)) :
  Forall is_run rs → Some k ∉ map run_key rs →
  filter (λ t, tok_key t = k) (concat rs) = [].
Proof.
  induction 1 as [|g rs Hg Hrs IH]; intros Hk; [done|]. simpl in *.
  apply not_elem_of_cons in Hk as [Hk1 Hk2].
  rewrite filter_app, IH by done. rewrite app_nil_r.
  apply filter_none.
  destruct (is_run_key g Hg) as (k' & Hk' & Hall).
  eapply Forall_impl; [exact Hall|]. simpl. intros t -> ->. congruence.
Qed.

Lemma filter_own_run (rs : list (list token)) :
  Forall is_run rs → NoDup (map run_key rs) →
  ∀ g k, g ∈ rs → run_key g = Some k →
    filter (λ t, tok_key t = k) (concat rs) = g.
Proof.
  induction 1 as [|g0 rs Hg0 Hrs IH]; intros Hnd g k Hin Hk.
  - by apply elem_of_nil in Hin.
  - apply NoDup_cons in Hnd as [Hnotin Hnd]. simpl. rewrite filter_app.
    destruct (is_run_key g0 Hg0) as (k0 & Hk0 & Hall0).
    apply elem_of_cons in Hin as [->|Hin].
    + assert (k0 = k) as -> by congruence.
      rewrite filter_fix by done.
      rewrite filter_other_runs; [by rewrite app_nil_r|done|].
      by rewrite <- Hk.
    + rewrite (IH Hnd g k Hin Hk).
      rewrite filter_none; [done|].
      eapply Forall_impl; [exact Hall0|]. simpl. intros t -> ->.
      apply Hnotin. rewrite Hk0, <- Hk.
      by apply list_elem_of_In, in_map, list_elem_of_In.
Qed.

Lemma map_by_key {B} (F : line_key → list B) (key : list B → option line_key)
    (ks : list line_key) : ∀ rs : list (list B),
  map Some ks = map key rs →
  (∀ g k, g ∈ rs → key g = Some k → F k = g) →
  map F ks = rs.
Proof.
  induction ks as [|k ks IH]; intros [|g rs] Hks HF; try done.
  simpl in Hks. injection Hks as Hk Hks. simpl. f_equal.
  - apply HF; [left|done].
  - apply IH; [done|]. intros g' k' Hin. apply HF. by right.
Qed.

(** When the tokens of every triple are consecutive, the runs are the
    groups of the triples. *)
Lemma runs_group_by_key (l : list token) :
  contiguous l → runs l = group_by_key l.
Proof.
  intros Hnd. destruct (runs_spec l) as (Hcat & Hruns & _).
  symmetry. unfold group_by_key.
  apply (map_by_key _ run_key).
  - rewrite <- Hcat at 1. by apply first_seen_runs.
  - intros g k Hin Hk. rewrite <- Hcat. by apply filter_own_run.
Qed.

(** C3, as the code has it: after the tokens with empty text or with a
    confidence below the threshold are discarded, every maximal run of
    consecutive surviving tokens with the same (block, paragraph, line)
    triple makes exactly one OCR line; its text is the run's words joined by
    single spaces in emission order, its top and left are the minima over
    the run.  When the tokens of every triple are consecutive, these are
    the lines of grouping by triple. *)
Theorem ocr_lines_of_runs (data : list token) (min_conf : Z) :
  ocr_extract_lines_with_positions data min_conf
  = py_sort lt2 ocr_key
      (map line_of_group (runs (survivors min_conf data)))
  ∧ maximal_runs (survivors min_conf data) (runs (survivors min_conf data))
  ∧ (∀ z zs, minimum z zs ∈ z :: zs ∧ Forall (λ y, minimum z zs ≤ y) (z :: zs))
  ∧ (contiguous (survivors min_conf data) →
     ocr_extract_lines_with_positions data min_conf
     = lines_by_key data min_conf).
Proof.
  split; [apply ocr_extract_runs|]. split; [apply runs_spec|].
  split; [apply minimum_spec|].
  intros Hc. unfold lines_by_key. rewrite <- runs_group_by_key by done.
  apply ocr_extract_runs.
Qed.

Lemma ocr_lines_of_runs_witness :
  contiguous (survivors 60 consecutive_tokens)
  ∧ ocr_extract_lines_with_positions consecutive_tokens 60
    = lines_by_key consecutive_tokens 60.
Proof.
  assert (Hc : contiguous (survivors 60 consecutive_tokens)).
  { apply (bool_decide_unpack _). vm_compute. exact I. }
  split; [exact Hc|].
  exact (proj2 (proj2 (proj2 (ocr_lines_of_runs consecutive_tokens 60))) Hc).
Defined.

(** C3 as stated fails: the two words of line (1,1,1) are separated by a
    word of another line, and end up in two OCR lines. *)
Lemma ocr_lines_by_key_fails :
  ocr_extract_lines_with_positions interleaved_tokens 60
  = [(10, 5, "a"); (10, 9, "c"); (20, 5, "b")]
  ∧ lines_by_key interleaved_tokens 60 = [(10, 5, "a c"); (20, 5, "b")]
  ∧ ocr_extract_lines_with_positions interleaved_tokens 60
    ≠ lines_by_key interleaved_tokens 60.
Proof. split; [|split]; [by vm_compute..|]. vm_compute. discriminate. Qed.

(** ** Unparsable confidences *)

Lemma ocr_extract_skip mc (pre post : list token) (t : token) :
  skipped mc t = true →
  ocr_extract_lines_with_positions (pre ++ t :: post) mc
  = ocr_extract_lines_with_positions (pre ++ post) mc.
Proof.
  intros Ht. rewrite !ocr_extract_runs. do 3 f_equal.
  unfold survivors. rewrite !filter_app, filter_cons_False; [done|].
  by rewrite Ht.
Qed.

(** C10: a token whose confidence does not parse is given confidence -1,
    is below both thresholds, and leaves the result unchanged. *)
Theorem unparsable_confidence_discarded
    (pre post : list token) (t : token) (min_conf : Z) :
  tok_conf t = ConfUnparsable →
  min_conf = 60 ∨ min_conf = 55 →
  conf_value (tok_conf t) = ConfNum (-1)
  ∧ skipped min_conf t = true
  ∧ (t ∉ survivors min_conf (pre ++ t :: post))
  ∧ ocr_extract_lines_with_positions (pre ++ t :: post) min_conf
    = ocr_extract_lines_with_positions (pre ++ post) min_conf.
Proof.
  intros Hc Hmc.
  assert (Hs : skipped min_conf t = true).
  { unfold skipped, conf_lt. rewrite Hc. apply orb_true_iff. right.
    by destruct Hmc as [-> | ->]. }
  split; [by rewrite Hc|]. split; [done|]. split.
  - intros Hin. apply list_elem_of_filter in Hin as [Hin _]. congruence.
  - by apply ocr_extract_skip.
Qed.

Lemma unparsable_confidence_discarded_witness :
  ocr_extract_lines_with_positions
    (consecutive_tokens ++ garbled_token :: interleaved_tokens) 55
  = ocr_extract_lines_with_positions (consecutive_tokens ++ interleaved_tokens) 55.
Proof.
  exact (proj2 (proj2 (proj2
    (unparsable_confidence_discarded consecutive_tokens interleaved_tokens
       garbled_token 55 eq_refl (or_intror eq_refl))))).
Defined.

(** ** [main] and [extract_pdf_images_and_text] step by step *)

Ltac block_cases b :=
  let p := fresh "p" in
  destruct (block_type b) as [[|p|p]|]; [| destruct p | |].

Ltac xref_cases :=
  repeat match goal with
  | |- context [match xref_truthy ?x with _ => _ end] =>
      destruct (xref_truthy x) as [?|] eqn:?
  | |- context [match ?m !! ?k with _ => _ end] =>
      destruct (m !! k) as [?|] eqn:?
  end.

Lemma process_block_sim dir pi (st : Server.state) (b : block) :
  Mineru.process_block dir pi (forget st) b
  = (forget (Server.process_block dir pi st b).1.1,
     (Server.process_block dir pi st b).1.2,
     (Server.process_block dir pi st b).2).
Proof.
  unfold Mineru.process_block, Server.process_block.
  block_cases b; try reflexivity.
  destruct (xref_truthy (block_xref b)) as [x|]; [|reflexivity].
  simpl. by destruct (Server.xref_to_filename st !! x).
Qed.

Lemma blocks_loop_sim dir pi (blocks : list block) : ∀ st : Server.state,
  Mineru.blocks_loop dir pi (forget st) blocks
  = (forget (Server.blocks_loop dir pi st blocks).1.1,
     (Server.blocks_loop dir pi st blocks).1.2,
     (Server.blocks_loop dir pi st blocks).2).
Proof.
  induction blocks as [|b blocks IH]; intros st; [done|].
  simpl. rewrite process_block_sim.
  destruct (Server.process_block dir pi st b) as [[st1 its1] evs1]. simpl.
  rewrite IH.
  by destruct (Server.blocks_loop dir pi st1 blocks) as [[st2 its2] evs2].
Qed.

Lemma process_page_sim dir eng pi (st : Server.state) (pg : page) :
  Mineru.process_page dir eng pi (forget st) pg
  = (forget (Server.process_page dir eng pi st pg).1.1,
     (Server.process_page dir eng pi st pg).1.2,
     (Server.process_page dir eng pi st pg).2).
Proof.
  rewrite mineru_process_page_eq, server_process_page_eq, blocks_loop_sim.
  done.
Qed.

(** ** Empty-line suppression *)

Lemma text_kept_strip (s : string) (y x : Z) (k : kind) :
  strip s ≠ "" →
  text_kept {| ci_y := y; ci_x := x; ci_kind := k; ci_payload := strip s |}.
Proof. intros Hs _. simpl. by rewrite strip_fix. Qed.

Lemma line_item_kept (bb : bbox) (l : line) (it : content_item) :
  line_item bb l = Some it → text_kept it.
Proof.
  unfold line_item.
  destruct (nonempty _) eqn:Hne; [|done]. intros [= <-].
  apply text_kept_strip. by apply nonempty_true.
Qed.

Lemma line_item_blank (bb : bbox) (l : line) :
  strip (join "" (map (default "") (line_spans l))) = "" →
  line_item bb l = None.
Proof. unfold line_item. by intros ->. Qed.

Lemma flush_blank (items : list ocr_line) (k : line_key) (ws : list string)
    (tp lf : Z) :
  strip (join " " ws) = "" → flush items (Line k ws tp lf) = items.
Proof. simpl. intros ->. by destruct ws. Qed.

Lemma server_process_block_kept dir pi st (b : block) :
  Forall text_kept (Server.process_block dir pi st b).1.2.
Proof.
  unfold Server.process_block.
  block_cases b; simpl.
  1: { apply Forall_forall. intros it Hit.
       apply list_elem_of_omap in Hit as (l & _ & Hl).
       by apply line_item_kept in Hl. }
  3: destruct (xref_truthy (block_xref b)) as [x|]; simpl;
       [destruct (Server.xref_to_filename st !! x)|]; simpl.
  all: constructor; [intros ?; discriminate | constructor].
Qed.

Lemma server_blocks_loop_kept dir pi (blocks : list block) : ∀ st,
  Forall text_kept (Server.blocks_loop dir pi st blocks).1.2.
Proof.
  induction blocks as [|b blocks IH]; intros st; [constructor|].
  simpl. pose proof (server_process_block_kept dir pi st b) as Hb.
  destruct (Server.process_block dir pi st b) as [[st1 its1] evs1].
  specialize (IH st1).
  destruct (Server.blocks_loop dir pi st1 blocks) as [[st2 its2] evs2].
  simpl in *. by apply Forall_app.
Qed.

Lemma run_unskipped mc (l : list token) (g : list token) :
  Forall (λ t, skipped mc t = false) l → g ∈ runs l →
  is_run g ∧ Forall (λ t, skipped mc t = false) g.
Proof.
  intros Hall Hg. destruct (runs_spec l) as (Hcat & Hruns & _). split.
  - rewrite Forall_forall in Hruns. by apply Hruns.
  - rewrite <- Hcat in Hall. rewrite Forall_concat, Forall_forall in Hall.
    by apply Hall.
Qed.

Lemma ocr_line_kept (data : list token) (mc : Z) (l : ocr_line) :
  l ∈ ocr_extract_lines_with_positions data mc → text_kept (ocr_item l).
Proof.
  rewrite ocr_extract_runs, py_sort_elem_of. intros Hl.
  apply list_elem_of_In, in_map_iff in Hl as (g & <- & Hg).
  apply list_elem_of_In in Hg.
  destruct (run_unskipped mc _ g (survivors_unskipped mc data) Hg)
    as [[Hne _] Hall].
  destruct g as [|t g]; [done|].
  destruct (join_words_stripped (map tok_word (t :: g))) as [Hs Hj]; [done| |].
  { apply Forall_fmap. eapply Forall_impl; [exact Hall|].
    intros u Hu. by apply (survivor_word mc). }
  intros _.
  change (ci_payload (ocr_item (line_of_group (t :: g))))
    with (join " " (map tok_word (t :: g))).
  by rewrite (stripped_strip _ Hs).
Qed.

Lemma ocr_fallback_eq eng pi :
  ocr_fallback eng pi
  = match pass1 eng pi with
    | [] => (pass2 eng pi, [ImageToData pi "6"; ImageToData pi "11"])
    | _ => (pass1 eng pi, [ImageToData pi "6"])
    end.
Proof.
  unfold ocr_fallback, run_ocr. fold (pass1 eng pi). fold (pass2 eng pi).
  by destruct (pass1 eng pi).
Qed.

Lemma ocr_fallback_kept eng pi :
  Forall text_kept (map ocr_item (ocr_fallback eng pi).1).
Proof.
  apply Forall_forall. intros it Hit.
  apply list_elem_of_In, in_map_iff in Hit as (l & <- & Hl).
  apply list_elem_of_In in Hl. rewrite ocr_fallback_eq in Hl.
  destruct (pass1 eng pi) eqn:E.
  - by apply ocr_line_kept in Hl.
  - rewrite <- E in Hl. by apply ocr_line_kept in Hl.
Qed.

Lemma merge_page_kept eng pi (its : list content_item) :
  Forall text_kept its → Forall text_kept (merge_page eng pi its).1.
Proof.
  intros Hits. rewrite merge_page_items, py_sort_perm. unfold merge_input.
  destruct (native_text_found its); [done|].
  apply Forall_app. split; [done|]. apply ocr_fallback_kept.
Qed.

Lemma forget_onto (mst : Mineru.state) : ∃ st, forget st = mst.
Proof.
  exists {| Server.image_counter := Mineru.image_counter mst;
            Server.xref_to_filename := Mineru.xref_to_filename mst;
            Server.image_list := [] |}.
  by destruct mst.
Qed.

(** C7: every Text item in the merged output of a page has text that is not
    empty after stripping (it is its own stripped form); a native line whose
    spans strip to the empty string appends no item, and neither does an
    OCR line whose joined words strip to the empty string. Both entry
    points. *)
Theorem empty_lines_suppressed dir eng pi sst mst (pg : page) :
  (∀ it, it ∈ (Server.process_page dir eng pi sst pg).1.2 →
         ci_kind it = Text →
         strip (ci_payload it) ≠ "" ∧ strip (ci_payload it) = ci_payload it)
  ∧ (∀ it, it ∈ (Mineru.process_page dir eng pi mst pg).1.2 →
           ci_kind it = Text →
           strip (ci_payload it) ≠ "" ∧ strip (ci_payload it) = ci_payload it)
  ∧ (∀ bb l, strip (join "" (map (default "") (line_spans l))) = "" →
             line_item bb l = None)
  ∧ (∀ items k ws tp lf, strip (join " " ws) = "" →
             flush items (Line k ws tp lf) = items).
Proof.
  assert (HS : ∀ st, Forall text_kept (Server.process_page dir eng pi st pg).1.2).
  { intros st. rewrite server_process_page_eq. simpl.
    apply merge_page_kept, server_blocks_loop_kept. }
  split; [|split; [|split]].
  - intros it Hit. specialize (HS sst). rewrite Forall_forall in HS.
    by apply HS.
  - destruct (forget_onto mst) as [st <-]. rewrite process_page_sim. simpl.
    intros it Hit. specialize (HS st). rewrite Forall_forall in HS.
    by apply HS.
  - apply line_item_blank.
  - apply flush_blank.
Qed.

Lemma empty_lines_suppressed_witness :
  line_item (0, 0, 100, 20) blank_line = None
  ∧ map ci_payload (Server.process_page "images" no_ocr 0 Server.init titled_page).1.2
    = ["Introduction"].
Proof.
  split.
  - exact (proj1 (proj2 (proj2
      (empty_lines_suppressed "images" no_ocr 0 Server.init Mineru.init titled_page)))
      (0, 0, 100, 20) blank_line eq_refl).
  - reflexivity.
Defined.

(** ** OCR gating *)

Lemma server_process_block_text dir pi st (b : block) :
  filter (λ it, ci_kind it = Text) (Server.process_block dir pi st b).1.2
  = classify_text b.
Proof.
  unfold Server.process_block, classify_text.
  block_cases b; simpl.
  1: { apply filter_fix, Forall_forall. intros it Hit.
       apply list_elem_of_omap in Hit as (l & _ & Hl).
       unfold line_item in Hl. destruct (nonempty _); [|done].
       by injection Hl as <-. }
  3: destruct (xref_truthy (block_xref b)) as [x|]; simpl;
       [destruct (Server.xref_to_filename st !! x)|]; simpl.
  all: done.
Qed.

Lemma server_blocks_loop_text dir pi (blocks : list block) : ∀ st,
  filter (λ it, ci_kind it = Text) (Server.blocks_loop dir pi st blocks).1.2
  = text_blocks blocks.
Proof.
  induction blocks as [|b blocks IH]; intros st; [done|].
  simpl. pose proof (server_process_block_text dir pi st b) as Hb.
  destruct (Server.process_block dir pi st b) as [[st1 its1] evs1].
  specialize (IH st1).
  destruct (Server.blocks_loop dir pi st1 blocks) as [[st2 its2] evs2].
  simpl in *. by rewrite filter_app, Hb, IH.
Qed.

Lemma native_text_found_filter (its : list content_item) :
  native_text_found its = false ↔ filter (λ it, ci_kind it = Text) its = [].
Proof.
  unfold native_text_found. induction its as [|it its IH]; [done|].
  simpl. rewrite filter_cons. unfold is_text at 1.
  destruct (decide (ci_kind it = Text)) as [Hk|Hk].
  - rewrite bool_decide_eq_true_2 by done. simpl. split; done.
  - rewrite bool_decide_eq_false_2 by done. simpl. done.
Qed.

Lemma server_native_text_found dir pi st (pg : page) :
  native_text_found (Server.blocks_loop dir pi st pg).1.2 = false
  ↔ text_blocks pg = [].
Proof. by rewrite native_text_found_filter, server_blocks_loop_text. Qed.

Lemma server_process_block_no_ocr dir pi st (b : block) q :
  ocr_calls q (Server.process_block dir pi st b).2 = [].
Proof.
  unfold Server.process_block.
  block_cases b; simpl; try done.
  destruct (xref_truthy (block_xref b)) as [x|]; simpl; [|done].
  by destruct (Server.xref_to_filename st !! x).
Qed.

Lemma ocr_calls_app q (e1 e2 : list event) :
  ocr_calls q (e1 ++ e2) = ocr_calls q e1 ++ ocr_calls q e2.
Proof. apply omap_app. Qed.

Lemma server_blocks_loop_no_ocr dir pi (blocks : list block) q : ∀ st,
  ocr_calls q (Server.blocks_loop dir pi st blocks).2 = [].
Proof.
  induction blocks as [|b blocks IH]; intros st; [done|].
  simpl. pose proof (server_process_block_no_ocr dir pi st b q) as Hb.
  destruct (Server.process_block dir pi st b) as [[st1 its1] evs1].
  specialize (IH st1).
  destruct (Server.blocks_loop dir pi st1 blocks) as [[st2 its2] evs2].
  simpl in *. by rewrite ocr_calls_app, Hb, IH.
Qed.

Lemma ocr_fallback_calls eng pi q :
  ocr_calls q (ocr_fallback eng pi).2
  = if bool_decide (pi = q)
    then match pass1 eng pi with [] => ["6"; "11"] | _ => ["6"] end
    else [].
Proof.
  rewrite ocr_fallback_eq. unfold ocr_calls.
  destruct (pass1 eng pi); simpl; by case_bool_decide.
Qed.

(** The OCR invocations of one page. *)
Lemma server_page_ocr_calls dir eng pi st (pg : page) q :
  ocr_calls q (Server.process_page dir eng pi st pg).2
  = if bool_decide (pi = q)
    then match text_blocks pg with
         | [] => match pass1 eng pi with [] => ["6"; "11"] | _ => ["6"] end
         | _ => []
         end
    else [].
Proof.
  rewrite server_process_page_eq. simpl.
  rewrite ocr_calls_app, server_blocks_loop_no_ocr, merge_page_events. simpl.
  destruct (native_text_found _) eqn:Hn.
  - case_bool_decide; [|done].
    destruct (text_blocks pg) eqn:Ht; [|done].
    apply (server_native_text_found dir pi st) in Ht. congruence.
  - apply server_native_text_found in Hn. rewrite Hn.
    rewrite ocr_fallback_calls. by case_bool_decide.
Qed.

Lemma mineru_page_ocr_calls dir eng pi mst (pg : page) q :
  ocr_calls q (Mineru.process_page dir eng pi mst pg).2
  = if bool_decide (pi = q)
    then match text_blocks pg with
         | [] => match pass1 eng pi with [] => ["6"; "11"] | _ => ["6"] end
         | _ => []
         end
    else [].
Proof.
  destruct (forget_onto mst) as [st <-]. rewrite process_page_sim. simpl.
  apply server_page_ocr_calls.
Qed.

(** C4: the text items that the block loop leaves in [content_items] are
    the page's Text-kind blocks; processing a page invokes the OCR engine
    if and only if there is none of them; with at least one, there is no
    invocation. Invocations are for the page itself only. Both entry
    points. *)
Theorem ocr_gating dir eng pi sst mst (pg : page) :
  filter (λ it, ci_kind it = Text) (Server.blocks_loop dir pi sst pg).1.2
  = text_blocks pg
  ∧ filter (λ it, ci_kind it = Text) (Mineru.blocks_loop dir pi mst pg).1.2
    = text_blocks pg
  ∧ (ocr_calls pi (Server.process_page dir eng pi sst pg).2 ≠ []
     ↔ text_blocks pg = [])
  ∧ (ocr_calls pi (Mineru.process_page dir eng pi mst pg).2 ≠ []
     ↔ text_blocks pg = [])
  ∧ (text_blocks pg ≠ [] →
     ∀ q, ocr_calls q (Server.process_page dir eng pi sst pg).2 = []
          ∧ ocr_calls q (Mineru.process_page dir eng pi mst pg).2 = [])
  ∧ (∀ q, q ≠ pi →
     ocr_calls q (Server.process_page dir eng pi sst pg).2 = []
     ∧ ocr_calls q (Mineru.process_page dir eng pi mst pg).2 = []).
Proof.
  split; [apply server_blocks_loop_text|]. split.
  { destruct (forget_onto mst) as [st <-]. rewrite blocks_loop_sim. simpl.
    apply server_blocks_loop_text. }
  repeat split.
  - rewrite server_page_ocr_calls, bool_decide_eq_true_2 by done.
    by destruct (text_blocks pg).
  - intros Ht. rewrite server_page_ocr_calls, Ht, bool_decide_eq_true_2 by done.
    by destruct (pass1 eng pi).
  - rewrite mineru_page_ocr_calls, bool_decide_eq_true_2 by done.
    by destruct (text_blocks pg).
  - intros Ht. rewrite mineru_page_ocr_calls, Ht, bool_decide_eq_true_2 by done.
    by destruct (pass1 eng pi).
  - rewrite server_page_ocr_calls. case_bool_decide; [|done].
    by destruct (text_blocks pg).
  - rewrite mineru_page_ocr_calls. case_bool_decide; [|done].
    by destruct (text_blocks pg).
  - rewrite server_page_ocr_calls. by rewrite bool_decide_eq_false_2.
  - rewrite mineru_page_ocr_calls. by rewrite bool_decide_eq_false_2.
Qed.

Lemma ocr_gating_witness :
  text_blocks titled_page ≠ []
  ∧ ocr_calls 0 (Server.process_page "images" summary_engine 0 Server.init titled_page).2 = []
  ∧ ocr_calls 0 (Mineru.process_page "images" summary_engine 0 Mineru.init titled_page).2 = [].
Proof.
  assert (H : text_blocks titled_page ≠ []) by (vm_compute; discriminate).
  split; [exact H|].
  exact (proj1 (proj2 (proj2 (proj2 (proj2
    (ocr_gating "images" summary_engine 0 Server.init Mineru.init titled_page)))))
    H 0%nat).
Defined.

(** ** The two OCR passes *)

Lemma filter_text_ocr_items (ls : list ocr_line) :
  filter (λ it, ci_kind it = Text) (map ocr_item ls) = map ocr_item ls.
Proof. apply filter_fix, Forall_forall. intros it Hit.
  by apply list_elem_of_In, in_map_iff in Hit as (l & <- & _). Qed.

Lemma server_page_ocr_text dir eng pi st (pg : page) :
  text_blocks pg = [] →
  filter (λ it, ci_kind it = Text) (Server.process_page dir eng pi st pg).1.2
  ≡ₚ map ocr_item
       match pass1 eng pi with [] => pass2 eng pi | _ => pass1 eng pi end.
Proof.
  intros Ht. rewrite server_process_page_eq. simpl.
  rewrite merge_page_items, py_sort_perm. unfold merge_input.
  pose proof (proj2 (server_native_text_found dir pi st pg) Ht) as Hn.
  rewrite Hn, filter_app, server_blocks_loop_text, Ht, filter_text_ocr_items.
  rewrite ocr_fallback_eq. simpl. by destruct (pass1 eng pi).
Qed.

(** C5: on a page where the OCR fallback runs, the engine is invoked in
    single-block mode (lines kept from confidence 60), and a second time, in
    sparse mode (lines kept from confidence 55), if and only if the first
    pass yields no line; the page's text is that of the pass used last. So
    there are at most two invocations. Both entry points. *)
Theorem ocr_two_pass dir eng pi sst mst (pg : page) :
  text_blocks pg = [] →
  ocr_calls pi (Server.process_page dir eng pi sst pg).2
    = "6" :: match pass1 eng pi with [] => ["11"] | _ => [] end
  ∧ ocr_calls pi (Mineru.process_page dir eng pi mst pg).2
    = "6" :: match pass1 eng pi with [] => ["11"] | _ => [] end
  ∧ ("11" ∈ ocr_calls pi (Server.process_page dir eng pi sst pg).2
     ↔ pass1 eng pi = [])
  ∧ ("11" ∈ ocr_calls pi (Mineru.process_page dir eng pi mst pg).2
     ↔ pass1 eng pi = [])
  ∧ (length (ocr_calls pi (Server.process_page dir eng pi sst pg).2) ≤ 2)%nat
  ∧ (length (ocr_calls pi (Mineru.process_page dir eng pi mst pg).2) ≤ 2)%nat
  ∧ filter (λ it, ci_kind it = Text) (Server.process_page dir eng pi sst pg).1.2
    ≡ₚ map ocr_item
         match pass1 eng pi with [] => pass2 eng pi | _ => pass1 eng pi end
  ∧ filter (λ it, ci_kind it = Text) (Mineru.process_page dir eng pi mst pg).1.2
    ≡ₚ map ocr_item
         match pass1 eng pi with [] => pass2 eng pi | _ => pass1 eng pi end.
Proof.
  intros Ht.
  assert (HS : ocr_calls pi (Server.process_page dir eng pi sst pg).2
               = "6" :: match pass1 eng pi with [] => ["11"] | _ => [] end).
  { rewrite server_page_ocr_calls, Ht, bool_decide_eq_true_2 by done.
    by destruct (pass1 eng pi). }
  assert (HM : ocr_calls pi (Mineru.process_page dir eng pi mst pg).2
               = "6" :: match pass1 eng pi with [] => ["11"] | _ => [] end).
  { rewrite mineru_page_ocr_calls, Ht, bool_decide_eq_true_2 by done.
    by destruct (pass1 eng pi). }
  assert (H11 : "11" ∈ "6" :: match pass1 eng pi with [] => ["11"] | _ => [] end
                ↔ pass1 eng pi = []).
  { destruct (pass1 eng pi); split; try done.
    - intros _. right. left.
    - intros H. apply elem_of_cons in H as [H|H]; [done|].
      by apply elem_of_nil in H. }
  rewrite HS, HM.
  split; [done|]. split; [done|]. split; [done|]. split; [done|].
  split; [destruct (pass1 eng pi); simpl; lia|].
  split; [destruct (pass1 eng pi); simpl; lia|].
  split; [by apply server_page_ocr_text|].
  destruct (forget_onto mst) as [st <-]. rewrite process_page_sim. simpl.
  by apply server_page_ocr_text.
Qed.

Lemma ocr_two_pass_witness :
  text_blocks image_only_page = []
  ∧ ocr_calls 0 (Server.process_page "images" sparse_engine 0 Server.init image_only_page).2
    = ["6"; "11"]
  ∧ ocr_calls 0 (Server.process_page "images" summary_engine 0 Server.init image_only_page).2
    = ["6"].
Proof.
  split; [reflexivity|]. split.
  - exact (proj1 (ocr_two_pass "images" sparse_engine 0 Server.init Mineru.init
                    image_only_page eq_refl)).
  - exact (proj1 (ocr_two_pass "images" summary_engine 0 Server.init Mineru.init
                    image_only_page eq_refl)).
Defined.

(** ** Sequence numbers *)

Lemma names_between_app (a b c : nat) :
  (a ≤ b)%nat → (b ≤ c)%nat →
  names_between a b ++ names_between b c = names_between a c.
Proof.
  intros Hab Hbc. unfold names_between. rewrite <- map_app. f_equal.
  replace (c - a)%nat with ((b - a) + (c - b))%nat by lia.
  rewrite seq_app. do 2 f_equal. lia.
Qed.

Lemma allocates_nil (c : nat) : allocates c c [].
Proof. split; [done|]. unfold names_between. by rewrite Nat.sub_diag. Qed.

Lemma allocates_one (c : nat) (e : event) :
  saved_name e = Some (image_name (S c)) → allocates c (S c) [e].
Proof.
  intros He. split; [lia|]. unfold saved_names, names_between. simpl.
  rewrite He. by replace (S c - c)%nat with 1%nat by lia.
Qed.

Lemma allocates_app (a b c : nat) (e1 e2 : list event) :
  allocates a b e1 → allocates b c e2 → allocates a c (e1 ++ e2).
Proof.
  intros [Hab H1] [Hbc H2]. split; [lia|].
  unfold saved_names in *. rewrite omap_app, H1, H2.
  by apply names_between_app.
Qed.

Lemma server_process_block_allocates dir pi st (b : block) :
  allocates (Server.image_counter st)
            (Server.image_counter (Server.process_block dir pi st b).1.1)
            (Server.process_block dir pi st b).2
  ∧ Server.image_list (Server.process_block dir pi st b).1.1
    = Server.image_list st ++ saved_names (Server.process_block dir pi st b).2.
Proof.
  unfold Server.process_block.
  block_cases b; xref_cases; simpl.
  all: split; [first [apply allocates_nil | by apply allocates_one]
              | by rewrite ?app_nil_r].
Qed.

Lemma server_blocks_loop_allocates dir pi (blocks : list block) : ∀ st,
  allocates (Server.image_counter st)
            (Server.image_counter (Server.blocks_loop dir pi st blocks).1.1)
            (Server.blocks_loop dir pi st blocks).2
  ∧ Server.image_list (Server.blocks_loop dir pi st blocks).1.1
    = Server.image_list st ++ saved_names (Server.blocks_loop dir pi st blocks).2.
Proof.
  induction blocks as [|b blocks IH]; intros st.
  - simpl. split; [apply allocates_nil|by rewrite app_nil_r].
  - simpl. destruct (server_process_block_allocates dir pi st b) as [Hb Hl].
    destruct (Server.process_block dir pi st b) as [[st1 its1] evs1].
    destruct (IH st1) as [Hbs Hls].
    destruct (Server.blocks_loop dir pi st1 blocks) as [[st2 its2] evs2].
    simpl in *. split; [by eapply allocates_app|].
    unfold saved_names in *. by rewrite omap_app, Hls, Hl, app_assoc.
Qed.

Lemma merge_page_saves_nothing eng pi its :
  saved_names (merge_page eng pi its).2 = [].
Proof.
  rewrite merge_page_events. destruct (native_text_found its); [done|].
  rewrite ocr_fallback_eq. by destruct (pass1 eng pi).
Qed.

Lemma server_process_page_allocates dir eng pi st (pg : page) :
  allocates (Server.image_counter st)
            (Server.image_counter (Server.process_page dir eng pi st pg).1.1)
            (Server.process_page dir eng pi st pg).2
  ∧ Server.image_list (Server.process_page dir eng pi st pg).1.1
    = Server.image_list st ++ saved_names (Server.process_page dir eng pi st pg).2.
Proof.
  rewrite server_process_page_eq. simpl.
  destruct (server_blocks_loop_allocates dir pi pg st) as [[Hle Hn] Hl].
  unfold allocates, saved_names in *.
  rewrite omap_app. fold (saved_names (merge_page eng pi (Server.blocks_loop dir pi st pg).1.2).2).
  rewrite merge_page_saves_nothing, app_nil_r. done.
Qed.

Lemma server_pages_loop_allocates dir eng (pages : list page) : ∀ pi st,
  allocates (Server.image_counter st)
            (Server.image_counter (Server.pages_loop dir eng pi st pages).1.1)
            (Server.pages_loop dir eng pi st pages).2
  ∧ Server.image_list (Server.pages_loop dir eng pi st pages).1.1
    = Server.image_list st ++ saved_names (Server.pages_loop dir eng pi st pages).2.
Proof.
  induction pages as [|pg pages IH]; intros pi st.
  - simpl. split; [apply allocates_nil|by rewrite app_nil_r].
  - simpl. destruct (server_process_page_allocates dir eng pi st pg) as [Hb Hl].
    destruct (Server.process_page dir eng pi st pg) as [[st1 its1] evs1].
    destruct (IH (S pi) st1) as [Hbs Hls].
    destruct (Server.pages_loop dir eng (S pi) st1 pages) as [[st2 its2] evs2].
    simpl in *. split; [by eapply allocates_app|].
    unfold saved_names in *. by rewrite omap_app, Hls, Hl, app_assoc.
Qed.

(** ** Text streams *)

Lemma sapp_cons (c : ascii) (s t : string) :
  String c s +:+ t = String c (s +:+ t).
Proof. reflexivity. Qed.

Lemma sapp_nil_r (s : string) : s +:+ "" = s.
Proof. induction s as [|c s IH]; [done|]. by rewrite sapp_cons, IH. Qed.

Lemma sapp_assoc (s t u : string) : (s +:+ t) +:+ u = s +:+ (t +:+ u).
Proof. induction s as [|c s IH]; [done|]. by rewrite !sapp_cons, IH. Qed.

Lemma lines_text_app (l1 l2 : list string) :
  lines_text (l1 ++ l2) = lines_text l1 +:+ lines_text l2.
Proof.
  induction l1 as [|l l1 IH]; [done|].
  simpl. by rewrite IH, !sapp_assoc.
Qed.

Lemma join_cons (sep w : string) (ws : list string) :
  ws ≠ [] → join sep (w :: ws) = w +:+ sep +:+ join sep ws.
Proof. by destruct ws. Qed.

(** Lines joined by newlines lack the newline after the last line. *)
Lemma join_nl_lines_text (lines : list string) :
  lines ≠ [] → join nl lines +:+ nl = lines_text lines.
Proof.
  induction lines as [|l lines IH]; [done|]. intros _.
  destruct lines as [|l' lines]; [done|].
  rewrite join_cons by done. simpl lines_text.
  rewrite !sapp_assoc. do 2 f_equal. by apply IH.
Qed.

Lemma join_empty_lines_text (f : content_item → string) (its : list content_item) :
  join "" (map (λ it, f it +:+ nl) its) = lines_text (map f its).
Proof.
  induction its as [|it its IH]; [done|].
  destruct its as [|it' its].
  - simpl. by rewrite sapp_nil_r.
  - change (map (λ it, f it +:+ nl) (it :: it' :: its))
      with ((f it +:+ nl) :: map (λ it, f it +:+ nl) (it' :: its)).
    rewrite join_cons by done. rewrite IH. simpl. by rewrite !sapp_assoc.
Qed.

(** What [main] writes for a page is what [extract_pdf_images_and_text]
    appends to [txt_lines], each line followed by a newline. *)
Lemma page_text_lines (pi : nat) (merged : list content_item) :
  Mineru.page_text pi merged = lines_text (Server.page_lines pi merged).
Proof.
  unfold Mineru.page_text, Server.page_lines.
  rewrite join_empty_lines_text. simpl lines_text at 2.
  rewrite lines_text_app, !sapp_assoc. simpl. by rewrite sapp_nil_r.
Qed.

Lemma pages_loop_sim dir eng (pages : list page) : ∀ pi (st : Server.state),
  Mineru.pages_loop dir eng pi (forget st) pages
  = (forget (Server.pages_loop dir eng pi st pages).1.1,
     lines_text (Server.pages_loop dir eng pi st pages).1.2,
     (Server.pages_loop dir eng pi st pages).2).
Proof.
  induction pages as [|pg pages IH]; intros pi st; [done|].
  cbn [Mineru.pages_loop Server.pages_loop]. rewrite process_page_sim.
  destruct (Server.process_page dir eng pi st pg) as [[st1 merged] evs1].
  cbn [fst snd]. rewrite IH.
  destruct (Server.pages_loop dir eng (S pi) st1 pages) as [[st2 ls] evs2].
  cbn [fst snd]. by rewrite page_text_lines, lines_text_app.
Qed.

(** ** File names *)

Lemma pretty_N_go_head (x : N) : ∀ s,
  (0 < x)%N → ∃ c r, pretty_N_go x s = String c r ∧ c ≠ "0"%char.
Proof.
  induction (N.lt_wf_0 x) as [x _ IH]. intros s Hx.
  rewrite pretty_N_go_step by done.
  destruct (decide (x < 10)%N) as [Hlt|Hge].
  - rewrite N.div_small, N.mod_small by done. rewrite pretty_N_go_0.
    eexists _, _. split; [done|].
    assert (x = 1 ∨ x = 2 ∨ x = 3 ∨ x = 4 ∨ x = 5 ∨ x = 6
            ∨ x = 7 ∨ x = 8 ∨ x = 9)%N as Hc by lia.
    repeat (destruct Hc as [->|Hc]; [done|]). by subst.
  - apply IH.
    + apply N.div_lt; lia.
    + apply N.div_str_pos. lia.
Qed.

Lemma pretty_nat_head (n : nat) :
  n ≠ 0%nat → ∃ c r, pretty n = String c r ∧ c ≠ "0"%char.
Proof.
  intros Hn. unfold pretty, pretty_nat, pretty, pretty_N.
  rewrite decide_False by lia. apply pretty_N_go_head. lia.
Qed.

Lemma pretty_nat_length (n : nat) : (1 ≤ String.length (pretty n))%nat.
Proof.
  destruct (decide (n = 0%nat)) as [->|Hn]; [done|].
  destruct (pretty_nat_head n Hn) as (c & r & -> & _). simpl. lia.
Qed.

Lemma pretty_N_go_length (k : nat) : ∀ (x : N) (s : string),
  (x < 10 ^ N.of_nat k)%N →
  (String.length (pretty_N_go x s) ≤ String.length s + k)%nat.
Proof.
  induction k as [|k IH]; intros x s Hx.
  - assert (x = 0%N) as -> by (simpl in Hx; lia). rewrite pretty_N_go_0. lia.
  - destruct (decide (x = 0)%N) as [->|Hx0]; [rewrite pretty_N_go_0; lia|].
    rewrite pretty_N_go_step by lia.
    etrans; [apply IH|simpl; lia].
    apply N.Div0.div_lt_upper_bound.
    replace (N.of_nat (S k)) with (N.succ (N.of_nat k)) in Hx by lia.
    by rewrite N.pow_succ_r' in Hx.
Qed.

Lemma pretty_nat_length_4 (n : nat) :
  (N.of_nat n < 10000)%N → (String.length (pretty n) ≤ 4)%nat.
Proof.
  intros Hn. unfold pretty, pretty_nat, pretty, pretty_N.
  case_decide; [simpl; lia|].
  apply (pretty_N_go_length 4 _ ""). by change (10 ^ N.of_nat 4)%N with 10000%N.
Qed.

Lemma slength_app (s t : string) :
  String.length (s +:+ t) = (String.length s + String.length t)%nat.
Proof. induction s as [|c s IH]; [done|]. rewrite sapp_cons. simpl. lia. Qed.

Lemma zeros_length (k : nat) : String.length (zeros k) = k.
Proof. induction k as [|k IH]; simpl; [done|]. by rewrite IH. Qed.

Lemma zeros_add (a b : nat) : zeros (a + b) = zeros a +:+ zeros b.
Proof. induction a as [|a IH]; [done|]. simpl. by rewrite IH. Qed.

(** [{:04d}] pads to four digits, and never cuts. *)
Lemma fmt_04d_length (n : nat) :
  String.length (fmt_04d n) = (4 `max` String.length (pretty n))%nat
  ∧ ((N.of_nat n < 10000)%N → String.length (fmt_04d n) = 4%nat).
Proof.
  unfold fmt_04d. rewrite slength_app, zeros_length. split; [lia|].
  intros Hn. pose proof (pretty_nat_length_4 n Hn). lia.
Qed.

Lemma zeros_pretty (k : nat) (n m : nat) :
  zeros (S k) +:+ pretty m = pretty n → False.
Proof.
  intros H. destruct (decide (n = 0%nat)) as [->|Hn].
  - apply (f_equal String.length) in H.
    rewrite slength_app, zeros_length in H.
    pose proof (pretty_nat_length m). simpl in H. lia.
  - destruct (pretty_nat_head n Hn) as (c & r & Hp & Hc).
    rewrite Hp in H. simpl in H. rewrite sapp_cons in H. congruence.
Qed.

Lemma fmt_04d_inj (n m : nat) : fmt_04d n = fmt_04d m → n = m.
Proof.
  unfold fmt_04d. intros H.
  assert (Hlen : (4 - String.length (pretty n) + String.length (pretty n)
                  = 4 - String.length (pretty m) + String.length (pretty m))%nat).
  { apply (f_equal String.length) in H.
    by rewrite !slength_app, !zeros_length in H. }
  set (a := (4 - String.length (pretty n))%nat) in *.
  set (b := (4 - String.length (pretty m))%nat) in *.
  destruct (Nat.lt_trichotomy a b) as [Hab|[Hab|Hab]].
  - exfalso. replace b with (a + S (b - a - 1))%nat in H by lia.
    rewrite zeros_add, sapp_assoc in H. apply String.app_inj in H.
    symmetry in H. by apply zeros_pretty in H.
  - rewrite Hab in H. apply String.app_inj in H.
    by apply (inj pretty) in H.
  - exfalso. replace a with (b + S (a - b - 1))%nat in H by lia.
    rewrite zeros_add, sapp_assoc in H. apply String.app_inj in H.
    by apply zeros_pretty in H.
Qed.

Lemma sapp_inj_r (s t u : string) : s +:+ u = t +:+ u → s = t.
Proof.
  revert t. induction s as [|c s IH]; intros [|d t] H; [done| | |].
  - exfalso. apply (f_equal String.length) in H.
    rewrite !slength_app in H. simpl in H. lia.
  - exfalso. apply (f_equal String.length) in H.
    rewrite !slength_app in H. simpl in H. lia.
  - rewrite !sapp_cons in H. injection H as -> H. f_equal. by apply IH.
Qed.

Lemma image_name_inj (n m : nat) : image_name n = image_name m → n = m.
Proof.
  unfold image_name. intros H. apply String.app_inj in H.
  by apply sapp_inj_r, fmt_04d_inj in H.
Qed.

Lemma image_names_NoDup (a n : nat) : NoDup (map image_name (seq a n)).
Proof.
  apply (NoDup_fmap_2_strong image_name).
  - intros x y _ _. apply image_name_inj.
  - apply NoDup_ListNoDup, List.seq_NoDup.
Qed.

Lemma mineru_main_sim ts eng (doc : document) :
  Mineru.main ts eng doc
  = (forget (Server.run (Mineru.images_dir ts) eng doc).1.1,
     lines_text (Server.run (Mineru.images_dir ts) eng doc).1.2,
     (Server.run (Mineru.images_dir ts) eng doc).2).
Proof. apply (pages_loop_sim _ eng doc 0%nat Server.init). Qed.

Lemma server_run_allocates dir eng (doc : document) :
  saved_names (Server.run dir eng doc).2
  = map image_name (seq 1 (Server.image_counter (Server.run dir eng doc).1.1))
  ∧ Server.image_list (Server.run dir eng doc).1.1
    = saved_names (Server.run dir eng doc).2.
Proof.
  destruct (server_pages_loop_allocates dir eng doc 0 Server.init)
    as [[_ Hn] Hl].
  unfold Server.run. split; [|done].
  rewrite Hn. unfold names_between. simpl Server.image_counter at 1 3.
  by rewrite Nat.sub_0_r.
Qed.

Example image_name_examples :
  image_name 1 = "IMAGE_0001.png" ∧ image_name 42 = "IMAGE_0042.png"
  ∧ image_name (10 * 1000 - 1) = "IMAGE_9999.png"
  ∧ image_name (10 * 1000) = "IMAGE_10000.png".
Proof. repeat split; by vm_compute. Qed.

(** C6: over a whole run the image files written are, in this order, those
    numbered 1, 2, ..., K, where K is the final value of the image counter
    and the number of files written; number n is written as
    [IMAGE_] + n in decimal padded with zeros to four digits + [.png], and no
    name is written twice. Both entry points; [image_list] of server.py is
    that list of names. *)
Theorem sequence_contiguity dir ts eng (doc : document) :
  saved_names (Server.run dir eng doc).2
  = map image_name (seq 1 (Server.image_counter (Server.run dir eng doc).1.1))
  ∧ length (saved_names (Server.run dir eng doc).2)
    = Server.image_counter (Server.run dir eng doc).1.1
  ∧ Server.image_list (Server.run dir eng doc).1.1
    = saved_names (Server.run dir eng doc).2
  ∧ NoDup (saved_names (Server.run dir eng doc).2)
  ∧ saved_names (Mineru.main ts eng doc).2
    = map image_name (seq 1 (Mineru.image_counter (Mineru.main ts eng doc).1.1))
  ∧ length (saved_names (Mineru.main ts eng doc).2)
    = Mineru.image_counter (Mineru.main ts eng doc).1.1
  ∧ NoDup (saved_names (Mineru.main ts eng doc).2)
  ∧ (∀ n, image_name n = "IMAGE_" +:+ fmt_04d n +:+ ".png"
          ∧ String.length (fmt_04d n) = (4 `max` String.length (pretty n))%nat
          ∧ ∀ m, image_name n = image_name m → n = m).
Proof.
  assert (HS : ∀ d,
    saved_names (Server.run d eng doc).2
    = map image_name (seq 1 (Server.image_counter (Server.run d eng doc).1.1))
    ∧ length (saved_names (Server.run d eng doc).2)
      = Server.image_counter (Server.run d eng doc).1.1
    ∧ NoDup (saved_names (Server.run d eng doc).2)).
  { intros d. destruct (server_run_allocates d eng doc) as [Hn _].
    split; [done|]. rewrite Hn. split.
    - by rewrite length_map, length_seq.
    - apply image_names_NoDup. }
  destruct (HS dir) as (H1 & H2 & H3).
  destruct (HS (Mineru.images_dir ts)) as (M1 & M2 & M3).
  rewrite mineru_main_sim. simpl.
  split; [done|]. split; [done|].
  split; [apply server_run_allocates|].
  do 4 (split; [done|]).
  intros n. split; [done|]. split; [apply fmt_04d_length|].
  intros m. apply image_name_inj.
Qed.

Lemma sequence_contiguity_witness :
  saved_names (Server.run "images" summary_engine two_page_document).2
  = ["IMAGE_0001.png"; "IMAGE_0002.png"]
  ∧ Server.image_counter (Server.run "images" summary_engine two_page_document).1.1
    = 2%nat
  ∧ (image_name 1 = image_name 1 → 1 = 1)%nat.
Proof.
  pose proof (sequence_contiguity "images" "20251014-103012" summary_engine
                two_page_document) as (H1 & H2 & _ & _ & _ & _ & _ & H8).
  split; [|split].
  - rewrite H1. reflexivity.
  - rewrite <- H2, H1. reflexivity.
  - exact (proj2 (proj2 (H8 1%nat)) 1%nat).
Defined.

(** ** Runs compared *)

Lemma saved_names_retarget d (evs : list event) :
  saved_names (map (retarget d) evs) = saved_names evs.
Proof.
  unfold saved_names. induction evs as [|e evs IH]; [done|].
  change (e :: evs) with ([e] ++ evs).
  rewrite map_app, !omap_app, IH. by destruct e.
Qed.

Lemma server_process_block_dir d1 d2 pi st (b : block) :
  Server.process_block d2 pi st b
  = ((Server.process_block d1 pi st b).1,
     map (retarget d2) (Server.process_block d1 pi st b).2).
Proof.
  unfold Server.process_block.
  block_cases b; xref_cases; reflexivity.
Qed.

Lemma server_blocks_loop_dir d1 d2 pi (blocks : list block) : ∀ st,
  Server.blocks_loop d2 pi st blocks
  = ((Server.blocks_loop d1 pi st blocks).1,
     map (retarget d2) (Server.blocks_loop d1 pi st blocks).2).
Proof.
  induction blocks as [|b blocks IH]; intros st; [done|].
  cbn [Server.blocks_loop]. rewrite (server_process_block_dir d1 d2).
  destruct (Server.process_block d1 pi st b) as [[st1 its1] evs1].
  cbn [fst snd]. rewrite IH.
  destruct (Server.blocks_loop d1 pi st1 blocks) as [[st2 its2] evs2].
  cbn [fst snd]. by rewrite map_app.
Qed.

Lemma ocr_fallback_ext eng1 eng2 pi :
  same_answers eng1 eng2 → ocr_fallback eng1 pi = ocr_fallback eng2 pi.
Proof. intros H. unfold ocr_fallback, run_ocr. by rewrite !H. Qed.

Lemma merge_page_ext eng1 eng2 pi its :
  same_answers eng1 eng2 → merge_page eng1 pi its = merge_page eng2 pi its.
Proof. intros H. unfold merge_page. by rewrite (ocr_fallback_ext eng1 eng2). Qed.

Lemma merge_page_retarget d eng pi its :
  map (retarget d) (merge_page eng pi its).2 = (merge_page eng pi its).2.
Proof.
  rewrite merge_page_events. destruct (native_text_found its); [done|].
  rewrite ocr_fallback_eq. by destruct (pass1 eng pi).
Qed.

Lemma server_process_page_indep d1 d2 eng1 eng2 pi st (pg : page) :
  same_answers eng1 eng2 →
  Server.process_page d2 eng2 pi st pg
  = ((Server.process_page d1 eng1 pi st pg).1,
     map (retarget d2) (Server.process_page d1 eng1 pi st pg).2).
Proof.
  intros H. rewrite !server_process_page_eq.
  rewrite (server_blocks_loop_dir d1 d2). cbn [fst snd].
  rewrite <- (merge_page_ext eng1 eng2) by done.
  by rewrite map_app, merge_page_retarget.
Qed.

Lemma server_pages_loop_indep d1 d2 eng1 eng2 (pages : list page) :
  same_answers eng1 eng2 → ∀ pi st,
  Server.pages_loop d2 eng2 pi st pages
  = ((Server.pages_loop d1 eng1 pi st pages).1,
     map (retarget d2) (Server.pages_loop d1 eng1 pi st pages).2).
Proof.
  intros H. induction pages as [|pg pages IH]; intros pi st; [done|].
  cbn [Server.pages_loop].
  rewrite (server_process_page_indep d1 d2 eng1 eng2) by done.
  destruct (Server.process_page d1 eng1 pi st pg) as [[st1 merged] evs1].
  cbn [fst snd]. rewrite IH.
  destruct (Server.pages_loop d1 eng1 (S pi) st1 pages) as [[st2 ls] evs2].
  cbn [fst snd]. by rewrite map_app.
Qed.

Lemma server_run_indep d1 d2 eng1 eng2 (doc : document) :
  same_answers eng1 eng2 →
  Server.run d2 eng2 doc
  = ((Server.run d1 eng1 doc).1, map (retarget d2) (Server.run d1 eng1 doc).2).
Proof. intros H. by apply server_pages_loop_indep. Qed.

Lemma same_answers_refl eng : same_answers eng eng.
Proof. by intros ??. Qed.

Lemma server_extract_eq dir eng (doc : document) :
  Server.extract_pdf_images_and_text dir eng doc
  = (join nl (Server.run dir eng doc).1.2,
     Server.image_list (Server.run dir eng doc).1.1).
Proof.
  unfold Server.extract_pdf_images_and_text.
  by destruct (Server.run dir eng doc) as [[st ls] evs].
Qed.

Lemma server_pages_loop_nonempty dir eng (pages : list page) pi st :
  pages ≠ [] → (Server.pages_loop dir eng pi st pages).1.2 ≠ [].
Proof.
  destruct pages as [|pg pages]; [done|]. intros _.
  cbn [Server.pages_loop].
  destruct (Server.process_page dir eng pi st pg) as [[st1 merged] evs1].
  by destruct (Server.pages_loop dir eng (S pi) st1 pages) as [[st2 ls] evs2].
Qed.

(** C8, as the code has it: for every document and engine, the lines that
    [main] writes are the lines [extract_pdf_images_and_text] collects in
    [txt_lines] (same page headers, same items in the same order, rendered
    in the same way, same blank lines), and the same image files are written.
    [main] ends every line with a newline, [extract_pdf_images_and_text]
    joins the lines with newlines: for a document that has a page, the text
    of [main] is [txt_content] followed by one newline. *)
Theorem entry_points_agree dir ts eng (doc : document) :
  (Mineru.main ts eng doc).1.2 = lines_text (Server.run dir eng doc).1.2
  ∧ saved_names (Mineru.main ts eng doc).2 = saved_names (Server.run dir eng doc).2
  ∧ (doc ≠ [] →
     (Mineru.main ts eng doc).1.2
     = (Server.extract_pdf_images_and_text dir eng doc).1 +:+ nl)
  ∧ (doc = [] →
     (Mineru.main ts eng doc).1.2 = ""
     ∧ (Server.extract_pdf_images_and_text dir eng doc).1 = "").
Proof.
  rewrite mineru_main_sim, server_extract_eq. cbn [fst snd].
  rewrite (server_run_indep dir (Mineru.images_dir ts) eng eng)
    by apply same_answers_refl.
  cbn [fst snd]. rewrite saved_names_retarget.
  split; [done|]. split; [done|]. split.
  - intros Hdoc. symmetry. apply join_nl_lines_text.
    by apply server_pages_loop_nonempty.
  - by intros ->.
Qed.

Lemma entry_points_agree_witness :
  two_page_document ≠ []
  ∧ (Mineru.main "20251014-103012" summary_engine two_page_document).1.2
    = (Server.extract_pdf_images_and_text "images" summary_engine two_page_document).1
      +:+ nl.
Proof.
  assert (H : two_page_document ≠ []) by discriminate.
  split; [exact H|].
  exact (proj1 (proj2 (proj2
    (entry_points_agree "images" "20251014-103012" summary_engine two_page_document)))
    H).
Defined.

(** C8 as stated fails: for a document of one empty page the text of
    [main] ends in a blank line, the text of [extract_pdf_images_and_text]
    does not. *)
Lemma entry_points_differ :
  (Mineru.main "20251014-103012" no_ocr blank_document).1.2
  = "=== Slide 1 ===" +:+ nl +:+ nl
  ∧ (Server.extract_pdf_images_and_text "images" no_ocr blank_document).1
    = "=== Slide 1 ===" +:+ nl
  ∧ (Mineru.main "20251014-103012" no_ocr blank_document).1.2
    ≠ (Server.extract_pdf_images_and_text "images" no_ocr blank_document).1.
Proof. split; [|split]; [by vm_compute..|]. vm_compute. discriminate. Qed.

(** C9: two runs on the same document, with engines that give the same
    answers, produce the same text and the same sequence of image file
    names, whatever the time at which [main] is started and whatever the
    images directory is; for server.py the returned [image_list] is the
    same too. *)
Theorem runs_deterministic dir1 dir2 ts1 ts2 eng1 eng2 (doc : document) :
  same_answers eng1 eng2 →
  Server.extract_pdf_images_and_text dir1 eng1 doc
  = Server.extract_pdf_images_and_text dir2 eng2 doc
  ∧ saved_names (Server.run dir1 eng1 doc).2
    = saved_names (Server.run dir2 eng2 doc).2
  ∧ (Mineru.main ts1 eng1 doc).1.2 = (Mineru.main ts2 eng2 doc).1.2
  ∧ saved_names (Mineru.main ts1 eng1 doc).2
    = saved_names (Mineru.main ts2 eng2 doc).2.
Proof.
  intros H.
  rewrite !server_extract_eq, !mineru_main_sim. cbn [fst snd].
  rewrite (server_run_indep dir1 dir2 eng1 eng2) by done.
  rewrite (server_run_indep dir1 (Mineru.images_dir ts1) eng1 eng1)
    by apply same_answers_refl.
  rewrite (server_run_indep dir1 (Mineru.images_dir ts2) eng1 eng2) by done.
  cbn [fst snd]. rewrite !saved_names_retarget.
  repeat split.
Qed.

Lemma runs_deterministic_witness :
  same_answers summary_engine summary_engine
  ∧ (Mineru.main "20251014-103012" summary_engine two_page_document).1.2
    = (Mineru.main "20260101-000000" summary_engine two_page_document).1.2
  ∧ saved_names (Mineru.main "20251014-103012" summary_engine two_page_document).2
    = saved_names (Mineru.main "20260101-000000" summary_engine two_page_document).2.
Proof.
  assert (H : same_answers summary_engine summary_engine)
    by (intros ? ?; reflexivity).
  split; [exact H|].
  exact (proj2 (proj2
    (runs_deterministic "images" "images" "20251014-103012" "20260101-000000"
       summary_engine summary_engine two_page_document H))).
Defined.

(** ** Image memoization *)

Lemma memoized_nil (m : gmap Z string) : memoized m m [] [].
Proof.
  split; [done|]. intros x. destruct (m !! x); split; try done.
  all: intros pi b its Hin; by apply elem_of_nil in Hin.
Qed.

Lemma memoized_events (m m' : gmap Z string) tr (evs evs' : list event) :
  (∀ x, pixmap_names x evs' = []) →
  memoized m m' tr evs → memoized m m' tr (evs ++ evs').
Proof.
  intros Hnone [Hsub H]. split; [done|]. intros x. specialize (H x).
  unfold pixmap_names in *. rewrite omap_app, Hnone, app_nil_r. done.
Qed.

Lemma memoized_app (m1 m2 m3 : gmap Z string) tr1 tr2 (e1 e2 : list event) :
  memoized m1 m2 tr1 e1 → memoized m2 m3 tr2 e2 →
  memoized m1 m3 (tr1 ++ tr2) (e1 ++ e2).
Proof.
  intros [Hs1 H1] [Hs2 H2]. split; [by trans m2|].
  intros x. specialize (H1 x). specialize (H2 x).
  unfold pixmap_names in *. rewrite omap_app.
  destruct (m3 !! x) as [f|] eqn:H3.
  - destruct H2 as [Htr2 Hev2].
    destruct (m2 !! x) as [f'|] eqn:H2x.
    + assert (f' = f) as ->.
      { pose proof (lookup_weaken _ _ _ _ H2x Hs2). congruence. }
      destruct H1 as [Htr1 Hev1]. split.
      * intros pi b its Hin. apply elem_of_app in Hin as [Hin|Hin]; eauto.
      * rewrite Hev1, Hev2, app_nil_r. done.
    + destruct H1 as [Htr1 Hev1].
      assert (m1 !! x = None) as Hm1.
      { destruct (m1 !! x) eqn:E; [|done].
        pose proof (lookup_weaken _ _ _ _ E Hs1). congruence. }
      split.
      * intros pi b its Hin Hx. apply elem_of_app in Hin as [Hin|Hin]; eauto.
        by destruct (Htr1 _ _ _ Hin).
      * by rewrite Hev1, Hev2, Hm1.
  - destruct H2 as [Htr2 Hev2].
    assert (m2 !! x = None) as Hm2.
    { destruct (m2 !! x) eqn:E; [|done].
      pose proof (lookup_weaken _ _ _ _ E Hs2). congruence. }
    rewrite Hm2 in H1. destruct H1 as [Htr1 Hev1]. split.
    + intros pi b its Hin. apply elem_of_app in Hin as [Hin|Hin]; eauto.
    + by rewrite Hev1, Hev2.
Qed.

Lemma xref_truthy_Some (o : option Z) (x : Z) :
  xref_truthy o = Some x ↔ o = Some x ∧ x ≠ 0.
Proof.
  unfold xref_truthy. destruct o as [n|].
  - destruct (Z.eqb_spec n 0) as [->|Hn].
    + split; [done|]. by intros [[= <-] H].
    + split; [by intros [= <-]|]. by intros [[= ->] _].
  - split; [done|]. by intros [? _].
Qed.

(** A lookup hit: the state is left as it is and nothing is done outside. *)
Lemma server_hit dir pi st (b : block) (x : Z) (f : string) :
  shows x b → Server.xref_to_filename st !! x = Some f →
  Server.process_block dir pi st b = (st, [image_item (bbox_of b) f], []).
Proof.
  intros [Ht Hx] Hf. unfold Server.process_block. by rewrite Ht, Hx, Hf.
Qed.

Lemma mineru_hit dir pi st (b : block) (x : Z) (f : string) :
  shows x b → Mineru.xref_to_filename st !! x = Some f →
  Mineru.process_block dir pi st b = (st, [image_item (bbox_of b) f], []).
Proof.
  intros [Ht Hx] Hf. unfold Mineru.process_block. by rewrite Ht, Hx, Hf.
Qed.

Lemma memoized_other (m : gmap Z string) pi (b : block) its (evs : list event) :
  (∀ x, ¬ shows x b) → (∀ x, pixmap_names x evs = []) →
  memoized m m [(pi, b, its)] evs.
Proof.
  intros Hb Hevs. split; [done|]. intros x. rewrite Hevs.
  destruct (m !! x); split; try done.
  all: intros pi' b' its' Hin; apply list_elem_of_singleton in Hin;
       injection Hin as -> -> ->; try done.
  intros Hx. by destruct (Hb x).
Qed.

Lemma server_process_block_memoized dir pi st (b : block) :
  memoized (Server.xref_to_filename st)
           (Server.xref_to_filename (Server.process_block dir pi st b).1.1)
           [(pi, b, (Server.process_block dir pi st b).1.2)]
           (Server.process_block dir pi st b).2.
Proof.
  destruct (decide (block_type b = Some 1)) as [Ht|Ht].
  - unfold Server.process_block. rewrite Ht.
    destruct (xref_truthy (block_xref b)) as [x0|] eqn:Hx0.
    + destruct (Server.xref_to_filename st !! x0) as [f0|] eqn:Hf0; simpl.
      * split; [done|]. intros x.
        destruct (Server.xref_to_filename st !! x) as [f|] eqn:Hf.
        -- split; [|done]. intros pi' b' its' Hin [_ Hx].
           apply list_elem_of_singleton in Hin. injection Hin as -> -> ->.
           congruence.
        -- split; [|done]. intros pi' b' its' Hin [_ Hx].
           apply list_elem_of_singleton in Hin. injection Hin as -> -> ->.
           congruence.
      * split; [by apply insert_subseteq|]. intros x.
        unfold pixmap_names. simpl.
        destruct (decide (x0 = x)) as [->|Hne].
        -- rewrite lookup_insert_eq, Hf0, bool_decide_eq_true_2 by done.
           split; [|done]. intros pi' b' its' Hin _.
           apply list_elem_of_singleton in Hin. by injection Hin as -> -> ->.
        -- rewrite lookup_insert_ne, bool_decide_eq_false_2 by done.
           destruct (Server.xref_to_filename st !! x) as [f|] eqn:Hf.
           ++ split; [|done]. intros pi' b' its' Hin [_ Hx].
              apply list_elem_of_singleton in Hin. injection Hin as -> -> ->.
              congruence.
           ++ split; [|done]. intros pi' b' its' Hin [_ Hx].
              apply list_elem_of_singleton in Hin. injection Hin as -> -> ->.
              congruence.
    + apply memoized_other; [|done]. intros x [_ Hx]. congruence.
  - assert (Hb : ∀ x, ¬ shows x b) by (by intros x [? _]).
    unfold Server.process_block.
    block_cases b; try done; by apply memoized_other.
Qed.

Lemma server_blocks_end dir pi (blocks : list block) : ∀ st,
  (Server.blocks_loop dir pi st blocks).1.1
  = blocks_end (Server.process_block dir) pi st blocks.
Proof.
  induction blocks as [|b blocks IH]; intros st; [done|].
  cbn [Server.blocks_loop blocks_end]. rewrite <- IH.
  destruct (Server.process_block dir pi st b) as [[st1 its1] evs1].
  cbn [fst snd].
  by destruct (Server.blocks_loop dir pi st1 blocks) as [[st2 its2] evs2].
Qed.

(** [content_items], before the OCR step, holds the items of the page's
    placements. *)
Lemma server_blocks_items dir pi (blocks : list block) : ∀ st,
  (Server.blocks_loop dir pi st blocks).1.2
  = concat (map snd (blocks_trace (Server.process_block dir) pi st blocks)).
Proof.
  induction blocks as [|b blocks IH]; intros st; [done|].
  cbn [Server.blocks_loop blocks_trace map concat snd]. rewrite <- IH.
  destruct (Server.process_block dir pi st b) as [[st1 its1] evs1].
  cbn [fst snd].
  by destruct (Server.blocks_loop dir pi st1 blocks) as [[st2 its2] evs2].
Qed.

Lemma server_blocks_loop_memoized dir pi (blocks : list block) : ∀ st,
  memoized (Server.xref_to_filename st)
           (Server.xref_to_filename (Server.blocks_loop dir pi st blocks).1.1)
           (blocks_trace (Server.process_block dir) pi st blocks)
           (Server.blocks_loop dir pi st blocks).2.
Proof.
  induction blocks as [|b blocks IH]; intros st; [apply memoized_nil|].
  cbn [Server.blocks_loop blocks_trace].
  pose proof (server_process_block_memoized dir pi st b) as Hb.
  specialize (IH (Server.process_block dir pi st b).1.1).
  destruct (Server.process_block dir pi st b) as [[st1 its1] evs1].
  cbn [fst snd] in *.
  destruct (Server.blocks_loop dir pi st1 blocks) as [[st2 its2] evs2].
  cbn [fst snd] in *.
  by apply (memoized_app _ _ _ [_] _ _ _ Hb IH).
Qed.

Lemma merge_page_no_pixmap eng pi its x :
  pixmap_names x (merge_page eng pi its).2 = [].
Proof.
  rewrite merge_page_events. destruct (native_text_found its); [done|].
  rewrite ocr_fallback_eq. by destruct (pass1 eng pi).
Qed.

Lemma server_pages_loop_memoized dir eng (pages : list page) : ∀ pi st,
  memoized (Server.xref_to_filename st)
           (Server.xref_to_filename (Server.pages_loop dir eng pi st pages).1.1)
           (pages_trace (Server.process_block dir) pi st pages)
           (Server.pages_loop dir eng pi st pages).2.
Proof.
  induction pages as [|pg pages IH]; intros pi st; [apply memoized_nil|].
  cbn [Server.pages_loop pages_trace].
  rewrite server_process_page_eq.
  pose proof (server_blocks_loop_memoized dir pi pg st) as Hpg.
  rewrite <- server_blocks_end.
  specialize (IH (S pi) (Server.blocks_loop dir pi st pg).1.1).
  destruct (Server.pages_loop dir eng (S pi) _ pages) as [[st2 ls] evs2].
  cbn [fst snd] in *.
  eapply memoized_app; [|exact IH].
  apply memoized_events; [|done]. intros x. apply merge_page_no_pixmap.
Qed.

(** Over a whole run: all blocks that show the identity [x] reference one
    and the same file name, and exactly one file, of that name, is written
    from [x]. *)
Lemma server_run_memoized dir eng (doc : document) (x : Z) pi1 b1 its1 pi2 b2 its2 :
  (pi1, b1, its1) ∈ server_trace dir doc →
  (pi2, b2, its2) ∈ server_trace dir doc →
  shows x b1 → shows x b2 →
  ∃ f, its1 = [image_item (bbox_of b1) f]
       ∧ its2 = [image_item (bbox_of b2) f]
       ∧ pixmap_names x (Server.run dir eng doc).2 = [f].
Proof.
  intros Hin1 Hin2 Hx1 Hx2.
  destruct (server_pages_loop_memoized dir eng doc 0 Server.init) as [_ H].
  specialize (H x). fold (Server.run dir eng doc) in H.
  fold (server_trace dir doc) in H.
  destruct (Server.xref_to_filename (Server.run dir eng doc).1.1 !! x) as [f|].
  - destruct H as [Htr Hev]. exists f. split; [by eapply Htr|].
    split; [by eapply Htr|]. done.
  - destruct H as [Htr _]. by destruct (Htr _ _ _ Hin1).
Qed.

Lemma blocks_trace_sim dir pi (blocks : list block) : ∀ st : Server.state,
  blocks_trace (Mineru.process_block dir) pi (forget st) blocks
  = blocks_trace (Server.process_block dir) pi st blocks
  ∧ blocks_end (Mineru.process_block dir) pi (forget st) blocks
    = forget (blocks_end (Server.process_block dir) pi st blocks).
Proof.
  induction blocks as [|b blocks IH]; intros st; [done|].
  cbn [blocks_trace blocks_end]. rewrite process_block_sim. cbn [fst snd].
  destruct (IH (Server.process_block dir pi st b).1.1) as [-> ->]. done.
Qed.

Lemma pages_trace_sim dir (pages : list page) : ∀ pi (st : Server.state),
  pages_trace (Mineru.process_block dir) pi (forget st) pages
  = pages_trace (Server.process_block dir) pi st pages.
Proof.
  induction pages as [|pg pages IH]; intros pi st; [done|].
  cbn [pages_trace].
  destruct (blocks_trace_sim dir pi pg st) as [-> ->]. by rewrite IH.
Qed.

Lemma mineru_trace_sim ts (doc : document) :
  mineru_trace ts doc = server_trace (Mineru.images_dir ts) doc.
Proof. apply (pages_trace_sim _ doc 0%nat Server.init). Qed.

(** Every item of a placement is written to the text. *)
Lemma merge_page_keeps eng pi its (it : content_item) :
  it ∈ its → it ∈ (merge_page eng pi its).1.
Proof.
  intros Hit. rewrite merge_page_items, py_sort_elem_of. unfold merge_input.
  destruct (native_text_found its); [done|]. apply elem_of_app. by left.
Qed.

Lemma server_trace_written dir eng (pages : list page) : ∀ pi st pi' b its it,
  (pi', b, its) ∈ pages_trace (Server.process_block dir) pi st pages →
  it ∈ its →
  render_item it ∈ (Server.pages_loop dir eng pi st pages).1.2.
Proof.
  induction pages as [|pg pages IH]; intros pi st pi' b its it Hin Hit.
  - by apply elem_of_nil in Hin.
  - cbn [pages_trace Server.pages_loop] in *.
    rewrite server_process_page_eq.
    rewrite <- server_blocks_end in Hin.
    specialize (IH (S pi) (Server.blocks_loop dir pi st pg).1.1 pi' b its it).
    destruct (Server.pages_loop dir eng (S pi) _ pages) as [[st2 ls] evs2].
    cbn [fst snd] in *.
    apply elem_of_app in Hin as [Hin|Hin].
    + apply elem_of_app. left. unfold Server.page_lines.
      right. apply elem_of_app. left.
      apply list_elem_of_In, in_map, list_elem_of_In.
      apply merge_page_keeps. rewrite server_blocks_items.
      apply list_elem_of_In, in_concat. exists its. split.
      * apply list_elem_of_In in Hin. by apply (in_map snd) in Hin.
      * by apply list_elem_of_In.
    + apply elem_of_app. right. by apply IH.
Qed.

Section trace_facts.
Context {S : Type}
  (step : nat → S → block → S * list content_item * list event).

Lemma blocks_trace_complete pi (blocks : list block) (b : block) : ∀ st,
  b ∈ blocks → ∃ its, (pi, b, its) ∈ blocks_trace step pi st blocks.
Proof.
  induction blocks as [|b0 blocks IH]; intros st Hb.
  - by apply elem_of_nil in Hb.
  - cbn [blocks_trace]. apply elem_of_cons in Hb as [->|Hb].
    + eexists. left.
    + destruct (IH (step pi st b0).1.1 Hb) as [its Hits].
      exists its. by right.
Qed.

Lemma pages_trace_complete (pages : list page) : ∀ pi st i (pg : page) (b : block),
  pages !! i = Some pg → b ∈ pg →
  ∃ its, ((pi + i)%nat, b, its) ∈ pages_trace step pi st pages.
Proof.
  induction pages as [|pg0 pages IH]; intros pi st i pg b Hpg Hb; [done|].
  cbn [pages_trace]. destruct i as [|i]; simpl in Hpg.
  - injection Hpg as ->. rewrite Nat.add_0_r.
    destruct (blocks_trace_complete pi pg b st Hb) as [its Hits].
    exists its. apply elem_of_app. by left.
  - destruct (IH (Datatypes.S pi) (blocks_end step pi st pg0) i pg b Hpg Hb)
      as [its Hits].
    exists its. apply elem_of_app. right.
    by replace (pi + Datatypes.S i)%nat with (Datatypes.S pi + i)%nat by lia.
Qed.
End trace_facts.

Lemma server_run_blocks dir eng (doc : document) (x : Z)
    i1 (pg1 : page) (b1 : block) i2 (pg2 : page) (b2 : block) :
  doc !! i1 = Some pg1 → b1 ∈ pg1 → shows x b1 →
  doc !! i2 = Some pg2 → b2 ∈ pg2 → shows x b2 →
  ∃ f, (i1, b1, [image_item (bbox_of b1) f]) ∈ server_trace dir doc
       ∧ (i2, b2, [image_item (bbox_of b2) f]) ∈ server_trace dir doc
       ∧ (∀ i b its, (i, b, its) ∈ server_trace dir doc → shows x b →
                     its = [image_item (bbox_of b) f])
       ∧ pixmap_names x (Server.run dir eng doc).2 = [f]
       ∧ "[" +:+ f +:+ "]" ∈ (Server.run dir eng doc).1.2.
Proof.
  intros Hpg1 Hb1 Hx1 Hpg2 Hb2 Hx2.
  destruct (pages_trace_complete (Server.process_block dir) doc 0 Server.init
              i1 pg1 b1 Hpg1 Hb1) as [its1 Hin1].
  destruct (pages_trace_complete (Server.process_block dir) doc 0 Server.init
              i2 pg2 b2 Hpg2 Hb2) as [its2 Hin2].
  simpl in Hin1, Hin2. fold (server_trace dir doc) in Hin1, Hin2.
  destruct (server_run_memoized dir eng doc x _ _ _ _ _ _ Hin1 Hin2 Hx1 Hx2)
    as (f & -> & -> & Hev).
  exists f. split; [done|]. split; [done|]. split; [|split; [done|]].
  - intros i b its Hin Hx.
    destruct (server_run_memoized dir eng doc x _ _ _ _ _ _ Hin Hin1 Hx Hx1)
      as (f' & -> & Hf' & _).
    by injection Hf' as <-.
  - apply (server_trace_written dir eng doc 0 Server.init _ _ _
             (image_item (bbox_of b1) f) Hin1).
    left.
Qed.

(** C1: in every document, any two image blocks with the same resource
    identity (an xref other than None and 0), on whatever pages, are given
    the same file name; exactly one file is written from that identity, under
    that name, and the name appears in the text; a block whose identity is
    already in the map leaves the counter, the map and the image list as
    they are and does nothing outside. Both entry points. *)
Theorem image_memoization dir ts eng (doc : document) (x : Z)
    i1 (pg1 : page) (b1 : block) i2 (pg2 : page) (b2 : block) :
  doc !! i1 = Some pg1 → b1 ∈ pg1 → shows x b1 →
  doc !! i2 = Some pg2 → b2 ∈ pg2 → shows x b2 →
  (∃ f, (i1, b1, [image_item (bbox_of b1) f]) ∈ server_trace dir doc
        ∧ (i2, b2, [image_item (bbox_of b2) f]) ∈ server_trace dir doc
        ∧ (∀ i b its, (i, b, its) ∈ server_trace dir doc → shows x b →
                      its = [image_item (bbox_of b) f])
        ∧ pixmap_names x (Server.run dir eng doc).2 = [f]
        ∧ "[" +:+ f +:+ "]" ∈ (Server.run dir eng doc).1.2)
  ∧ (∃ f, (i1, b1, [image_item (bbox_of b1) f]) ∈ mineru_trace ts doc
          ∧ (i2, b2, [image_item (bbox_of b2) f]) ∈ mineru_trace ts doc
          ∧ (∀ i b its, (i, b, its) ∈ mineru_trace ts doc → shows x b →
                        its = [image_item (bbox_of b) f])
          ∧ pixmap_names x (Mineru.main ts eng doc).2 = [f])
  ∧ (∀ pi st b f, shows x b → Server.xref_to_filename st !! x = Some f →
       Server.process_block dir pi st b = (st, [image_item (bbox_of b) f], []))
  ∧ (∀ pi st b f, shows x b → Mineru.xref_to_filename st !! x = Some f →
       Mineru.process_block dir pi st b = (st, [image_item (bbox_of b) f], [])).
Proof.
  intros Hpg1 Hb1 Hx1 Hpg2 Hb2 Hx2.
  split; [by eapply server_run_blocks|]. split; [|split].
  - rewrite mineru_trace_sim, mineru_main_sim. cbn [fst snd].
    destruct (server_run_blocks (Mineru.images_dir ts) eng doc x
                i1 pg1 b1 i2 pg2 b2) as (f & H1 & H2 & H3 & H4 & _); try done.
    by exists f.
  - intros pi st b f. apply server_hit.
  - intros pi st b f. apply mineru_hit.
Qed.

Lemma image_memoization_witness :
  shows 7 embedded_block
  ∧ (0%nat, embedded_block, [image_item (0, 0, 50, 50) "IMAGE_0001.png"])
      ∈ server_trace "images" [image_only_page; image_only_page]
  ∧ (1%nat, embedded_block, [image_item (0, 0, 50, 50) "IMAGE_0001.png"])
      ∈ server_trace "images" [image_only_page; image_only_page]
  ∧ pixmap_names 7
      (Server.run "images" no_ocr [image_only_page; image_only_page]).2
    = ["IMAGE_0001.png"].
Proof.
  assert (Hx : shows 7 embedded_block) by (split; reflexivity).
  assert (Hb : embedded_block ∈ image_only_page) by left.
  destruct (image_memoization "images" "20251014-103012" no_ocr
              [image_only_page; image_only_page] 7
              0 image_only_page embedded_block
              1 image_only_page embedded_block
              eq_refl Hb Hx eq_refl Hb Hx)
    as [(f & H1 & H2 & _ & H4 & _) _].
  assert (f = "IMAGE_0001.png") as ->.
  { vm_compute in H4. by injection H4. }
  done.
Defined.

(** * More of the extraction pipeline *)

(** ** OCR lines come out in reading order *)

Lemma sorted_lookup {A} (R : A → A → Prop) (l : list A) :
  StronglySorted R l →
  ∀ a b x y, (a < b)%nat → l !! a = Some x → l !! b = Some y → R x y.
Proof.
  induction 1 as [|z l Hl IH Hz]; intros a b x y Hab Ha Hb.
  - by rewrite lookup_nil in Ha.
  - destruct b as [|b]; [lia|]. simpl in Hb.
    destruct a as [|a]; simpl in Ha.
    + injection Ha as ->. rewrite Forall_forall in Hz.
      apply Hz. by eapply list_elem_of_lookup_2.
    + apply (IH a b); [lia|done..].
Qed.

(** X1: the lines of [ocr_extract_lines_with_positions] are in ascending
    order of (top, left); lines with the same top and left are in the order in
    which the loop completed them; and there is one line per run of
    surviving tokens, so never more lines than surviving tokens. *)
Theorem ocr_lines_sorted (data : list token) (min_conf : Z) :
  StronglySorted (key_le lt2 ocr_key)
    (ocr_extract_lines_with_positions data min_conf)
  ∧ (∀ a b l1 l2, (a < b)%nat →
       ocr_extract_lines_with_positions data min_conf !! a = Some l1 →
       ocr_extract_lines_with_positions data min_conf !! b = Some l2 →
       l1.1.1 < l2.1.1 ∨ (l1.1.1 = l2.1.1 ∧ l1.1.2 ≤ l2.1.2))
  ∧ (∀ k, filter (λ l, ocr_key l = k)
            (ocr_extract_lines_with_positions data min_conf)
          = filter (λ l, ocr_key l = k)
              (map line_of_group (runs (survivors min_conf data))))
  ∧ length (ocr_extract_lines_with_positions data min_conf)
    = length (runs (survivors min_conf data))
  ∧ (length (ocr_extract_lines_with_positions data min_conf)
     ≤ length (survivors min_conf data))%nat.
Proof.
  rewrite ocr_extract_runs.
  assert (Hs : StronglySorted (key_le lt2 ocr_key)
                 (py_sort lt2 ocr_key
                    (map line_of_group (runs (survivors min_conf data))))).
  { apply py_sort_sorted; [apply lt2_asym | apply lt2_le_trans]. }
  split; [done|]. split; [|split; [|split]].
  - intros a b l1 l2 Hab Ha Hb.
    pose proof (sorted_lookup _ _ Hs a b l1 l2 Hab Ha Hb) as Hle.
    unfold key_le, lt2, ocr_key in Hle. simpl in Hle. lia.
  - intros k. apply py_sort_stable, lt2_irrefl.
  - by rewrite py_sort_perm, length_map.
  - rewrite py_sort_perm, length_map.
    destruct (runs_spec (survivors min_conf data)) as (Hcat & Hruns & _).
    rewrite <- Hcat at 2. clear Hcat. revert Hruns.
    generalize (runs (survivors min_conf data)). intros rs.
    induction 1 as [|g rs [Hg _] _ IH]; [done|].
    simpl. rewrite length_app. destruct g; [done|]. simpl. lia.
Qed.

(** ** Different sources never share a file *)

(** What one block does to the counter, the map and [content_items]. *)
Lemma server_block_cases dir pi st (b : block) :
  (placed_name (pi, b, (Server.process_block dir pi st b).1.2) = None
   ∧ (Server.process_block dir pi st b).1.1 = st)
  ∨ (∃ x f, shows x b ∧ Server.xref_to_filename st !! x = Some f
            ∧ (Server.process_block dir pi st b).1.1 = st
            ∧ (Server.process_block dir pi st b).1.2 = [image_item (bbox_of b) f])
  ∨ (∃ x, shows x b ∧ Server.xref_to_filename st !! x = None
          ∧ Server.image_counter (Server.process_block dir pi st b).1.1
            = S (Server.image_counter st)
          ∧ Server.xref_to_filename (Server.process_block dir pi st b).1.1
            = <[x := image_name (S (Server.image_counter st))]>
                (Server.xref_to_filename st)
          ∧ (Server.process_block dir pi st b).1.2
            = [image_item (bbox_of b) (image_name (S (Server.image_counter st)))])
  ∨ ((∀ x, ¬ shows x b)
     ∧ Server.image_counter (Server.process_block dir pi st b).1.1
       = S (Server.image_counter st)
     ∧ Server.xref_to_filename (Server.process_block dir pi st b).1.1
       = Server.xref_to_filename st
     ∧ (Server.process_block dir pi st b).1.2
       = [image_item (bbox_of b) (image_name (S (Server.image_counter st)))]).
Proof.
  destruct (decide (block_type b = Some 1)) as [Ht|Ht].
  - unfold Server.process_block. rewrite Ht.
    destruct (xref_truthy (block_xref b)) as [x|] eqn:Hx.
    + destruct (Server.xref_to_filename st !! x) as [f|] eqn:Hf.
      * right; left. by exists x, f.
      * right; right; left. by exists x.
    + right; right; right. split; [|done]. intros x [_ Hx']. congruence.
  - assert (Hb : ∀ x, ¬ shows x b) by (by intros x [? _]).
    unfold Server.process_block.
    block_cases b; try done.
    all: try (by right; right; right).
    left. split; [|done]. unfold placed_name. simpl.
    destruct (omap (line_item (bbox_of b)) (block_lines b)) as [|it [|??]] eqn:E;
      [done| |done].
    assert (Hit : it ∈ omap (line_item (bbox_of b)) (block_lines b))
      by (rewrite E; left).
    apply list_elem_of_omap in Hit as (l & _ & Hl).
    unfold line_item in Hl. destruct (nonempty _); [|done].
    by injection Hl as <-.
Qed.

Lemma placed_name_image pi (b : block) bb f :
  placed_name (pi, b, [image_item bb f]) = Some f.
Proof. reflexivity. Qed.

Lemma lookup_snoc_cases {A} (l : list A) (x : A) j (y : A) :
  (l ++ [x]) !! j = Some y →
  (j < length l)%nat ∧ l !! j = Some y ∨ j = length l ∧ y = x.
Proof.
  intros Hj. destruct (decide (j < length l)%nat) as [Hlt|Hge].
  - left. split; [done|]. by rewrite lookup_app_l in Hj.
  - right. rewrite lookup_app_r in Hj by lia.
    destruct (j - length l)%nat as [|d] eqn:Hd; [|by destruct d].
    simpl in Hj. injection Hj as <-. split; [lia|done].
Qed.

Lemma names_owned_step dir pi st (b : block) (tr : list placement) :
  names_owned (Server.image_counter st) (Server.xref_to_filename st) tr →
  names_owned (Server.image_counter (Server.process_block dir pi st b).1.1)
              (Server.xref_to_filename (Server.process_block dir pi st b).1.1)
              (tr ++ [(pi, b, (Server.process_block dir pi st b).1.2)]).
Proof.
  intros (Hm & Hinj & Htr & Hown & Hpair).
  set (c := Server.image_counter st) in *.
  set (m := Server.xref_to_filename st) in *.
  assert (Hfresh : ∀ p, p ∈ tr → placed_name p ≠ Some (image_name (S c))).
  { intros p Hp Hf. destruct (Htr p _ Hp Hf) as (n & Hn & Hfn).
    apply image_name_inj in Hfn. lia. }
  assert (Hfreshm : ∀ x, m !! x ≠ Some (image_name (S c))).
  { intros x Hf. destruct (Hm x _ Hf) as (n & Hn & Hfn).
    apply image_name_inj in Hfn. lia. }
  assert (Hlast : ∀ (its : list content_item) j q,
            (tr ++ [(pi, b, its)]) !! j = Some q →
            (j < length tr)%nat ∧ tr !! j = Some q
            ∨ j = length tr ∧ q = (pi, b, its)).
  { intros its j q. apply lookup_snoc_cases. }
  assert (Hpair' : ∀ its, (∀ p f, p ∈ tr → placed_name p = Some f →
                     placed_name (pi, b, its) = Some f →
                     ∃ x, shows x p.1.2 ∧ shows x b) →
            ∀ i j p q f, (i < j)%nat →
              (tr ++ [(pi, b, its)]) !! i = Some p →
              (tr ++ [(pi, b, its)]) !! j = Some q →
              placed_name p = Some f → placed_name q = Some f →
              ∃ x, shows x p.1.2 ∧ shows x q.1.2).
  { intros its Hnew i j p q f Hij Hi Hj Hp Hq.
    destruct (Hlast its j q Hj) as [[Hjl Hj']|[-> ->]].
    - destruct (Hlast its i p Hi) as [[_ Hi']|[-> _]]; [|lia].
      by apply (Hpair i j p q f).
    - destruct (Hlast its i p Hi) as [[_ Hi']|[? _]]; [|lia].
      apply (Hnew p f); [by eapply list_elem_of_lookup_2|done..]. }
  destruct (server_block_cases dir pi st b)
    as [[Hnone ->]|[(x & f & Hx & Hf & -> & ->)
       |[(x & Hx & Hf & -> & -> & ->)|(Hx & -> & -> & ->)]]].
  - (* a text block *)
    fold c m. split; [done|]. split; [done|]. split; [|split].
    + intros p f Hp Hpf. apply elem_of_app in Hp as [Hp|Hp]; [by eapply Htr|].
      apply list_elem_of_singleton in Hp as ->. congruence.
    + intros p f x Hp Hpf Hmx.
      apply elem_of_app in Hp as [Hp|Hp]; [by eapply Hown|].
      apply list_elem_of_singleton in Hp as ->. congruence.
    + apply Hpair'. intros p f _ _ Hf. congruence.
  - (* a lookup hit *)
    fold c m. split; [done|]. split; [done|]. split; [|split].
    + intros p g Hp Hpg. apply elem_of_app in Hp as [Hp|Hp]; [by eapply Htr|].
      apply list_elem_of_singleton in Hp as ->.
      rewrite placed_name_image in Hpg. injection Hpg as <-. by eapply Hm.
    + intros p g y Hp Hpg Hmy.
      apply elem_of_app in Hp as [Hp|Hp]; [by eapply Hown|].
      apply list_elem_of_singleton in Hp as ->.
      rewrite placed_name_image in Hpg. injection Hpg as <-.
      by rewrite (Hinj y x f Hmy Hf).
    + apply Hpair'. intros p g Hp Hpg Hg.
      rewrite placed_name_image in Hg. injection Hg as <-.
      exists x. split; [|done]. by eapply Hown.
  - (* a new embedded image *)
    split; [|split; [|split; [|split]]].
    + intros y g. rewrite lookup_insert. case_decide as Hy.
      * intros [= <-]. exists (S c). split; [lia|done].
      * intros Hg. destruct (Hm y g Hg) as (n & Hn & ->). exists n. split; [lia|done].
    + intros y z g. rewrite !lookup_insert.
      repeat case_decide; subst; try done.
      * intros [= <-] Hz. by destruct (Hfreshm z).
      * intros Hy [= <-]. by destruct (Hfreshm y).
      * apply Hinj.
    + intros p g Hp Hpg. apply elem_of_app in Hp as [Hp|Hp].
      * destruct (Htr p g Hp Hpg) as (n & Hn & ->). exists n. split; [lia|done].
      * apply list_elem_of_singleton in Hp as ->.
        rewrite placed_name_image in Hpg. injection Hpg as <-.
        exists (S c). split; [lia|done].
    + intros p g y Hp Hpg. rewrite lookup_insert. case_decide as Hy.
      * subst y. intros [= <-].
        apply elem_of_app in Hp as [Hp|Hp]; [by destruct (Hfresh p Hp)|].
        by apply list_elem_of_singleton in Hp as ->.
      * intros Hmy. apply elem_of_app in Hp as [Hp|Hp]; [by eapply Hown|].
        apply list_elem_of_singleton in Hp as ->.
        rewrite placed_name_image in Hpg. injection Hpg as <-.
        by destruct (Hfreshm y).
    + apply Hpair'. intros p g Hp Hpg Hg.
      rewrite placed_name_image in Hg. injection Hg as <-.
      by destruct (Hfresh p Hp).
  - (* a cropped region *)
    fold m. split; [|split; [done|split; [|split]]].
    + intros y g Hg. destruct (Hm y g Hg) as (n & Hn & ->). exists n. split; [lia|done].
    + intros p g Hp Hpg. apply elem_of_app in Hp as [Hp|Hp].
      * destruct (Htr p g Hp Hpg) as (n & Hn & ->). exists n. split; [lia|done].
      * apply list_elem_of_singleton in Hp as ->.
        rewrite placed_name_image in Hpg. injection Hpg as <-.
        exists (S c). split; [lia|done].
    + intros p g y Hp Hpg Hmy.
      apply elem_of_app in Hp as [Hp|Hp]; [by eapply Hown|].
      apply list_elem_of_singleton in Hp as ->.
      rewrite placed_name_image in Hpg. injection Hpg as <-.
      by destruct (Hfreshm y).
    + apply Hpair'. intros p g Hp Hpg Hg.
      rewrite placed_name_image in Hg. injection Hg as <-.
      by destruct (Hfresh p Hp).
Qed.

Lemma names_owned_blocks dir pi (blocks : list block) : ∀ st (tr : list placement),
  names_owned (Server.image_counter st) (Server.xref_to_filename st) tr →
  names_owned
    (Server.image_counter (blocks_end (Server.process_block dir) pi st blocks))
    (Server.xref_to_filename (blocks_end (Server.process_block dir) pi st blocks))
    (tr ++ blocks_trace (Server.process_block dir) pi st blocks).
Proof.
  induction blocks as [|b blocks IH]; intros st tr Hinv.
  - simpl. by rewrite app_nil_r.
  - cbn [blocks_end blocks_trace].
    rewrite (cons_middle _ tr), app_assoc.
    apply IH. by apply names_owned_step.
Qed.

Lemma names_owned_pages dir (pages : list page) : ∀ pi st (tr : list placement),
  names_owned (Server.image_counter st) (Server.xref_to_filename st) tr →
  ∃ c m, names_owned c m
           (tr ++ pages_trace (Server.process_block dir) pi st pages).
Proof.
  induction pages as [|pg pages IH]; intros pi st tr Hinv.
  - simpl. rewrite app_nil_r. eauto.
  - cbn [pages_trace]. rewrite app_assoc.
    apply IH. by apply names_owned_blocks.
Qed.

Lemma names_owned_init : names_owned 0 ∅ [].
Proof.
  split; [|split; [|split; [|split]]].
  - intros x f Hf. by rewrite lookup_empty in Hf.
  - intros x y f Hf. by rewrite lookup_empty in Hf.
  - intros p f Hp. by apply elem_of_nil in Hp.
  - intros p f x Hp. by apply elem_of_nil in Hp.
  - intros i j p q f _ Hi. by rewrite lookup_nil in Hi.
Qed.

(** X2: two blocks of a document are given the same image file name only if
    both are image blocks showing one and the same resource identity: a
    cropped block (no identity, or not an image block) never shares its
    file with any other block, and different identities get different
    files. Both entry points. *)
Theorem distinct_sources_distinct_files dir ts (doc : document)
    i j (p q : placement) (f : string) :
  (i < j)%nat →
  placed_name p = Some f → placed_name q = Some f →
  (server_trace dir doc !! i = Some p → server_trace dir doc !! j = Some q →
   ∃ x, shows x p.1.2 ∧ shows x q.1.2)
  ∧ (mineru_trace ts doc !! i = Some p → mineru_trace ts doc !! j = Some q →
     ∃ x, shows x p.1.2 ∧ shows x q.1.2).
Proof.
  intros Hij Hp Hq.
  assert (H : ∀ d, server_trace d doc !! i = Some p →
                   server_trace d doc !! j = Some q →
                   ∃ x, shows x p.1.2 ∧ shows x q.1.2).
  { intros d Hi Hj.
    destruct (names_owned_pages d doc 0 Server.init [] names_owned_init)
      as (c & m & _ & _ & _ & _ & Hpair).
    by apply (Hpair i j p q f). }
  split; [apply H|]. rewrite mineru_trace_sim. apply H.
Qed.

Lemma distinct_sources_distinct_files_witness :
  server_trace "images" [image_only_page; image_only_page] !! 0%nat
  = Some (0%nat, embedded_block, [image_item (0, 0, 50, 50) "IMAGE_0001.png"])
  ∧ server_trace "images" [image_only_page; image_only_page] !! 1%nat
    = Some (1%nat, embedded_block, [image_item (0, 0, 50, 50) "IMAGE_0001.png"])
  ∧ ∃ x, shows x embedded_block ∧ shows x embedded_block.
Proof.
  split; [reflexivity|]. split; [reflexivity|].
  exact (proj1 (distinct_sources_distinct_files "images" "20251014-103012"
                  [image_only_page; image_only_page] 0 1
                  (0%nat, embedded_block, [image_item (0, 0, 50, 50) "IMAGE_0001.png"])
                  (1%nat, embedded_block, [image_item (0, 0, 50, 50) "IMAGE_0001.png"])
                  "IMAGE_0001.png" (le_n 1) eq_refl eq_refl)
               eq_refl eq_refl).
Defined.

(** ** Every image written is placed in the text *)

Lemma server_block_saved_placed dir pi st (b : block) (f : string) :
  f ∈ saved_names (Server.process_block dir pi st b).2 →
  image_item (bbox_of b) f ∈ (Server.process_block dir pi st b).1.2.
Proof.
  unfold Server.process_block, saved_names.
  block_cases b; xref_cases; simpl; intros Hf.
  all: try by apply elem_of_nil in Hf.
  all: apply list_elem_of_singleton in Hf as ->; left.
Qed.

Lemma server_blocks_saved_placed dir pi (blocks : list block) (f : string) : ∀ st,
  f ∈ saved_names (Server.blocks_loop dir pi st blocks).2 →
  ∃ it, it ∈ (Server.blocks_loop dir pi st blocks).1.2
        ∧ render_item it = "[" +:+ f +:+ "]".
Proof.
  induction blocks as [|b blocks IH]; intros st Hf.
  - by apply elem_of_nil in Hf.
  - cbn [Server.blocks_loop] in *.
    pose proof (server_block_saved_placed dir pi st b f) as Hb.
    specialize (IH (Server.process_block dir pi st b).1.1).
    destruct (Server.process_block dir pi st b) as [[st1 its1] evs1].
    cbn [fst snd] in *.
    destruct (Server.blocks_loop dir pi st1 blocks) as [[st2 its2] evs2].
    cbn [fst snd] in *.
    unfold saved_names in Hf. rewrite omap_app in Hf.
    apply elem_of_app in Hf as [Hf|Hf].
    + exists (image_item (bbox_of b) f). split; [|done].
      apply elem_of_app. left. by apply Hb.
    + destruct (IH Hf) as (it & Hit & Hr). exists it. split; [|done].
      apply elem_of_app. by right.
Qed.

Lemma server_pages_saved_placed dir eng (pages : list page) (f : string) : ∀ pi st,
  f ∈ saved_names (Server.pages_loop dir eng pi st pages).2 →
  "[" +:+ f +:+ "]" ∈ (Server.pages_loop dir eng pi st pages).1.2.
Proof.
  induction pages as [|pg pages IH]; intros pi st Hf.
  - by apply elem_of_nil in Hf.
  - cbn [Server.pages_loop] in *. rewrite server_process_page_eq in *.
    specialize (IH (S pi) (Server.blocks_loop dir pi st pg).1.1).
    destruct (Server.pages_loop dir eng (S pi) _ pages) as [[st2 ls] evs2].
    cbn [fst snd] in *.
    unfold saved_names in Hf. rewrite !omap_app in Hf.
    fold (saved_names (merge_page eng pi (Server.blocks_loop dir pi st pg).1.2).2) in Hf.
    rewrite merge_page_saves_nothing, app_nil_r in Hf.
    apply elem_of_app in Hf as [Hf|Hf].
    + apply server_blocks_saved_placed in Hf as (it & Hit & <-).
      apply elem_of_app. left. unfold Server.page_lines.
      right. apply elem_of_app. left.
      apply list_elem_of_In, in_map, list_elem_of_In.
      by apply merge_page_keeps.
    + apply elem_of_app. right. by apply IH.
Qed.

(** X3: the image names that [extract_pdf_images_and_text] returns in
    [image_list] are pairwise different, there are as many as the final
    value of the image counter, each of them is the name of a file written,
    and each occurs in the text as a line [[name]]. *)
Theorem image_list_placed dir eng (doc : document) :
  NoDup (Server.image_list (Server.run dir eng doc).1.1)
  ∧ length (Server.image_list (Server.run dir eng doc).1.1)
    = Server.image_counter (Server.run dir eng doc).1.1
  ∧ (Server.extract_pdf_images_and_text dir eng doc).2
    = saved_names (Server.run dir eng doc).2
  ∧ (∀ f, f ∈ (Server.extract_pdf_images_and_text dir eng doc).2 →
          "[" +:+ f +:+ "]" ∈ (Server.run dir eng doc).1.2)
  ∧ (Server.extract_pdf_images_and_text dir eng doc).1
    = join nl (Server.run dir eng doc).1.2.
Proof.
  rewrite server_extract_eq. cbn [fst snd].
  destruct (server_run_allocates dir eng doc) as [Hn Hl].
  rewrite Hl. split; [rewrite Hn; apply image_names_NoDup|].
  split; [by rewrite Hn, length_map, length_seq|].
  split; [done|]. split; [|done].
  intros f. apply server_pages_saved_placed.
Qed.

(** ** Nothing is lost or doubled by the merge *)

Lemma server_block_images dir pi st (b : block) :
  length (filter (λ it, ci_kind it = Image) (Server.process_block dir pi st b).1.2)
  = if decide (block_type b ≠ Some 0) then 1%nat else 0%nat.
Proof.
  unfold Server.process_block.
  block_cases b; xref_cases; try done.
  rewrite decide_False by (intros H; by apply H). cbn [fst snd].
  rewrite filter_none; [done|].
  apply Forall_forall. intros it Hit.
  apply list_elem_of_omap in Hit as (l & _ & Hl).
  unfold line_item in Hl. destruct (nonempty _); [|done].
  by injection Hl as <-.
Qed.

Lemma server_blocks_images dir pi (blocks : list block) : ∀ st,
  length (filter (λ it, ci_kind it = Image) (Server.blocks_loop dir pi st blocks).1.2)
  = length (picture_blocks blocks).
Proof.
  induction blocks as [|b blocks IH]; intros st; [done|].
  cbn [Server.blocks_loop].
  pose proof (server_block_images dir pi st b) as Hb.
  specialize (IH (Server.process_block dir pi st b).1.1).
  destruct (Server.process_block dir pi st b) as [[st1 its1] evs1].
  cbn [fst snd] in *.
  destruct (Server.blocks_loop dir pi st1 blocks) as [[st2 its2] evs2].
  cbn [fst snd] in *.
  rewrite filter_app, length_app, Hb, IH.
  unfold picture_blocks. rewrite (filter_cons _ b blocks).
  by destruct (decide (block_type b ≠ Some 0)).
Qed.

Lemma merge_input_eq dir eng pi st (pg : page) :
  merge_input eng pi (Server.blocks_loop dir pi st pg).1.2
  = (Server.blocks_loop dir pi st pg).1.2 ++ ocr_items eng pi pg.
Proof.
  unfold merge_input, ocr_items.
  destruct (native_text_found _) eqn:Hn.
  - destruct (text_blocks pg) eqn:Ht; [|by rewrite app_nil_r].
    apply (server_native_text_found dir pi st) in Ht. congruence.
  - apply server_native_text_found in Hn. rewrite Hn, ocr_fallback_eq.
    by destruct (pass1 eng pi).
Qed.

Lemma filter_image_ocr_items eng pi (pg : page) :
  filter (λ it, ci_kind it = Image) (ocr_items eng pi pg) = [].
Proof.
  apply filter_none, Forall_forall. intros it Hit. unfold ocr_items in Hit.
  destruct (text_blocks pg); [|by apply elem_of_nil in Hit].
  by apply list_elem_of_In, in_map_iff in Hit as (l & <- & _).
Qed.

(** X4: the merged output of a page is a rearrangement of the items of its
    blocks together with its OCR items: no item is dropped or doubled by
    the OCR step and the sort. It holds exactly one image item for every
    block that is not a text block, and its text items are the page's
    Text-kind blocks when there are any, the OCR lines otherwise. Both
    entry points. *)
Theorem page_output_complete dir eng pi sst mst (pg : page) :
  (Server.process_page dir eng pi sst pg).1.2
  ≡ₚ (Server.blocks_loop dir pi sst pg).1.2 ++ ocr_items eng pi pg
  ∧ (Mineru.process_page dir eng pi mst pg).1.2
    ≡ₚ (Mineru.blocks_loop dir pi mst pg).1.2 ++ ocr_items eng pi pg
  ∧ length (filter (λ it, ci_kind it = Image)
              (Server.process_page dir eng pi sst pg).1.2)
    = length (picture_blocks pg)
  ∧ length (filter (λ it, ci_kind it = Image)
              (Mineru.process_page dir eng pi mst pg).1.2)
    = length (picture_blocks pg)
  ∧ filter (λ it, ci_kind it = Text) (Server.process_page dir eng pi sst pg).1.2
    ≡ₚ text_blocks pg ++ ocr_items eng pi pg
  ∧ filter (λ it, ci_kind it = Text) (Mineru.process_page dir eng pi mst pg).1.2
    ≡ₚ text_blocks pg ++ ocr_items eng pi pg.
Proof.
  assert (HS : ∀ st,
    (Server.process_page dir eng pi st pg).1.2
    ≡ₚ (Server.blocks_loop dir pi st pg).1.2 ++ ocr_items eng pi pg).
  { intros st. rewrite server_process_page_eq. cbn [fst snd].
    by rewrite merge_page_items, py_sort_perm, (merge_input_eq dir). }
  assert (HI : ∀ st,
    length (filter (λ it, ci_kind it = Image)
              (Server.process_page dir eng pi st pg).1.2)
    = length (picture_blocks pg)).
  { intros st. rewrite (HS st), filter_app, filter_image_ocr_items, app_nil_r.
    apply server_blocks_images. }
  assert (HT : ∀ st,
    filter (λ it, ci_kind it = Text) (Server.process_page dir eng pi st pg).1.2
    ≡ₚ text_blocks pg ++ ocr_items eng pi pg).
  { intros st. rewrite (HS st), filter_app, server_blocks_loop_text.
    apply Permutation_app_head. unfold ocr_items.
    destruct (text_blocks pg); [|done]. by rewrite filter_text_ocr_items. }
  destruct (forget_onto mst) as [st <-].
  rewrite process_page_sim, blocks_loop_sim. cbn [fst snd].
  repeat split; auto.
Qed.

(** ** Times and their display *)

Lemma floordiv_floor (x : Q) (d : Z) : 0 < d → floordiv x d = Qfloor x / d.
Proof.
  intros Hd. destruct x as [a b]. destruct d as [|p|p]; try lia.
  unfold floordiv, Qdiv, Qmult, Qinv, inject_Z, Qfloor. simpl.
  rewrite Z.mul_1_r, Pos2Z.inj_mul, Z.div_div by lia. reflexivity.
Qed.

Lemma Qfloor_sub_Z (x : Q) (k : Z) : Qfloor (x - inject_Z k) = Qfloor x - k.
Proof.
  destruct x as [a b]. unfold Qminus, Qplus, Qopp, inject_Z, Qfloor. simpl.
  rewrite Z.mul_1_r, Pos.mul_1_r.
  replace (a + - k * Z.pos b) with (a + (- k) * Z.pos b) by lia.
  rewrite Z.div_add by lia. lia.
Qed.

Lemma pymod_floor (x : Q) (d : Z) : 0 < d → Qfloor (pymod x d) = Qfloor x mod d.
Proof.
  intros Hd. unfold pymod. rewrite Qfloor_sub_Z, floordiv_floor by done.
  rewrite Z.mod_eq by lia. reflexivity.
Qed.

Lemma int_of_Z (z : Z) : int_of (inject_Z z) = z.
Proof.
  unfold int_of.
  destruct (Qle_bool 0 (inject_Z z)); [apply Qfloor_Z|apply Qceiling_Z].
Qed.

Lemma int_of_floor (x : Q) : 0 ≤ Qfloor x → int_of x = Qfloor x.
Proof.
  intros H. unfold int_of. destruct (Qle_bool 0 x) eqn:E; [done|].
  exfalso. assert (Hx : (0 <= x)%Q).
  { eapply Qle_trans; [|apply Qfloor_le]. change 0%Q with (inject_Z 0).
    rewrite <- Zle_Qle. exact H. }
  apply Qle_bool_iff in Hx. congruence.
Qed.

(** The three fields of [seconds_to_hms] are those of the whole seconds. *)
Lemma seconds_to_hms_fields (seconds : Q) :
  let n := Qfloor seconds in
  seconds_to_hms seconds =
  if 0 <? n / 3600
  then fmt_02d (n / 3600) +:+ ":" +:+ fmt_02d (n mod 3600 / 60) +:+ ":"
       +:+ fmt_02d (n mod 60)
  else fmt_02d (n mod 3600 / 60) +:+ ":" +:+ fmt_02d (n mod 60).
Proof.
  intros n. unfold seconds_to_hms. rewrite !int_of_Z.
  rewrite (floordiv_floor seconds) by lia.
  rewrite (floordiv_floor (pymod seconds 3600)), pymod_floor by lia.
  rewrite (int_of_floor (pymod seconds 60)); rewrite pymod_floor by lia.
  - reflexivity.
  - apply Z.mod_pos_bound. lia.
Qed.

(** ** Reading a displayed time back *)

Lemma digit_val_char (c : ascii) (v : Z) :
  digit_val c = Some v →
  0 ≤ v ≤ 9 ∧ int_space c = false ∧ Ascii.eqb c "_" = false
  ∧ Ascii.eqb c ":" = false ∧ c ≠ "+"%char ∧ c ≠ "-"%char.
Proof.
  unfold digit_val, int_space. intros H.
  destruct ((48 <=? N_of_ascii c)%N && (N_of_ascii c <=? 57)%N) eqn:E; [|done].
  apply andb_true_iff in E as [E1 E2].
  apply N.leb_le in E1. apply N.leb_le in E2.
  injection H as <-. split; [lia|].
  assert (Hne : ∀ d : ascii, N_of_ascii d ≠ N_of_ascii c → Ascii.eqb c d = false).
  { intros d Hd. apply Ascii.eqb_neq. intros ->. done. }
  repeat split.
  - repeat (apply orb_false_iff; split); try apply andb_false_iff;
      try (apply N.eqb_neq; lia).
    + right. apply N.leb_gt. lia.
  - apply Hne. simpl. lia.
  - apply Hne. simpl. lia.
  - intros ->. simpl in *. lia.
  - intros ->. simpl in *. lia.
Qed.

Lemma int_digits_digit (c : ascii) (v acc : Z) (s : string) :
  digit_val c = Some v → int_digits acc (String c s) = int_digits (10 * acc + v) s.
Proof.
  intros H. destruct (digit_val_char c v H) as (_ & _ & Hu & _).
  simpl. by rewrite Hu, H.
Qed.

Lemma pretty_N_char_digit (d : N) :
  (d < 10)%N → digit_val (pretty_N_char d) = Some (Z.of_N d).
Proof.
  intros Hd.
  do 10 (destruct d as [|d] using N.peano_ind; [done|]; try lia).
Qed.

Lemma int_digits_pretty_go (x : N) :
  ∃ k : Z, 0 ≤ k ∧ ∀ acc s,
    int_digits acc (pretty_N_go x s) = int_digits (acc * 10 ^ k + Z.of_N x) s.
Proof.
  induction (N.lt_wf_0 x) as [x _ IH].
  destruct (decide (x = 0%N)) as [->|Hx].
  { exists 0. split; [done|]. intros acc s. rewrite pretty_N_go_0.
    f_equal. simpl. lia. }
  destruct (IH (x `div` 10)%N) as (k & Hk & IHk).
  { apply N.div_lt; lia. }
  exists (k + 1). split; [lia|]. intros acc s.
  rewrite pretty_N_go_step by lia. rewrite IHk.
  rewrite (int_digits_digit _ (Z.of_N (x `mod` 10))).
  - f_equal. rewrite Z.pow_add_r, Z.pow_1_r by lia.
    rewrite (N.div_mod x 10) at 3 by lia. lia.
  - apply pretty_N_char_digit. apply N.mod_lt. lia.
Qed.

Lemma all_digits_pretty_go (x : N) : ∀ s,
  all_digits s = true → all_digits (pretty_N_go x s) = true.
Proof.
  induction (N.lt_wf_0 x) as [x _ IH]. intros s Hs.
  destruct (decide (x = 0%N)) as [->|Hx]; [by rewrite pretty_N_go_0|].
  rewrite pretty_N_go_step by lia. apply IH; [apply N.div_lt; lia|].
  simpl. rewrite pretty_N_char_digit; [done|]. apply N.mod_lt. lia.
Qed.

Lemma pretty_N_digits (x : N) :
  all_digits (pretty x) = true ∧ pretty x ≠ ""
  ∧ int_digits 0 (pretty x) = Some (Z.of_N x).
Proof.
  unfold pretty, pretty_N. destruct (decide (x = 0%N)) as [->|Hx]; [done|].
  split; [by apply all_digits_pretty_go|]. split.
  - destruct (pretty_N_go_head x "") as (c & r & -> & _); [lia|done].
  - destruct (int_digits_pretty_go x) as (k & _ & ->). done.
Qed.

Lemma all_digits_app (s t : string) :
  all_digits (s +:+ t) = all_digits s && all_digits t.
Proof.
  induction s as [|c s IH]; [done|]. rewrite sapp_cons. simpl.
  destruct (digit_val c); [exact IH|done].
Qed.

Lemma all_digits_zeros (k : nat) : all_digits (zeros k) = true.
Proof. induction k as [|k IH]; [done|]. exact IH. Qed.

Lemma int_digits_zeros (k : nat) (s : string) :
  int_digits 0 (zeros k +:+ s) = int_digits 0 s.
Proof.
  induction k as [|k IH]; [done|]. simpl zeros. rewrite sapp_cons.
  rewrite (int_digits_digit _ 0) by done. exact IH.
Qed.

(** [int] reads a string of digits as its decimal value. *)
Lemma py_int_digits (s : string) :
  all_digits s = true → s ≠ "" → py_int s = int_digits 0 s.
Proof.
  destruct s as [|c s]; [done|]. intros Hd _. simpl in Hd.
  destruct (digit_val c) as [v|] eqn:Hc; [|done].
  destruct (digit_val_char c v Hc) as (_ & Hsp & _ & _ & Hplus & Hminus).
  unfold py_int. cbn [int_lstrip]. rewrite Hsp.
  rewrite (int_digits_digit c v) by done.
  replace (10 * 0 + v) with v by lia.
  assert (Hu : int_unsigned (String c s) = int_digits v s).
  { unfold int_unsigned. by rewrite Hc. }
  rewrite <- Hu.
  destruct c as [[] [] [] [] [] [] [] []]; try done.
Qed.

Lemma fmt_02d_digits (z : Z) :
  0 ≤ z →
  all_digits (fmt_02d z) = true ∧ fmt_02d z ≠ "" ∧ py_int (fmt_02d z) = Some z.
Proof.
  intros Hz. unfold fmt_02d.
  destruct (z <? 0) eqn:E; [apply Z.ltb_lt in E; lia|].
  destruct (pretty_N_digits (Z.to_N z)) as (Hd & Hne & Hv).
  set (d := pretty (Z.to_N z)) in *.
  assert (Hall : all_digits (zeros (2 - String.length d) +:+ d) = true).
  { by rewrite all_digits_app, all_digits_zeros, Hd. }
  assert (Hne' : zeros (2 - String.length d) +:+ d ≠ "").
  { intros H. apply (f_equal String.length) in H.
    rewrite slength_app in H. destruct d; [done|]. simpl in H. lia. }
  split; [done|]. split; [done|].
  rewrite py_int_digits, int_digits_zeros, Hv by done. f_equal. lia.
Qed.

Lemma split_on_digits (a : string) :
  all_digits a = true → split_on ":" a = [a].
Proof.
  induction a as [|c a IH]; [done|]. simpl. intros H.
  destruct (digit_val c) as [v|] eqn:Hc; [|done].
  destruct (digit_val_char c v Hc) as (_ & _ & _ & Hcolon & _).
  rewrite Hcolon, IH; done.
Qed.

Lemma split_on_digits_colon (a b : string) :
  all_digits a = true →
  split_on ":" (a +:+ ":" +:+ b) = a :: split_on ":" b.
Proof.
  induction a as [|c a IH]; [done|]. cbn [all_digits]. intros H.
  destruct (digit_val c) as [v|] eqn:Hc; [|done].
  destruct (digit_val_char c v Hc) as (_ & _ & _ & Hcolon & _).
  rewrite sapp_cons. cbn [split_on]. rewrite Hcolon, IH; done.
Qed.

Lemma plain_time_floor (seconds : Q) : plain_time seconds → 0 ≤ Qfloor seconds.
Proof.
  intros [H _]. change 0 with (Qfloor (inject_Z 0)) at 1.
  rewrite Qfloor_Z. change 0 with (Qfloor 0). by apply Qfloor_resp_le.
Qed.

Lemma hms_split (n : Z) :
  0 ≤ n →
  n = 3600 * (n / 3600) + 60 * (n mod 3600 / 60) + n mod 60
  ∧ 0 ≤ n / 3600 ∧ 0 ≤ n mod 3600 / 60 < 60 ∧ 0 ≤ n mod 60 < 60.
Proof.
  intros Hn.
  assert (H1 := Z.div_mod n 3600 ltac:(lia)).
  assert (H2 := Z.mod_pos_bound n 3600 ltac:(lia)).
  assert (H3 := Z.div_mod (n mod 3600) 60 ltac:(lia)).
  assert (H4 := Z.mod_pos_bound (n mod 3600) 60 ltac:(lia)).
  assert (H5 : n mod 60 = (n mod 3600) mod 60).
  { symmetry. apply Z.mod_mod_divide. exists 60. lia. }
  assert (H6 : 0 ≤ n / 3600) by (apply Z.div_pos; lia).
  assert (H7 : 0 ≤ n mod 3600 / 60 < 60).
  { split; [apply Z.div_pos; lia|apply Z.div_lt_upper_bound; lia]. }
  rewrite H5. lia.
Qed.

Lemma fmt_02d_length (z : Z) :
  0 ≤ z < 100 → String.length (fmt_02d z) = 2%nat.
Proof.
  intros Hz. unfold fmt_02d.
  destruct (z <? 0) eqn:E; [apply Z.ltb_lt in E; lia|].
  rewrite slength_app, zeros_length.
  destruct (pretty_N_digits (Z.to_N z)) as (_ & Hne & _).
  assert (Hle : (String.length (pretty (Z.to_N z)) ≤ 2)%nat).
  { unfold pretty, pretty_N. destruct (decide (Z.to_N z = 0%N)); [simpl; lia|].
    apply (pretty_N_go_length 2 (Z.to_N z) ""). simpl. lia. }
  destruct (pretty (Z.to_N z)); [done|]. simpl in *. lia.
Qed.

(** X5: a time is displayed by its whole seconds, split into hours,
    minutes below sixty and seconds below sixty; the hours are left out
    when they are zero, and the display then has five characters. *)
Theorem seconds_to_hms_decomposes (seconds : Q) :
  plain_time seconds →
  ∃ h m s : Z,
    Qfloor seconds = 3600 * h + 60 * m + s
    ∧ 0 ≤ h ∧ 0 ≤ m < 60 ∧ 0 ≤ s < 60
    ∧ seconds_to_hms seconds =
      (if 0 <? h
       then fmt_02d h +:+ ":" +:+ fmt_02d m +:+ ":" +:+ fmt_02d s
       else fmt_02d m +:+ ":" +:+ fmt_02d s)
    ∧ (h = 0 → String.length (seconds_to_hms seconds) = 5%nat).
Proof.
  intros Hpl. apply plain_time_floor in Hpl.
  destruct (hms_split _ Hpl) as (Hn & Hh & Hm & Hs).
  exists (Qfloor seconds / 3600), (Qfloor seconds mod 3600 / 60),
    (Qfloor seconds mod 60).
  rewrite seconds_to_hms_fields. cbv zeta.
  split; [done|]. split; [done|]. split; [done|]. split; [done|].
  split; [done|]. intros ->. cbn [Z.ltb Z.compare].
  rewrite !slength_app, !fmt_02d_length by lia. done.
Qed.

Lemma seconds_to_hms_decomposes_witness :
  plain_time (7451 # 2)
  ∧ ∃ h m s : Z,
      Qfloor (7451 # 2) = 3600 * h + 60 * m + s
      ∧ 0 ≤ h ∧ 0 ≤ m < 60 ∧ 0 ≤ s < 60
      ∧ seconds_to_hms (7451 # 2) =
        (if 0 <? h
         then fmt_02d h +:+ ":" +:+ fmt_02d m +:+ ":" +:+ fmt_02d s
         else fmt_02d m +:+ ":" +:+ fmt_02d s)
      ∧ (h = 0 → String.length (seconds_to_hms (7451 # 2)) = 5%nat).
Proof.
  assert (H : plain_time (7451 # 2)) by (split; vm_compute; congruence).
  split; [exact H|]. exact (seconds_to_hms_decomposes (7451 # 2) H).
Defined.

(** X6: the parser of [youtube_nearframe_transcript] reads a time
    displayed by [seconds_to_hms] back as its whole seconds. *)
Theorem displayed_time_parses (seconds : Q) :
  plain_time seconds →
  center_seconds (TsStr (seconds_to_hms seconds))
  = Ok (inject_Z (Qfloor seconds)).
Proof.
  intros Hpl. apply plain_time_floor in Hpl.
  destruct (hms_split _ Hpl) as (Hn & Hh & Hm & Hs).
  rewrite seconds_to_hms_fields. cbv zeta.
  set (n := Qfloor seconds) in *.
  destruct (fmt_02d_digits (n / 3600)) as (Hhd & _ & Hhv); [lia|].
  destruct (fmt_02d_digits (n mod 3600 / 60)) as (Hmd & _ & Hmv); [lia|].
  destruct (fmt_02d_digits (n mod 60)) as (Hsd & _ & Hsv); [lia|].
  unfold center_seconds, timestamp_parts.
  destruct (0 <? n / 3600) eqn:E.
  - rewrite !split_on_digits_colon, split_on_digits by done.
    cbn [mapM]. rewrite Hhv, Hmv, Hsv. simpl. f_equal. f_equal. lia.
  - apply Z.ltb_ge in E.
    rewrite !split_on_digits_colon, split_on_digits by done.
    cbn [mapM]. rewrite Hmv, Hsv. simpl. f_equal. f_equal. lia.
Qed.

Lemma displayed_time_parses_witness :
  plain_time (7451 # 2)
  ∧ center_seconds (TsStr (seconds_to_hms (7451 # 2)))
    = Ok (inject_Z (Qfloor (7451 # 2))).
Proof.
  assert (H : plain_time (7451 # 2)) by (split; vm_compute; congruence).
  split; [exact H|]. exact (displayed_time_parses (7451 # 2) H).
Defined.

(** ** The window around a timestamp *)







(** ** Timestamps that cannot be read *)

Lemma timestamp_parts_none (s p : string) :
  p ∈ split_on ":" s → py_int p = None → timestamp_parts s = None.
Proof.
  unfold timestamp_parts. intros Hp Hn.
  destruct (mapM py_int (split_on ":" s)) as [parts|] eqn:E; [|done].
  assert (His : is_Some (mapM py_int (split_on ":" s))) by (rewrite E; eauto).
  apply mapM_is_Some in His.
  apply (proj1 (Forall_forall _ _)) with (x := p) in His; [|done].
  simpl in His. rewrite Hn in His. by destruct His.
Qed.

(** X9: a timestamp string one of whose parts between colons is not an
    integer literal, such as an empty part, is answered with status 500 by
    [youtube_nearframe_transcript] for a known UUID, not with the 400 of
    an invalid timestamp format. *)
Theorem unreadable_timestamp_part (fadd : Q → Q → Q)
    (store : gmap string stored_transcript) (transcript_uuid s p : string)
    (stored : stored_transcript) :
  store !! transcript_uuid = Some stored →
  p ∈ split_on ":" s →
  py_int p = None →
  youtube_nearframe_transcript fadd store transcript_uuid (TsStr s) = Error 500.
Proof.
  intros Hu Hp Hn. unfold youtube_nearframe_transcript, center_seconds.
  by rewrite Hu, (timestamp_parts_none s p Hp Hn).
Qed.

Lemma unreadable_timestamp_part_witness :
  youtube_nearframe_transcript Qplus sample_store "7d4e" (TsStr "4:") = Error 500.
Proof.
  apply (unreadable_timestamp_part Qplus sample_store "7d4e" "4:" "" sample_stored).
  - apply lookup_singleton_eq.
  - simpl. apply list_elem_of_In. simpl. auto.
  - reflexivity.
Defined.

(** ** The rate limiter over a sequence of requests *)

Lemma filter_filter_impl {A} (P Q : A → Prop) `{∀ x, Decision (P x)}
    `{∀ x, Decision (Q x)} (l : list A) :
  (∀ x, P x → Q x) → filter P (filter Q l) = filter P l.
Proof.
  intros HPQ. induction l as [|x l IH]; [done|].
  rewrite !filter_cons. destruct (decide (Q x)) as [Hq|Hq].
  - rewrite filter_cons. destruct (decide (P x)); by rewrite IH.
  - destruct (decide (P x)) as [Hp|Hp]; [by destruct Hq; auto|done].
Qed.

Lemma in_window_later (fsub : Q → Q → Q) (window t t' r : Q) :
  monotone_sub fsub → (t <= t')%Q →
  in_window fsub window t' r = true → in_window fsub window t r = true.
Proof.
  unfold in_window. intros Hm Ht H. apply negb_true_iff in H.
  apply negb_true_iff. destruct (Qle_bool window (fsub t r)) eqn:E; [|done].
  apply Qle_bool_iff in E.
  assert (Hle : (window <= fsub t' r)%Q).
  { eapply Qle_trans; [exact E|]. by apply Hm. }
  apply Qle_bool_iff in Hle. congruence.
Qed.

Lemma clock_monotone_snoc (calls : list call) (c : call) (now : Q) :
  clock_monotone (calls ++ [c]) now →
  clock_monotone calls (c_time c) ∧ clock_monotone calls now ∧ (c_time c <= now)%Q.
Proof.
  intros [Hs Hn].
  assert (Hpre : ∀ i j d e, (i ≤ j)%nat → calls !! i = Some d →
                   calls !! j = Some e → (c_time d <= c_time e)%Q).
  { intros i j d e Hij Hd He.
    apply (Hs i j d e Hij); by apply lookup_app_l_Some. }
  split; [|split].
  - split; [done|]. intros d Hd.
    apply list_elem_of_lookup in Hd as [i Hi].
    apply (Hs i (length calls) d c).
    + apply lookup_lt_Some in Hi. lia.
    + by apply lookup_app_l_Some.
    + by rewrite lookup_app_r, Nat.sub_diag by lia.
  - split; [done|]. intros d Hd. apply Hn. apply elem_of_app. by left.
  - apply Hn. apply elem_of_app. right. by apply list_elem_of_singleton.
Qed.

Lemma serve_snoc (fsub : Q → Q → Q) (window : Q) (calls : list call) (c : call) :
  serve fsub window (calls ++ [c])
  = serve_step fsub window (serve fsub window calls) c.
Proof. unfold serve. by rewrite foldl_app. Qed.

Lemma admitted_times_snoc (history : list (call * bool)) (c : call) (ok : bool)
    (a : option string) :
  admitted_times (history ++ [(c, ok)]) a
  = admitted_times history a
    ++ (if ok && bool_decide (c_ident c = a) then [c_time c] else []).
Proof.
  unfold admitted_times. rewrite omap_app. f_equal. simpl.
  by destruct (ok && bool_decide (c_ident c = a)).
Qed.

(** What the store keeps for an address is, seen through the window of any
    later time, the list of its requests that were let through. *)
Lemma serve_store (fsub : Q → Q → Q) (window : Q) (calls : list call) :
  monotone_sub fsub →
  ∀ now a, clock_monotone calls now →
    filter (λ r, in_window fsub window now r = true)
           ((serve fsub window calls).1 !!! a)
    = filter (λ r, in_window fsub window now r = true)
             (admitted_times (serve fsub window calls).2 a).
Proof.
  intros Hm. induction calls as [|c calls IH] using rev_ind; intros now a Hclock.
  { unfold serve. cbn [foldl fst snd]. by rewrite lookup_total_empty. }
  apply clock_monotone_snoc in Hclock as (Hc & Hnow & Hle).
  rewrite serve_snoc. unfold serve_step.
  destruct (serve fsub window calls) as [store history] eqn:Es.
  cbn [fst snd] in *. rewrite admitted_times_snoc.
  unfold rate_limit.
  set (kept := filter _ (store !!! c_ident c)).
  assert (Hkept : filter (λ r, in_window fsub window now r = true) kept
                  = filter (λ r, in_window fsub window now r = true)
                      (admitted_times history (c_ident c))).
  { unfold kept. rewrite filter_filter_impl.
    - by apply IH.
    - intros r. by apply in_window_later. }
  destruct (decide (c_ident c = a)) as [<-|Hne].
  - rewrite bool_decide_eq_true_2, andb_true_r by done.
    destruct (c_max c <=? length kept)%nat; cbn [fst snd].
    + rewrite lookup_total_insert_eq, app_nil_r. exact Hkept.
    + rewrite lookup_total_insert_eq, !filter_app. by rewrite Hkept.
  - rewrite bool_decide_eq_false_2, andb_false_r, app_nil_r by done.
    destruct (c_max c <=? length kept)%nat; cbn [fst snd];
      rewrite lookup_total_insert_ne by done; by apply IH.
Qed.

(** X10: with requests served one after another and a clock that never
    goes back, [rate_limit] lets a request through exactly when fewer than
    [max_requests] earlier requests of the same address that were let
    through, to whichever endpoint, lie within the window; the requests
    it answered with 429 do not count. *)
Theorem rate_limit_decision (fsub : Q → Q → Q) (window : Q)
    (calls : list call) (c : call) :
  monotone_sub fsub →
  clock_monotone calls (c_time c) →
  (rate_limit fsub (c_max c) window (c_ident c) (c_time c)
     (serve fsub window calls).1).2
  = negb (c_max c <=?
          length (filter (λ r, in_window fsub window (c_time c) r = true)
                    (admitted_times (serve fsub window calls).2 (c_ident c))))%nat.
Proof.
  intros Hm Hclock. unfold rate_limit.
  rewrite (serve_store fsub window calls Hm (c_time c) (c_ident c) Hclock).
  by destruct (c_max c <=? _)%nat.
Qed.

Lemma monotone_sub_exact : monotone_sub Qminus.
Proof. intros t t' r Ht. lra. Qed.

Lemma rate_limit_decision_witness :
  (rate_limit Qminus (c_max sample_call) 60 (c_ident sample_call)
     (c_time sample_call) (serve Qminus 60 sample_calls).1).2
  = negb (c_max sample_call <=?
          length (filter (λ r, in_window Qminus 60 (c_time sample_call) r = true)
                    (admitted_times (serve Qminus 60 sample_calls).2
                       (c_ident sample_call))))%nat.
Proof.
  apply (rate_limit_decision Qminus 60 sample_calls sample_call).
  - exact monotone_sub_exact.
  - split.
    + intros i j c d Hij Hc Hd.
      destruct i as [|[|i]], j as [|[|j]]; simplify_eq/=; try lia;
        vm_compute; congruence.
    + intros c Hc. apply list_elem_of_In in Hc. simpl in Hc.
      destruct Hc as [<-|[<-|[]]]; vm_compute; congruence.
Defined.

(** ** Request validation *)

Lemma missing_fields_spec (required_fields : list string) (data : json) :
  match missing_fields required_fields data with
  | Some missing =>
      missing `sublist_of` required_fields
      ∧ ∀ f, f ∈ missing ↔ f ∈ required_fields ∧ py_in f data = Some false
  | None => required_fields ≠ [] ∧ ∀ f, py_in f data = None
  end.
Proof.
  induction required_fields as [|field rest IH]; simpl.
  { split; [done|]. intros f. split; [by intros ?%elem_of_nil|].
    by intros [?%elem_of_nil _]. }
  destruct (py_in field data) as [present|] eqn:Hp.
  - destruct (missing_fields rest data) as [missing|].
    + destruct IH as [Hsub IH]. destruct present.
      * split; [by apply sublist_cons|]. intros f. rewrite IH, elem_of_cons.
        split; [intros [? ?]; auto|]. intros [[->|?] ?]; [congruence|done].
      * split; [by apply sublist_skip|]. intros f.
        rewrite !elem_of_cons, IH. split.
        -- intros [->|[? ?]]; auto.
        -- intros [[->|?] ?]; auto.
    + destruct IH as [_ IH]. specialize (IH field). congruence.
  - split; [done|]. intros f. destruct data; simpl in *; congruence.
Qed.

Lemma py_in_none (f g : string) (data : json) :
  py_in f data = None → py_in g data = None.
Proof. by destruct data. Qed.

(** X11: [validate_json_request] lets a request through to the endpoint
    exactly when its content type is JSON, its body parses to a value
    that is true in Python, and [field in data] holds for every required
    field. *)
Theorem validation_passed (required_fields : list string) (is_json : bool)
    (body : option json) :
  validate_json_request required_fields is_json body = Proceed
  ↔ is_json = true
    ∧ ∃ data, body = Some data ∧ truthy data = true
              ∧ ∀ f, f ∈ required_fields → py_in f data = Some true.
Proof.
  unfold validate_json_request. destruct is_json; simpl;
    [|by split; [|intros [? _]]].
  destruct body as [data|]; [|by split; [|intros (_ & ? & ? & _)]].
  destruct (truthy data) eqn:Ht; simpl;
    [|split; [done|intros (_ & ? & [= <-] & ? & _); congruence]].
  pose proof (missing_fields_spec required_fields data) as Hm.
  destruct (missing_fields required_fields data) as [[|f0 missing]|] eqn:Em.
  - destruct Hm as [_ Hm]. split; [|done]. intros _. split; [done|].
    exists data. split; [done|]. split; [done|]. intros f Hf.
    destruct (py_in f data) as [[]|] eqn:Hp; [done| |].
    + exfalso. eapply elem_of_nil. apply Hm. eauto.
    + exfalso. destruct required_fields as [|g rest]; [by apply elem_of_nil in Hf|].
      simpl in Em. rewrite (py_in_none f g data Hp) in Em. done.
  - destruct Hm as [_ Hm]. split; [done|]. intros (_ & d & [= <-] & _ & Hall).
    destruct (proj1 (Hm f0)) as [Hf Hp]; [by left|].
    rewrite (Hall f0 Hf) in Hp. done.
  - destruct Hm as [Hne Hm]. split; [done|]. intros (_ & d & [= <-] & _ & Hall).
    destruct required_fields as [|g rest]; [done|].
    specialize (Hall g ltac:(by left)). rewrite Hm in Hall. done.
Qed.

(** X12: the 400 for missing fields lists the required fields that are
    not in the body, each as often and in the order in which the
    decorator requires it, and never an empty list. *)
Theorem missing_fields_answered (required_fields missing : list string)
    (is_json : bool) (body : option json) :
  validate_json_request required_fields is_json body = MissingFields missing →
  ∃ data, body = Some data
    ∧ missing ≠ []
    ∧ missing `sublist_of` required_fields
    ∧ ∀ f, f ∈ missing ↔ f ∈ required_fields ∧ py_in f data = Some false.
Proof.
  unfold validate_json_request. destruct is_json; simpl; [|done].
  destruct body as [data|]; [|done].
  destruct (truthy data); simpl; [|done].
  pose proof (missing_fields_spec required_fields data) as Hm.
  destruct (missing_fields required_fields data) as [[|f0 l]|]; [done| |done].
  intros [= <-]. exists data. by destruct Hm.
Qed.

Lemma missing_fields_answered_witness :
  ∃ data, Some (JObj [("uuid", JStr "7d4e")]) = Some data
    ∧ ["timestamp"] ≠ []
    ∧ ["timestamp"] `sublist_of` ["uuid"; "timestamp"]
    ∧ ∀ f, f ∈ ["timestamp"]
           ↔ f ∈ ["uuid"; "timestamp"] ∧ py_in f data = Some false.
Proof.
  exact (missing_fields_answered ["uuid"; "timestamp"] ["timestamp"] true
           (Some (JObj [("uuid", JStr "7d4e")])) eq_refl).
Defined.

(** ** Both decorators together *)

(** X13: under [rate_limit] and [validate_json_request], whether a request
    is answered 429 and what it leaves in the rate limiter's store depend
    on its address and time only: a request that validation refuses is
    recorded, and counts against the limit, like one that is served. *)
Theorem limit_ignores_validity (fsub : Q → Q → Q) (max_requests : nat)
    (window : Q) (required_fields : list string) (req req' : request)
    (current_time : Q) (store : gmap (option string) (list Q)) :
  remote_addr req = remote_addr req' →
  (guarded fsub max_requests window required_fields req current_time store).1
  = (guarded fsub max_requests window required_fields req' current_time store).1
  ∧ ((guarded fsub max_requests window required_fields req current_time store).2
     = None
     ↔ (guarded fsub max_requests window required_fields req' current_time store).2
       = None)
  ∧ ((guarded fsub max_requests window required_fields req current_time store).2
     ≠ None →
     last ((guarded fsub max_requests window required_fields req current_time
              store).1 !!! remote_addr req) = Some current_time).
Proof.
  intros Haddr. unfold guarded. rewrite <- Haddr.
  split; [done|]. split.
  - by destruct (rate_limit _ _ _ _ _ _).2.
  - unfold rate_limit.
    destruct (max_requests <=? _)%nat; cbn [fst snd]; [done|].
    intros _. by rewrite lookup_total_insert_eq, last_snoc.
Qed.

Lemma limit_ignores_validity_witness :
  (guarded Qminus 30 60 ["videoId"] invalid_request 100 ∅).1
  = (guarded Qminus 30 60 ["videoId"] valid_request 100 ∅).1
  ∧ ((guarded Qminus 30 60 ["videoId"] invalid_request 100 ∅).2 = None
     ↔ (guarded Qminus 30 60 ["videoId"] valid_request 100 ∅).2 = None)
  ∧ ((guarded Qminus 30 60 ["videoId"] invalid_request 100 ∅).2 ≠ None →
     last ((guarded Qminus 30 60 ["videoId"] invalid_request 100 ∅).1
             !!! remote_addr invalid_request) = Some (100 : Q)).
Proof.
  exact (limit_ignores_validity Qminus 30 60 ["videoId"] invalid_request
           valid_request 100 ∅ eq_refl).
Defined.

(** ** Allowed origins *)

Lemma strip_prefix_spec (p s r : string) :
  strip_prefix p s = Some r ↔ s = p +:+ r.
Proof.
  revert s. induction p as [|a p IH]; intros s.
  - simpl. split; [by intros [= ->]|by intros ->].
  - destruct s as [|b s]; simpl; [done|].
    rewrite sapp_cons. destruct (Ascii.eqb a b) eqn:E.
    + apply Ascii.eqb_eq in E as ->. rewrite IH.
      split; [by intros ->|by intros [= ->]].
    + apply Ascii.eqb_neq in E. split; [done|]. intros [= <- _]. done.
Qed.

Lemma sapp_inj_l (s t u : string) : s +:+ t = s +:+ u → t = u.
Proof.
  induction s as [|c s IH]; [done|]. rewrite !sapp_cons. intros [= H]. auto.
Qed.

Lemma at_end_spec (r : string) : at_end r = true ↔ r = "" ∨ r = nl.
Proof.
  unfold at_end. rewrite orb_true_iff, !String.eqb_eq. done.
Qed.

Lemma match_rest_spec (suffix r : string) :
  match_rest suffix r = true
  ↔ ∃ tail, r = suffix +:+ tail ∧ (tail = "" ∨ tail = nl).
Proof.
  unfold match_rest. destruct (strip_prefix suffix r) as [r'|] eqn:E.
  - apply strip_prefix_spec in E as ->. rewrite at_end_spec. split.
    + intros H. by exists r'.
    + intros (tail & Ht & H). by apply sapp_inj_l in Ht as <-.
  - split; [done|]. intros (tail & -> & _).
    assert (H : strip_prefix suffix (suffix +:+ tail) = Some tail)
      by by apply strip_prefix_spec.
    congruence.
Qed.

Lemma match_plus_spec (cls : ascii → bool) (suffix s : string) :
  match_plus cls suffix s = true
  ↔ ∃ mid tail, s = mid +:+ suffix +:+ tail ∧ (tail = "" ∨ tail = nl)
                ∧ mid ≠ "" ∧ all_in cls mid = true.
Proof.
  induction s as [|c s IH]; simpl.
  { split; [done|]. intros (mid & tail & H & _ & Hne & _).
    destruct mid; [done|]. by rewrite sapp_cons in H. }
  rewrite andb_true_iff, orb_true_iff, IH, match_rest_spec. split.
  - intros [Hc [(mid & tail & -> & Ht & Hne & Hall)|(tail & -> & Ht)]].
    + exists (String c mid), tail. rewrite sapp_cons. simpl. by rewrite Hc, Hall.
    + exists (String c ""), tail. simpl. by rewrite Hc.
  - intros (mid & tail & H & Ht & Hne & Hall).
    destruct mid as [|d mid]; [done|]. rewrite sapp_cons in H.
    injection H as <- ->. simpl in Hall. apply andb_true_iff in Hall as [Hc Hall].
    split; [done|]. destruct mid as [|e mid].
    + right. by exists tail.
    + left. by exists (String e mid), tail.
Qed.

Lemma re_match_spec (pat : origin_pattern) (o : string) :
  re_match pat o = true ↔ in_pattern pat o.
Proof.
  unfold re_match, in_pattern.
  destruct (strip_prefix (p_prefix pat) o) as [r|] eqn:E.
  - apply strip_prefix_spec in E as ->. destruct (p_class pat) as [cls|].
    + rewrite match_plus_spec. split.
      * intros (mid & tail & -> & Ht & Hne & Hall). by exists mid, tail.
      * intros (mid & tail & H & Ht & Hne & Hall).
        apply sapp_inj_l in H as ->. by exists mid, tail.
    + rewrite match_rest_spec. split.
      * intros (tail & -> & Ht). by exists "", tail.
      * intros (mid & tail & H & Ht & ->).
        apply sapp_inj_l in H as ->. by exists tail.
  - split; [done|]. intros (mid & tail & -> & _).
    assert (H : strip_prefix (p_prefix pat)
                  (p_prefix pat +:+ mid +:+ p_suffix pat +:+ tail)
                = Some (mid +:+ p_suffix pat +:+ tail))
      by by apply strip_prefix_spec.
    congruence.
Qed.

(** X14: [is_origin_allowed] accepts an origin exactly when it is not
    empty and either is the string null with [ALLOW_NULL_ORIGIN] set, or is
    another string that has the form of one of the built-in patterns or is
    matched by an extra pattern of the environment. For null the patterns
    are never asked. *)
Theorem origin_allowed_iff (cfg : config) (origin : option string) :
  is_origin_allowed cfg origin = true
  ↔ ∃ o, origin = Some o ∧ o ≠ ""
      ∧ ((o = "null" ∧ ALLOW_NULL_ORIGIN cfg = true)
         ∨ (o ≠ "null"
            ∧ ((∃ pat, pat ∈ ALLOWED_ORIGINS ∧ in_pattern pat o)
               ∨ (∃ m, m ∈ extra_patterns cfg ∧ m o = true)))).
Proof.
  unfold is_origin_allowed. destruct origin as [o|]; [|by split; [|intros (? & ? & _)]].
  destruct o as [|c o]; [by split; [|intros (? & [= <-] & ? & _)]|].
  cbn [nonempty negb]. set (s := String c o).
  destruct (String.eqb s "null") eqn:E.
  - apply String.eqb_eq in E. split.
    + intros H. exists s. split; [done|]. split; [done|]. by left.
    + intros (? & [= <-] & _ & [[_ H]|[H _]]); done.
  - apply String.eqb_neq in E. rewrite orb_true_iff, !existsb_exists. split.
    + intros H. exists s. split; [done|]. split; [done|]. right. split; [done|].
      destruct H as [(pat & Hin & Hm)|(m & Hin & Hm)].
      * left. exists pat. split; [by apply list_elem_of_In|by apply re_match_spec].
      * right. exists m. split; [by apply list_elem_of_In|done].
    + intros (? & [= <-] & _ & [[H _]|[_ H]]); [done|].
      destruct H as [(pat & Hin & Hm)|(m & Hin & Hm)].
      * left. exists pat. split; [by apply list_elem_of_In|by apply re_match_spec].
      * right. exists m. split; [by apply list_elem_of_In|done].
Qed.

(** ** Response headers *)

Ltac header_lookup :=
  repeat first
    [ rewrite lookup_insert_eq
    | rewrite lookup_insert_ne by done
    | rewrite lookup_empty ].

(** X15: [add_security_and_cors_headers] names an origin in
    [Access-Control-Allow-Origin] only if it is the origin of the request
    and [is_origin_allowed] accepts it, and then it does; it sets the
    three security headers on every response, and
    [Strict-Transport-Security] when [DEBUG] is off. *)
Theorem allow_origin_header (cfg : config) (origin : option string)
    (headers : gmap string string) (o : string) :
  headers !! "Access-Control-Allow-Origin" = None →
  let h := add_security_and_cors_headers cfg origin headers in
  (h !! "Access-Control-Allow-Origin" = Some o
   ↔ origin = Some o ∧ is_origin_allowed cfg origin = true)
  ∧ h !! "X-Frame-Options" = Some "DENY"
  ∧ h !! "X-Content-Type-Options" = Some "nosniff"
  ∧ h !! "X-XSS-Protection" = Some "1; mode=block"
  ∧ (DEBUG cfg = false →
     h !! "Strict-Transport-Security"
     = Some "max-age=31536000; includeSubDomains").
Proof.
  intros Hnone h. subst h. unfold add_security_and_cors_headers.
  assert (Hgiven : is_origin_allowed cfg origin = true →
                   origin_given origin = true).
  { destruct origin as [[|c s]|]; simpl; done. }
  split; [|by destruct origin as [o'|], (DEBUG cfg); simpl;
              try destruct (origin_given _ && is_origin_allowed _ _);
              header_lookup].
  destruct origin as [o'|].
  - destruct (is_origin_allowed cfg (Some o')) eqn:Ha.
    + rewrite Hgiven by done. cbn [andb].
      destruct (DEBUG cfg); simpl; header_lookup;
        (split; [by intros [= ->]|by intros [[= ->] _]]).
    + rewrite andb_false_r.
      destruct (DEBUG cfg); simpl; header_lookup; rewrite Hnone;
        (split; [done|by intros [_ ?]]).
  - destruct (DEBUG cfg); simpl; header_lookup; rewrite Hnone;
      (split; [done|by intros [? _]]).
Qed.

Lemma allow_origin_header_witness :
  let h := add_security_and_cors_headers production
             (Some "https://www.youtube.com") ∅ in
  (h !! "Access-Control-Allow-Origin" = Some "https://www.youtube.com"
   ↔ Some "https://www.youtube.com" = Some "https://www.youtube.com"
     ∧ is_origin_allowed production (Some "https://www.youtube.com") = true)
  ∧ h !! "X-Frame-Options" = Some "DENY"
  ∧ h !! "X-Content-Type-Options" = Some "nosniff"
  ∧ h !! "X-XSS-Protection" = Some "1; mode=block"
  ∧ (DEBUG production = false →
     h !! "Strict-Transport-Security"
     = Some "max-age=31536000; includeSubDomains").
Proof.
  exact (allow_origin_header production (Some "https://www.youtube.com") ∅
           "https://www.youtube.com" (lookup_empty _)).
Defined.

(** X16: a request is answered by [handle_preflight_and_logging] only if
    its method is OPTIONS and it names an origin; the answer is then 200
    with the origin in [Access-Control-Allow-Origin] when
    [is_origin_allowed] accepts the origin, and 403 without that header
    when it does not, in both cases with [X-Frame-Options]. *)
Theorem preflight_answered (cfg : config) (method : string)
    (origin : option string) :
  match preflight_response cfg method origin with
  | None => method ≠ "OPTIONS" ∨ origin_given origin = false
  | Some (status, h) =>
      method = "OPTIONS"
      ∧ h !! "X-Frame-Options" = Some "DENY"
      ∧ ∃ o, origin = Some o ∧ o ≠ ""
          ∧ if is_origin_allowed cfg origin
            then status = 200%nat
                 ∧ h !! "Access-Control-Allow-Origin" = Some o
            else status = 403%nat
                 ∧ h !! "Access-Control-Allow-Origin" = None
  end.
Proof.
  unfold preflight_response, handle_preflight_and_logging.
  destruct (String.eqb method "OPTIONS") eqn:Em.
  2: { left. by apply String.eqb_neq. }
  apply String.eqb_eq in Em as ->.
  destruct origin as [o|]; [|by right].
  destruct (origin_given (Some o)) eqn:Hg; [|by rewrite andb_false_l; right].
  assert (Hne : o ≠ "") by (by destruct o).
  cbn [andb]. destruct (is_origin_allowed cfg (Some o)) eqn:Ha.
  - split; [done|].
    unfold add_security_and_cors_headers. rewrite Hg, Ha. cbn [andb].
    split.
    + destruct (DEBUG cfg); simpl; by header_lookup.
    + exists o. split; [done|]. split; [done|]. split; [done|].
      destruct (DEBUG cfg); simpl; by header_lookup.
  - split; [done|].
    unfold add_security_and_cors_headers. rewrite Hg, Ha. cbn [andb].
    split.
    + destruct (DEBUG cfg); simpl; by header_lookup.
    + exists o. split; [done|]. split; [done|]. split; [done|].
      destruct (DEBUG cfg); simpl; by header_lookup.
Qed.

(** ** The flattening check and the extraction *)

Lemma true_image_among_block fsub fmul fdiv thr area (blocks : list block) :
  true_image_among fsub fmul fdiv thr area blocks = Some true →
  ∃ b, b ∈ blocks ∧ block_type b = Some 1.
Proof.
  induction blocks as [|b blocks IH]; simpl; [done|].
  destruct (bool_decide (block_type b = Some 1)) eqn:Hb.
  - intros _. exists b. split; [by left|]. by apply bool_decide_eq_true in Hb.
  - intros H. destruct (IH H) as (b' & Hin & Ht). exists b'. split; [by right|done].
Qed.

Lemma has_true_images_block fsub fmul fdiv thr (doc : list pdf_page) :
  has_true_images fsub fmul fdiv thr doc = Some true →
  ∃ pg b, pg ∈ doc ∧ b ∈ raw_blocks pg ∧ block_type b = Some 1.
Proof.
  induction doc as [|pg doc IH]; simpl; [done|].
  destruct (true_image_among _ _ _ _ _ _) as [[]|] eqn:Hp; [| |done].
  - intros _. destruct (true_image_among_block _ _ _ _ _ _ Hp) as (b & Hin & Ht).
    exists pg, b. split; [by left|done].
  - intros H. destruct (IH H) as (pg' & b & Hin & Hb).
    exists pg', b. split; [by right|done].
Qed.

Lemma server_block_counter dir pi st (b : block) :
  (∀ x f, Server.xref_to_filename st !! x = Some f →
          (1 ≤ Server.image_counter st)%nat) →
  (∀ x f, Server.xref_to_filename (Server.process_block dir pi st b).1.1 !! x
          = Some f →
          (1 ≤ Server.image_counter (Server.process_block dir pi st b).1.1)%nat)
  ∧ (Server.image_counter st
     ≤ Server.image_counter (Server.process_block dir pi st b).1.1)%nat
  ∧ (block_type b = Some 1 →
     (1 ≤ Server.image_counter (Server.process_block dir pi st b).1.1)%nat).
Proof.
  intros HJ.
  destruct (server_process_block_allocates dir pi st b) as [[Hle _] _].
  split; [|split; [done|]].
  - destruct (server_block_cases dir pi st b)
      as [[_ ->]|[(x & f & _ & _ & -> & _)|[(x & _ & _ & Hc & _)|(_ & Hc & _)]]];
      try done.
    + intros y g _. rewrite Hc. lia.
    + intros y g _. rewrite Hc. lia.
  - intros Ht. unfold Server.process_block. rewrite Ht.
    destruct (xref_truthy (block_xref b)) as [x|]; [|simpl; lia].
    destruct (Server.xref_to_filename st !! x) as [f|] eqn:Hf; [|simpl; lia].
    simpl. by apply (HJ x f).
Qed.

Lemma server_blocks_counter dir pi (blocks : list block) : ∀ st,
  (∀ x f, Server.xref_to_filename st !! x = Some f →
          (1 ≤ Server.image_counter st)%nat) →
  (∀ x f, Server.xref_to_filename (Server.blocks_loop dir pi st blocks).1.1 !! x
          = Some f →
          (1 ≤ Server.image_counter (Server.blocks_loop dir pi st blocks).1.1)%nat)
  ∧ (Server.image_counter st
     ≤ Server.image_counter (Server.blocks_loop dir pi st blocks).1.1)%nat
  ∧ ((∃ b, b ∈ blocks ∧ block_type b = Some 1) →
     (1 ≤ Server.image_counter (Server.blocks_loop dir pi st blocks).1.1)%nat).
Proof.
  induction blocks as [|b blocks IH]; intros st HJ.
  { simpl. split; [done|]. split; [done|]. by intros (b & ?%elem_of_nil & _). }
  destruct (server_block_counter dir pi st b HJ) as (HJ1 & Hle1 & Hb).
  simpl. destruct (Server.process_block dir pi st b) as [[st1 its1] evs1].
  cbn [fst snd] in *. destruct (IH st1 HJ1) as (HJ2 & Hle2 & Hbs).
  destruct (Server.blocks_loop dir pi st1 blocks) as [[st2 its2] evs2].
  cbn [fst snd] in *. split; [done|]. split; [lia|].
  intros (b' & Hin & Ht). apply elem_of_cons in Hin as [->|Hin].
  - specialize (Hb Ht). lia.
  - apply Hbs. by exists b'.
Qed.

Lemma server_pages_counter dir eng (pages : list page) : ∀ pi st,
  (∀ x f, Server.xref_to_filename st !! x = Some f →
          (1 ≤ Server.image_counter st)%nat) →
  (∃ pg b, pg ∈ pages ∧ b ∈ pg ∧ block_type b = Some 1) →
  (1 ≤ Server.image_counter (Server.pages_loop dir eng pi st pages).1.1)%nat.
Proof.
  induction pages as [|pg pages IH]; intros pi st HJ.
  { by intros (pg & b & ?%elem_of_nil & _). }
  intros (pg' & b & Hin & Hb & Ht).
  destruct (server_blocks_counter dir pi pg st HJ) as (HJ1 & Hle1 & Hbs).
  destruct (server_pages_loop_allocates dir eng pages (S pi)
              (Server.process_page dir eng pi st pg).1.1) as [[Hle2 _] _].
  simpl. rewrite server_process_page_eq in *. cbn [fst snd] in *.
  destruct (Server.blocks_loop dir pi st pg) as [[st1 its1] evs1].
  cbn [fst snd] in *. destruct (merge_page eng pi its1) as [merged evs].
  cbn [fst snd] in *.
  specialize (IH (S pi) st1 HJ1).
  destruct (Server.pages_loop dir eng (S pi) st1 pages) as [[st2 ls2] evs2].
  cbn [fst snd] in *.
  apply elem_of_cons in Hin as [->|Hin].
  - assert (1 ≤ Server.image_counter st1)%nat by (apply Hbs; by exists b).
    lia.
  - apply IH. by exists pg', b.
Qed.

(** X17: when [check_flattening] recommends the backend for a PDF,
    [extract_pdf_images_and_text] on the same PDF returns at least one
    image. *)
Theorem backend_recommended (fsub fmul fdiv : Q → Q → Q)
    (upload : option string) (doc : list pdf_page) (dir : string)
    (eng : ocr_engine) (answer : flattening_answer) :
  check_flattening fsub fmul fdiv upload doc = Ok answer →
  fa_recommendation answer = "backend" →
  (Server.extract_pdf_images_and_text dir eng (map raw_blocks doc)).2 ≠ [].
Proof.
  unfold check_flattening. destruct upload as [filename|]; [|done].
  destruct (String.eqb filename ""); [done|].
  destruct (has_true_images fsub fmul fdiv (9 # 10) doc) as [has|] eqn:Hh; [|done].
  intros [= <-]. cbn [fa_recommendation].
  destruct has; [|done]. intros _.
  destruct (has_true_images_block fsub fmul fdiv (9 # 10) doc Hh)
    as (pg & b & Hpg & Hb & Ht).
  rewrite server_extract_eq. cbn [snd].
  destruct (server_run_allocates dir eng (map raw_blocks doc)) as [Hn ->].
  rewrite Hn.
  assert (Hc : (1 ≤ Server.image_counter
                      (Server.run dir eng (map raw_blocks doc)).1.1)%nat).
  { apply server_pages_counter.
    - intros x f Hf. exfalso. revert Hf.
      change (Server.xref_to_filename Server.init) with (∅ : gmap Z string).
      by rewrite lookup_empty.
    - exists (raw_blocks pg), b. split; [|done].
      apply list_elem_of_fmap. by exists pg. }
  destruct (Server.image_counter _); [lia|done].
Qed.

Lemma backend_recommended_witness :
  (Server.extract_pdf_images_and_text "images" summary_engine
     (map raw_blocks sample_pdf)).2 ≠ [].
Proof.
  exact (backend_recommended Qminus Qmult Qdiv (Some "slides.pdf") sample_pdf
           "images" summary_engine _ eq_refl eq_refl).
Defined.

Lemma true_image_among_none fsub fmul fdiv thr area (blocks : list block) :
  (∀ b, b ∈ blocks → block_type b ≠ Some 1) →
  true_image_among fsub fmul fdiv thr area blocks = Some false.
Proof.
  induction blocks as [|b blocks IH]; simpl; [done|]. intros H.
  rewrite bool_decide_eq_false_2 by (apply H; by left).
  apply IH. intros b' Hb'. apply H. by right.
Qed.

(** X18: a PDF none of whose pages has an image block, such as a PDF of
    text only, is reported by [check_flattening] as flattened, with the
    recommendation mineru, whatever the sizes of its pages. *)
Theorem text_only_reported_flattened (fsub fmul fdiv : Q → Q → Q)
    (filename : string) (doc : list pdf_page) :
  filename ≠ "" →
  (∀ pg b, pg ∈ doc → b ∈ raw_blocks pg → block_type b ≠ Some 1) →
  check_flattening fsub fmul fdiv (Some filename) doc
  = Ok {| fa_is_flattened := true; fa_has_true_images := false;
          fa_recommendation := "mineru" |}.
Proof.
  intros Hne Hno. unfold check_flattening.
  apply String.eqb_neq in Hne. rewrite Hne.
  assert (Hh : has_true_images fsub fmul fdiv (9 # 10) doc = Some false).
  { induction doc as [|pg doc IH]; [done|]. simpl.
    rewrite true_image_among_none.
    - apply IH. intros pg' b Hpg. apply Hno. by right.
    - intros b. apply Hno. by left. }
  by rewrite Hh.
Qed.

Lemma text_only_reported_flattened_witness :
  check_flattening Qminus Qmult Qdiv (Some "slides.pdf")
    [ {| rect_width := 100; rect_height := 100; raw_blocks := titled_page |} ]
  = Ok {| fa_is_flattened := true; fa_has_true_images := false;
          fa_recommendation := "mineru" |}.
Proof.
  apply (text_only_reported_flattened Qminus Qmult Qdiv "slides.pdf").
  - done.
  - intros pg b Hpg Hb. apply list_elem_of_singleton in Hpg as ->.
    cbn [raw_blocks] in Hb. unfold titled_page in Hb.
    repeat (apply elem_of_cons in Hb as [->|Hb]; [done|]).
    by apply elem_of_nil in Hb.
Defined.
